(** * Batched dense linear-algebra kernels (ATen/native/BatchLinearAlgebraKernel.cpp)

  A shallow embedding of the CPU kernels that drive LAPACK over a batch of
  same-shaped matrices, together with the properties of the natural-language
  specification that concern them.

  Conventions of the embedding:
  - [int64_t] and [int] values are integers of [Z]; the index arithmetic
    [i * stride + j] is carried out in [Z] (signed overflow is undefined in
    C++, and every index that passes the bounds check of a buffer is far
    below [2^63]).  The narrowing conversion from [int64_t] to [int] is
    written out as [int_of_int64].
  - a raw buffer is a [list] of elements and a pointer into it is an offset;
    reading or writing outside of the buffer is undefined behaviour and is
    reported as [None] / [Undefined].
  - values of [value_t] (float or double) are rationals, which covers the
    finite values; only their conversion to [int] matters here.  It is the
    truncation toward zero when that is an [int]; C++ leaves it undefined
    otherwise, and the [int] that compiled code then holds is a parameter
    of the element type ([int_of_value], [fits_int]).
  - scratch buffers ([work], [rwork], [iwork]) are private to a kernel and
    only their sizes are passed on; they are not part of the state.
  - the kernels are modelled in the build that defines [USE_LAPACK]. *)

From Stdlib Require Import ZArith QArith Qround Lia Ascii String.
From stdpp Require Import base tactics numbers option list strings gmap.

Local Open Scope Z_scope.

(** ** Element types

  [scalar_t] ranges over the floating and complex types selected by
  [AT_DISPATCH_FLOATING_AND_COMPLEX_TYPES].  The kernels use an element type
  only through [conj_impl], [real_impl] (zmath.h), [is_complex] and the
  conversion of its [value_t] to [int].  C++ defines that conversion only
  for a value whose truncation is an [int]; for any other value the
  behaviour is undefined, and what compiled code then leaves in the [int]
  is not fixed by the source: [int_out_of_range] stands for it, so that
  what is proved of the kernels holds whatever it is. *)

Class Scalar (T : Type) := {
conj_impl : T → T;
real_impl : T → Q;
is_complex : bool;
int_out_of_range : Q → Z
}.

(** Modelled from the spec: zmath.h is not part of the excerpt; conjugation is
  "a no-op for real element types" and the size hint's "real component must
  be extracted explicitly for complex element types". *)
#[export] Instance real_scalar : Scalar Q := {
conj_impl x := x;
real_impl x := x;
is_complex := false;
int_out_of_range x := - 2 ^ 31   (* x86: cvttsd2si gives INT_MIN *)
}.

#[export] Instance complex_scalar : Scalar (Q * Q) := {
conj_impl z := (fst z, Qopp (snd z));
real_impl z := fst z;
is_complex := true;
int_out_of_range x := - 2 ^ 31
}.

(** ** Raw buffers *)

Section Buffer.
Context {T : Type}.

(** [self[p]] as an rvalue. *)
Definition load (buf : list T) (p : Z) : option T :=
  if decide (0 ≤ p) then buf !! Z.to_nat p else None.

(** [self[p] = v]. *)
Definition store (buf : list T) (p : Z) (v : T) : option (list T) :=
  if decide (0 ≤ p < Z.of_nat (length buf))
  then Some (<[Z.to_nat p := v]> buf) else None.

(** [for (k = k0; ...; k++) body], run for [count] iterations. *)
Fixpoint for_loop (count : nat) (k : Z)
    (body : Z → list T → option (list T)) (buf : list T) : option (list T) :=
  match count with
  | O => Some buf
  | S c => buf' ← body k buf; for_loop c (k + 1) body buf'
  end.

(** [for (k = lo; k < hi; k++) body]. *)
Definition for_range (lo hi : Z) (body : Z → list T → option (list T)) :=
  for_loop (Z.to_nat (hi - lo)) lo body.
End Buffer.

(** ** The triangle symmetrization pass: [apply_reflect_conj_tri_single] *)

Section Symmetrization.
Context {T : Type} `{Scalar T}.

(** [self[i * stride + j] = conj_impl(self[j * stride + i])]. *)
Definition reflect_assign (self stride i j : Z) (buf : list T) : option (list T) :=
  v ← load buf (self + (j * stride + i));
  store buf (self + (i * stride + j)) (conj_impl v).

(** The two lambdas bound to [loop]. *)
Definition loop_upper (self n stride start end_ : Z) : list T → option (list T) :=
  for_range start end_ (λ i,
    for_range (i + 1) n (λ j, reflect_assign self stride i j)).

Definition loop_lower (self n stride start end_ : Z) : list T → option (list T) :=
  for_range start end_ (λ i,
    for_range 0 i (λ j, reflect_assign self stride i j)).

(** Modelled from the spec: [at::parallel_for] is not part of the excerpt;
    above the threshold the pass must "partition rows across workers".  The
    partition chosen by the thread pool, listed in the order in which the
    workers' chunks take effect, is the parameter [chunking]; each chunk
    [(b, e)] runs [f b e]. *)
Definition parallel_for (chunking : Z → Z → list (Z * Z))
    (begin end_ grain_size : Z)
    (f : Z → Z → list T → option (list T)) (buf : list T) : option (list T) :=
  foldl (λ acc c, buf' ← acc; f c.1 c.2 buf') (Some buf) (chunking begin end_).

Definition apply_reflect_conj_tri_single (chunking : Z → Z → list (Z * Z))
    (buf : list T) (self n stride : Z) (upper : bool) : option (list T) :=
  let loop := if upper then loop_upper self n stride
              else loop_lower self n stride in
  (* For small matrices OpenMP overhead is too large *)
  if decide (n < 256) then loop 0 n buf
  else parallel_for chunking 0 n 0 loop buf.
End Symmetrization.


(** ** Tensors as the kernels see them *)

(** Modelled from the spec: the tensor container and LinearAlgebraUtils.h are
    not part of the excerpt.  A kernel knows a tensor by its sizes and by the
    buffer behind [data_ptr]; [batchCount] is the "product of all
    leading/batch dimensions" and [matrixStride] the "distance between
    consecutive matrices' first elements".  [size t (-1)] is the last
    dimension; a dimension that does not exist reads as [0] (the kernels are
    only called on tensors with at least two dimensions). *)
Definition size (t : list Z) (d : Z) : Z :=
  let k := if decide (d < 0) then Z.of_nat (length t) + d else d in
  if decide (0 ≤ k) then default 0 (t !! Z.to_nat k) else 0.

Definition numel (t : list Z) : Z := foldr Z.mul 1 t.

Definition batchCount (t : list Z) : Z :=
  foldr Z.mul 1 (take (length t - 2) t).

Definition matrixStride (t : list Z) : Z := size t (-1) * size t (-2).

(** ** Conversions to [int] *)

(** [int64_t] to [int]: reduction modulo [2^32] into the signed range. *)
Definition int_of_int64 (z : Z) : Z := (z + 2 ^ 31) mod 2 ^ 32 - 2 ^ 31.

(** [value_t] to [int].  The conversion truncates toward zero and is defined
    when the truncated value is an [int]; otherwise the [int] it leaves is
    the element type's [int_out_of_range], brought into the range of [int]. *)
Definition truncate (q : Q) : Z := Z.quot (Qnum q) (Z.pos (Qden q)).

Definition fits_int (q : Q) : Prop := - 2 ^ 31 ≤ truncate q < 2 ^ 31.

#[export] Instance fits_int_dec (q : Q) : Decision (fits_int q).
Proof. unfold fits_int. apply _. Defined.

Definition int_of_value {T} `{Scalar T} (q : Q) : Z :=
  if decide (fits_int q) then truncate q
  else int_of_int64 (int_out_of_range (T := T) q).

(** ** The LAPACK bindings

    The numeric primitives are external.  A call is described by the
    arguments the kernel passes (pointers are offsets into the tensor they
    point into); what LAPACK does with the buffers, the size hints it leaves
    in the first slot of each scratch array on a size query, and the status it
    reports are given by a parameter [lapack] of the kernels. *)

Inductive request :=
| lapackCholeskyInverse (uplo : ascii) (n a lda : Z)
| lapackEig (jobvl jobvr : ascii) (n a lda w : Z) (vl : option Z) (ldvl : Z)
    (vr : option Z) (ldvr lwork : Z)
| lapackSyevd (jobz uplo : ascii) (n a lda w lwork lrwork liwork : Z)
| lapackGeqrf (m n a lda tau lwork : Z)
| lapackOrgqr (m n k a lda tau lwork : Z)
| lapackTriangularSolve (uplo trans diag : ascii) (n nrhs a lda b ldb : Z).

Record reply (T : Type) := Reply {
  work_out : T;        (* work[0] *)
  rwork_out : Q;       (* rwork[0] *)
  iwork_out : Z;       (* iwork[0] *)
  info_out : Z         (* *info *)
}.
Arguments Reply {T}.
Arguments work_out {T}.
Arguments rwork_out {T}.
Arguments iwork_out {T}.
Arguments info_out {T}.

(** Where the [info] pointer of a call points: at a slot of the status vector
    [infos], or at a local variable of the kernel. *)
Inductive info_dest := InfoSlot (i : Z) | InfoLocal.

Definition event : Type := request * info_dest.

(** The workspace size argument of a call, for the routines that have one. *)
Definition lwork_of (r : request) : option Z :=
  match r with
  | lapackEig _ _ _ _ _ _ _ _ _ _ lwork => Some lwork
  | lapackSyevd _ _ _ _ _ _ lwork _ _ => Some lwork
  | lapackGeqrf _ _ _ _ _ lwork => Some lwork
  | lapackOrgqr _ _ _ _ _ _ lwork => Some lwork
  | lapackCholeskyInverse _ _ _ _ => None
  | lapackTriangularSolve _ _ _ _ _ _ _ _ _ => None
  end.

(** A size query is a call with workspace size [-1]. *)
Definition is_size_query (e : event) : bool :=
  match lwork_of e.1 with
  | Some lwork => bool_decide (lwork = -1)
  | None => false
  end.

(** The status slot a call writes, if it writes one. *)
Definition info_slot (e : event) : option Z :=
  match e.2 with
  | InfoSlot i => Some i
  | InfoLocal => None
  end.

(** The status slots written by a run, in the order of the writes. *)
Definition status_writes (tr : list event) : list Z := omap info_slot tr.

(** The per-matrix calls of a run: everything but the size queries. *)
Definition matrix_calls (tr : list event) : list event :=
  filter (λ e, is_size_query e = false) tr.

Definition size_queries (tr : list event) : list event :=
  filter (λ e, is_size_query e = true) tr.

(** ** Kernel state and control *)

Record state (D : Type) := State {
  data : D;               (* the tensors' buffers *)
  infos : list Z;         (* the status vector *)
  trace : list event      (* the LAPACK calls made so far *)
}.
Arguments State {D}.
Arguments data {D}.
Arguments infos {D}.
Arguments trace {D}.

Inductive outcome (S A : Type) :=
| Returned (a : A) (s : S)     (* the kernel returned *)
| AssertionFailure (s : S)     (* a TORCH_INTERNAL_ASSERT fired *)
| Undefined.                   (* access outside of a buffer *)
Arguments Returned {S A}.
Arguments AssertionFailure {S A}.
Arguments Undefined {S A}.

Definition kernel (D A : Type) : Type := state D → outcome (state D) A.

#[export] Instance kernel_ret {D} : MRet (kernel D) :=
  λ A a st, Returned a st.

#[export] Instance kernel_bind {D} : MBind (kernel D) :=
  λ A B f m st,
    match m st with
    | Returned a st' => f a st'
    | AssertionFailure st' => AssertionFailure st'
    | Undefined => Undefined
    end.

(** The state in which a run ended, when it did not go wrong. *)
Definition final_state {D A} (o : outcome (state D) A) : option (state D) :=
  match o with
  | Returned _ s => Some s
  | AssertionFailure s => Some s
  | Undefined => None
  end.

Section Control.
Context {T : Type} {D : Type}.
Variable lapack : request → D → D * reply T.

(** One call of a LAPACK binding: the buffers are updated, the call is
    logged, and the status goes where [dest] points. *)
Definition call (r : request) (dest : info_dest) : kernel D (reply T) :=
  λ st,
    let res := lapack r (data st) in
    match dest with
    | InfoLocal =>
        Returned res.2 (State res.1 (infos st) (trace st ++ [(r, dest)]))
    | InfoSlot i =>
        match store (infos st) i (info_out res.2) with
        | Some infos' =>
            Returned res.2 (State res.1 infos' (trace st ++ [(r, dest)]))
        | None => Undefined
        end
    end.

(** [TORCH_INTERNAL_ASSERT(cond)]. *)
Definition TORCH_INTERNAL_ASSERT (cond : bool) : kernel D unit :=
  λ st, if cond then Returned () st else AssertionFailure st.

(** [TORCH_INTERNAL_ASSERT_DEBUG_ONLY(cond)]: checked in builds with debug
    assertions ([debug = true]), compiled out otherwise. *)
Definition TORCH_INTERNAL_ASSERT_DEBUG_ONLY (debug cond : bool) : kernel D unit :=
  if debug then TORCH_INTERNAL_ASSERT cond else mret ().

(** The loop over the batch.  The body answers [true] when the kernel
    executes [return] inside the loop. *)
Fixpoint batch_loop (count : nat) (i : Z) (body : Z → kernel D bool)
    : kernel D unit :=
  match count with
  | O => mret ()
  | S c => stop ← body i;
           if stop : bool then mret () else batch_loop c (i + 1) body
  end.

(** [for (i = 0; i < batch_size; i++)] and [c10::irange(batch_size)]. *)
Definition irange (batch_size : Z) (body : Z → kernel D bool) : kernel D unit :=
  batch_loop (Z.to_nat batch_size) 0 body.
End Control.

(** ** The kernels *)

Section CholeskyInverse.
Context {T : Type} `{Scalar T}.
Variable chunking : Z → Z → list (Z * Z).
Variable lapack : request → list T → list T * reply T.

(** The symmetrization pass applied to the matrix at [self] of [input]. *)
Definition reflect_conj_tri (self n stride : Z) (upper : bool)
    : kernel (list T) unit :=
  λ st,
    match apply_reflect_conj_tri_single chunking (data st) self n stride upper with
    | Some buf => Returned () (State buf (infos st) (trace st))
    | None => Undefined
    end.

Definition apply_cholesky_inverse (input : list Z) (upper : bool)
    : kernel (list T) unit :=
  let uplo := if upper then "U"%char else "L"%char in
  let input_matrix_stride := matrixStride input in
  let batch_size := batchCount input in
  let n := size input (-2) in
  let lda := Z.max 1 n in
  irange batch_size (λ i,
    let input_working_ptr := i * input_matrix_stride in
    _ ← call lapack (lapackCholeskyInverse uplo n input_working_ptr lda)
                    (InfoSlot i);
    (* LAPACK writes to only upper/lower part of the matrix leaving the
       other side unchanged *)
    _ ← reflect_conj_tri input_working_ptr n lda upper;
    mret false).
End CholeskyInverse.

Section Kernels.
Context {T : Type} `{Scalar T} {D : Type}.
Variable lapack : request → D → D * reply T.
Variable debug : bool.

(** [apply_eig], the kernel behind [torch.eig] for a single matrix.  The
    result is the status stored through [info_ptr]; nothing is stored when
    [n] is 0. *)
Definition apply_eig (self : list Z) (eigenvectors : bool) : kernel D (option Z) :=
  let jobvr := if eigenvectors then "V"%char else "N"%char in
  let n := size self (-1) in
  let vecs_data := if eigenvectors then Some 0 else None in
  let ldvr := if eigenvectors then int_of_int64 n else 1 in
  if decide (0 < n) then
    (* call lapackEig once to get the optimal size for work data *)
    query ← call lapack (lapackEig "N"%char jobvr n 0 n 0 None 1 vecs_data ldvr (-1))
                        InfoLocal;
    let lwork := Z.max 1 (int_of_value (T := T) (real_impl (work_out query))) in
    (* call again to do the actual work *)
    r ← call lapack (lapackEig "N"%char jobvr n 0 n 0 None 1 vecs_data ldvr lwork)
                    InfoLocal;
    mret (Some (info_out r))
  else mret None.

Definition apply_linalg_eig (values vectors input : list Z)
    (compute_eigenvectors : bool) : kernel D unit :=
  let jobvr := if compute_eigenvectors then "V"%char else "N"%char in
  let jobvl := "N"%char in  (* only right eigenvectors are computed *)
  let n := size input (-1) in
  let lda := Z.max 1 n in
  let batch_size := batchCount input in
  let input_matrix_stride := matrixStride input in
  let values_stride := size values (-1) in
  let rvectors_data := if compute_eigenvectors then Some 0 else None in
  let lvectors_data : option Z := None in
  let ldvr := if compute_eigenvectors then lda else 1 in
  let ldvl := 1 in
  (* call lapackEig once to get the optimal size for work data *)
  query ← call lapack (lapackEig jobvl jobvr n 0 lda 0 lvectors_data ldvl
                         rvectors_data ldvr (-1)) (InfoSlot 0);
  let lwork := Z.max 1 (int_of_value (T := T) (real_impl (work_out query))) in
  irange batch_size (λ i,
    let input_working_ptr := i * input_matrix_stride in
    let values_working_ptr := i * values_stride in
    let rvectors_working_ptr :=
      if compute_eigenvectors then Some (i * input_matrix_stride) else None in
    _ ← call lapack (lapackEig jobvl jobvr n input_working_ptr lda
                       values_working_ptr lvectors_data ldvl
                       rvectors_working_ptr ldvr lwork) (InfoSlot i);
    mret false).

Definition apply_lapack_eigh (values vectors : list Z)
    (upper compute_eigenvectors : bool) : kernel D unit :=
  let uplo := if upper then "U"%char else "L"%char in
  let jobz := if compute_eigenvectors then "V"%char else "N"%char in
  let n := size vectors (-1) in
  let lda := Z.max 1 n in
  let batch_size := batchCount vectors in
  let vectors_stride := matrixStride vectors in
  let values_stride := size values (-1) in
  let lwork := -1 in
  let lrwork := -1 in
  let liwork := -1 in
  (* call lapackSyevd once to get the optimal size for work data *)
  query ← call lapack (lapackSyevd jobz uplo n 0 lda 0 lwork lrwork liwork)
                      (InfoSlot 0);
  let lwork := Z.max 1 (int_of_value (T := T) (real_impl (work_out query))) in
  let liwork := Z.max 1 (iwork_out query) in
  let lrwork :=
    if is_complex then Z.max 1 (int_of_value (T := T) (rwork_out query)) else lrwork in
  (* Now call lapackSyevd for each matrix in the batched input *)
  irange batch_size (λ i,
    let vectors_working_ptr := i * vectors_stride in
    let values_working_ptr := i * values_stride in
    r ← call lapack (lapackSyevd jobz uplo n vectors_working_ptr lda
                       values_working_ptr lwork lrwork liwork) (InfoSlot i);
    (* return early since further computations will be wasted anyway *)
    mret (bool_decide (info_out r ≠ 0))).

Definition apply_geqrf (input tau : list Z) (m n : Z) : kernel D unit :=
  let input_matrix_stride := matrixStride input in
  let tau_stride := size tau (-1) in
  let batch_size := batchCount input in
  let lda := Z.max 1 (int_of_int64 m) in
  (* Run once, first to get the optimum work size. *)
  let lwork := -1 in
  query ← call lapack (lapackGeqrf m n 0 lda 0 lwork) InfoLocal;
  _ ← TORCH_INTERNAL_ASSERT_DEBUG_ONLY debug (bool_decide (info_out query = 0));
  (* if lwork is less than 'n' then a warning is printed *)
  let lwork := Z.max (Z.max 1 (int_of_int64 n))
                     (int_of_value (T := T) (real_impl (work_out query))) in
  irange batch_size (λ i,
    let input_working_ptr := i * input_matrix_stride in
    let tau_working_ptr := i * tau_stride in
    (* now compute the actual QR and tau *)
    r ← call lapack (lapackGeqrf m n input_working_ptr lda tau_working_ptr lwork)
                    InfoLocal;
    _ ← TORCH_INTERNAL_ASSERT_DEBUG_ONLY debug (bool_decide (info_out r = 0));
    mret false).

Definition apply_orgqr (self tau : list Z) (n_columns : Z) : kernel D unit :=
  (* Some LAPACK implementations might not work well with empty matrices:
     we don't need to do any calculations in this case, so let's return early *)
  if decide (numel self = 0) then mret () else
  let self_matrix_stride := matrixStride self in
  let tau_stride := size tau (-1) in
  let batch_size := batchCount self in
  let m := size self (-2) in
  let k := size tau (-1) in
  let lda := Z.max 1 m in
  (* LAPACK's requirement *)
  _ ← TORCH_INTERNAL_ASSERT (m >=? n_columns);
  _ ← TORCH_INTERNAL_ASSERT (n_columns >=? k);
  (* Run once, first to get the optimum work size. *)
  let lwork := -1 in
  query ← call lapack (lapackOrgqr m n_columns k 0 lda 0 lwork) InfoLocal;
  _ ← TORCH_INTERNAL_ASSERT_DEBUG_ONLY debug (bool_decide (info_out query = 0));
  let lwork := Z.max 1 (int_of_value (T := T) (real_impl (work_out query))) in
  irange batch_size (λ i,
    let self_working_ptr := i * self_matrix_stride in
    let tau_working_ptr := i * tau_stride in
    (* now compute the actual Q *)
    r ← call lapack (lapackOrgqr m n_columns k self_working_ptr lda
                       tau_working_ptr lwork) InfoLocal;
    _ ← TORCH_INTERNAL_ASSERT_DEBUG_ONLY debug (bool_decide (info_out r = 0));
    mret false).

Definition apply_triangular_solve (A B : list Z)
    (upper transpose conjugate_transpose unitriangular : bool) : kernel D unit :=
  let uplo := if upper then "U"%char else "L"%char in
  let trans := if transpose then "T"%char else "N"%char in
  let trans := if conjugate_transpose then "C"%char else trans in
  let diag := if unitriangular then "U"%char else "N"%char in
  let A_mat_stride := matrixStride A in
  let B_mat_stride := matrixStride B in
  let batch_size := batchCount A in
  let n := size A (-2) in
  let nrhs := size B (-1) in
  let lda := Z.max 1 n in
  irange batch_size (λ i,
    let A_working_ptr := i * A_mat_stride in
    let B_working_ptr := i * B_mat_stride in
    r ← call lapack (lapackTriangularSolve uplo trans diag n nrhs
                       A_working_ptr lda B_working_ptr lda) (InfoSlot i);
    (* return early since further computations will be wasted anyway *)
    mret (bool_decide (info_out r ≠ 0))).
End Kernels.

(** ** Vocabulary of the properties *)

Section BufferVocabulary.
Context {T : Type}.

(** [p] is an index of [buf]. *)
Definition in_bounds (buf : list T) (p : Z) : Prop :=
  0 ≤ p < Z.of_nat (length buf).

(** A sequence of loop bodies, one per element of a list. *)
Fixpoint run_list {A} (body : A → list T → option (list T))
    (l : list A) (buf : list T) : option (list T) :=
  match l with
  | [] => Some buf
  | a :: l' => buf' ← body a buf; run_list body l' buf'
  end.
End BufferVocabulary.

(** [M[i,j]] of the matrix at [self] with leading dimension [stride]. *)
Definition cell (self stride i j : Z) : Z := self + (i * stride + j).

(** The side of the diagonal the pass writes: columns [j > i] of row [i]
    when [upper], columns [j < i] otherwise. *)
Definition written_side (upper : bool) (i j : Z) : Prop :=
  if upper then i < j else j < i.

#[export] Instance written_side_dec upper i j : Decision (written_side upper i j).
Proof. destruct upper; simpl; apply _. Defined.

(** The assignments of [loop(start, end)], in program order. *)
Definition assignments (upper : bool) (n start end_ : Z) : list (Z * Z) :=
  i ← seqZ start (end_ - start);
  pair i <$> (if upper then seqZ (i + 1) (n - (i + 1)) else seqZ 0 (i - 0)).

(** [chunks] cuts the rows [lo .. hi) into consecutive pieces. *)
Fixpoint contiguous (lo hi : Z) (chunks : list (Z * Z)) : Prop :=
  match chunks with
  | [] => lo = hi
  | c :: rest => c.1 = lo ∧ lo ≤ c.2 ≤ hi ∧ contiguous c.2 hi rest
  end.

(** A schedule of [parallel_for]: the pieces of such a cut, in any order. *)
Definition row_schedule (lo hi : Z) (sched : list (Z * Z)) : Prop :=
  ∃ chunks, contiguous lo hi chunks ∧ sched ≡ₚ chunks.

(** [(i, j)] is an entry of the [n]-by-[n] matrix on the written side. *)
Definition entry (upper : bool) (n i j : Z) : Prop :=
  0 ≤ i < n ∧ 0 ≤ j < n ∧ written_side upper i j.

(** The [n]-by-[n] matrix at [self] with leading dimension [stride] lies
    inside [buf]. *)
Definition matrix_in_buffer {T} (buf : list T) (self n stride : Z) : Prop :=
  0 ≤ self ∧ (0 < n → self + ((n - 1) * stride + n) ≤ Z.of_nat (length buf)).

(** Small inputs on which the definitions are exercised. *)
Definition demo3 : list Q := [1#1; 2#1; 3#1; 4#1; 5#1; 6#1; 7#1; 8#1; 9#1]%Q.
Definition demo2c : list (Q * Q) :=
  [(1#1, 0#1); (2#1, 5#1); (3#1, 7#1); (4#1, 0#1)]%Q.
Definition one_chunk (b e : Z) : list (Z * Z) := [(b, e)].
(** Two workers; the second half of the rows takes effect first. *)
Definition two_chunks (b e : Z) : list (Z * Z) :=
  let mid := b + (e - b) / 2 in [(mid, e); (b, mid)].

(** A run that returns normally without having made a size query. *)
Definition returns_without_query {D} (k : kernel D unit) (st : state D) : Prop :=
  ∃ st', k st = Returned () st'
         ∧ size_queries (trace st') = size_queries (trace st).


(** Every per-matrix call among [evs] was given workspace size [w]. *)
Definition lwork_is (w : Z) (evs : list event) : Prop :=
  Forall (λ e, lwork_of e.1 = Some w) (matrix_calls evs).

(** The size the specification derives from a hint:
    [max(1, floor(real_part(hint)))]. *)
Definition hint_size {T} `{Scalar T} (hint : T) : Z :=
  Z.max 1 (Qfloor (real_impl hint)).

(** A stand-in for LAPACK on which the kernels can be run: it leaves the
    buffers alone, answers every size query with [hint] and reports the
    status chosen by [status]. *)
Definition toy_lapack {D} (hint : Q) (status : request → Z)
    : request → D → D * reply Q :=
  λ r d, (d, Reply hint hint 1 (status r)).

(** The matrix a call works on. *)
Definition matrix_ptr (r : request) : Z :=
  match r with
  | lapackCholeskyInverse _ _ a _ => a
  | lapackEig _ _ _ a _ _ _ _ _ _ _ => a
  | lapackSyevd _ _ _ a _ _ _ _ _ => a
  | lapackGeqrf _ _ a _ _ _ => a
  | lapackOrgqr _ _ _ a _ _ _ => a
  | lapackTriangularSolve _ _ _ _ _ a _ _ _ => a
  end.

Definition status_ok (r : request) : Z := 0.
(** Only the size query reports a failure. *)
Definition status_query_fails (r : request) : Z :=
  if is_size_query (r, InfoLocal) then 5 else 0.
(** The factorization of the matrix at [p] fails. *)
Definition status_fails_at (p : Z) (r : request) : Z :=
  if is_size_query (r, InfoLocal) then 0
  else if bool_decide (matrix_ptr r = p) then 3 else 0.

Definition empty_state : state (list Q) := State [] [] [].
(** A caller that provides [k] status slots, initially [-1]. *)
Definition fresh_state (k : nat) : state (list Q) := State [] (replicate k (-1)) [].

(** The calls logged by a run that did not go wrong. *)
Definition trace_of_run {D A} (o : outcome (state D) A) : option (list event) :=
  trace <$> final_state o.

(** ** The calls of each kernel

    The size query of a kernel and the call it makes for matrix [i], as
    they appear in the trace. *)

Definition cholesky_inverse_call (input : list Z) (upper : bool) (i : Z) : event :=
  (lapackCholeskyInverse (if upper then "U"%char else "L"%char)
     (size input (-2)) (i * matrixStride input) (Z.max 1 (size input (-2))),
   InfoSlot i).

Definition eig_call (self : list Z) (eigenvectors : bool) (lwork : Z) : event :=
  (lapackEig "N"%char (if eigenvectors then "V"%char else "N"%char)
     (size self (-1)) 0 (size self (-1)) 0 None 1
     (if eigenvectors then Some 0 else None)
     (if eigenvectors then int_of_int64 (size self (-1)) else 1) lwork,
   InfoLocal).

Definition linalg_eig_call (values input : list Z) (compute_eigenvectors : bool)
    (lwork : Z) (i : Z) : event :=
  (lapackEig "N"%char (if compute_eigenvectors then "V"%char else "N"%char)
     (size input (-1)) (i * matrixStride input) (Z.max 1 (size input (-1)))
     (i * size values (-1)) None 1
     (if compute_eigenvectors then Some (i * matrixStride input) else None)
     (if compute_eigenvectors then Z.max 1 (size input (-1)) else 1) lwork,
   InfoSlot i).

Definition linalg_eig_query (input : list Z) (compute_eigenvectors : bool) : event :=
  (lapackEig "N"%char (if compute_eigenvectors then "V"%char else "N"%char)
     (size input (-1)) 0 (Z.max 1 (size input (-1))) 0 None 1
     (if compute_eigenvectors then Some 0 else None)
     (if compute_eigenvectors then Z.max 1 (size input (-1)) else 1) (-1),
   InfoSlot 0).

Definition lapack_eigh_call (values vectors : list Z)
    (upper compute_eigenvectors : bool) (lwork lrwork liwork : Z) (i : Z) : event :=
  (lapackSyevd (if compute_eigenvectors then "V"%char else "N"%char)
     (if upper then "U"%char else "L"%char)
     (size vectors (-1)) (i * matrixStride vectors) (Z.max 1 (size vectors (-1)))
     (i * size values (-1)) lwork lrwork liwork,
   InfoSlot i).

Definition lapack_eigh_query (vectors : list Z)
    (upper compute_eigenvectors : bool) : event :=
  (lapackSyevd (if compute_eigenvectors then "V"%char else "N"%char)
     (if upper then "U"%char else "L"%char)
     (size vectors (-1)) 0 (Z.max 1 (size vectors (-1))) 0 (-1) (-1) (-1),
   InfoSlot 0).

Definition geqrf_call (input tau : list Z) (m n lwork : Z) (i : Z) : event :=
  (lapackGeqrf m n (i * matrixStride input) (Z.max 1 (int_of_int64 m))
     (i * size tau (-1)) lwork,
   InfoLocal).

Definition geqrf_query (m n : Z) : event :=
  (lapackGeqrf m n 0 (Z.max 1 (int_of_int64 m)) 0 (-1), InfoLocal).

Definition orgqr_call (self tau : list Z) (n_columns lwork : Z) (i : Z) : event :=
  (lapackOrgqr (size self (-2)) n_columns (size tau (-1))
     (i * matrixStride self) (Z.max 1 (size self (-2))) (i * size tau (-1)) lwork,
   InfoLocal).

Definition orgqr_query (self tau : list Z) (n_columns : Z) : event :=
  (lapackOrgqr (size self (-2)) n_columns (size tau (-1))
     0 (Z.max 1 (size self (-2))) 0 (-1),
   InfoLocal).

Definition triangular_solve_call (A B : list Z)
    (upper transpose conjugate_transpose unitriangular : bool) (i : Z) : event :=
  (lapackTriangularSolve (if upper then "U"%char else "L"%char)
     (if conjugate_transpose then "C"%char
      else if transpose then "T"%char else "N"%char)
     (if unitriangular then "U"%char else "N"%char)
     (size A (-2)) (size B (-1)) (i * matrixStride A) (Z.max 1 (size A (-2)))
     (i * matrixStride B) (Z.max 1 (size A (-2))),
   InfoSlot i).

(** What LAPACK answers to a call in a given state of the buffers. *)
Definition answer {T D} (lapack : request → D → D * reply T)
    (e : event) (st : state D) : reply T :=
  (lapack e.1 (data st)).2.

(** The three workspace sizes of [apply_lapack_eigh], from the query's answer. *)
Definition eigh_lwork {T} `{Scalar T} (q : reply T) : Z :=
  Z.max 1 (int_of_value (T := T) (real_impl (work_out q))).
Definition eigh_lrwork {T} `{Scalar T} (q : reply T) : Z :=
  if is_complex then Z.max 1 (int_of_value (T := T) (rwork_out q)) else -1.
Definition eigh_liwork {T} (q : reply T) : Z := Z.max 1 (iwork_out q).

(** The workspace size the kernels pass on, from the hint of the size query:
    [std::max<int>(1, real_impl<scalar_t, value_t>(wkopt))], and for the QR
    reflectors [std::max<int>(std::max<int>(1, n), real_impl(wkopt))]. *)
Definition work_size {T} `{Scalar T} (hint : T) : Z :=
  Z.max 1 (int_of_value (T := T) (real_impl hint)).
Definition geqrf_work_size {T} `{Scalar T} (n : Z) (hint : T) : Z :=
  Z.max (Z.max 1 (int_of_int64 n)) (int_of_value (T := T) (real_impl hint)).

(** What LAPACK answers to the calls [mk i], [mk (i + 1)], ... when they are
    made one after the other, each on the buffers the one before left. *)
Fixpoint replies {T D} (lapack : request → D → D * reply T) (mk : Z → request)
    (count : nat) (i : Z) (d : D) : list (reply T) :=
  match count with
  | O => []
  | S c => let r := lapack (mk i) d in
           r.2 :: replies lapack mk c (i + 1) r.1
  end.

(** The statuses LAPACK reports for the matrices [0 .. b - 1] of a batch. *)
Definition reported_statuses {T D} (lapack : request → D → D * reply T)
    (mk : Z → event) (b : Z) (d : D) : list Z :=
  info_out <$> replies lapack (λ i, (mk i).1) (Z.to_nat b) 0 d.

(** Matrix [i] is the first one for which a nonzero status is reported. *)
Definition first_failure (statuses : list Z) (i : nat) : Prop :=
  (∃ v, statuses !! i = Some v ∧ v ≠ 0)
  ∧ ∀ j, (j < i)%nat → statuses !! j = Some 0.

(** No matrix fails. *)
Definition no_failure (statuses : list Z) : Prop := Forall (λ v, v = 0) statuses.

(** A driver loop with early exit over a batch of [b] matrices, for which
    LAPACK reports [statuses], made [k] per-matrix calls and left the status
    vector [after]: the loop stops right after the first matrix with a
    nonzero status, it goes through the whole batch when there is none, and
    the slot of every matrix it processed holds the status LAPACK reported
    for that matrix. *)
Definition stops_at_first_failure (statuses : list Z) (b k : Z)
    (after : list Z) : Prop :=
  (∀ i, first_failure statuses i → k = Z.of_nat i + 1)
  ∧ (no_failure statuses → k = Z.max 0 b)
  ∧ ∀ j : nat, Z.of_nat j < k → load after (Z.of_nat j) = statuses !! j.

(** The number of calls a driver loop with early exit makes. *)
Fixpoint calls_until_failure (statuses : list Z) : nat :=
  match statuses with
  | [] => 0
  | v :: rest => if decide (v = 0) then S (calls_until_failure rest) else 1
  end.

(** The status vector [after] a driver loop with early exit that made [k]
    per-matrix calls over a batch of [b] matrices, starting from the vector
    [before]: the slots of the matrices before the last processed one hold
    [0], the slots from [k] on are as they were, and either no matrix failed
    (all [b] were processed and hold [0]) or matrix [k - 1] is the first that
    failed. *)
Definition early_exit_outcome (b k : Z) (before after : list Z) : Prop :=
  0 ≤ k ≤ Z.max 0 b
  ∧ length after = length before
  ∧ (∀ j, 0 ≤ j < k - 1 → load after j = Some 0)
  ∧ (∀ j, k ≤ j → load after j = load before j)
  ∧ ((k = Z.max 0 b ∧ ∀ j, 0 ≤ j < b → load after j = Some 0)
     ∨ (1 ≤ k ∧ ∃ v, load after (k - 1) = Some v ∧ v ≠ 0)).

(** The status slots written by the calls [evs] are exactly those of the
    [b] matrices of the batch. *)
Definition writes_exactly_batch (b : Z) (evs : list event) : Prop :=
  ∀ j, j ∈ status_writes evs ↔ 0 ≤ j < b.

(** The number of writes to status slot [i] among the calls [evs]. *)
Definition write_count (i : Z) (evs : list event) : nat :=
  length (filter (λ j, j = i) (status_writes evs)).

(** The contract of LAPACK's POTRI on the buffers: it works in place on the
    [n] columns of leading dimension [lda] that start at [a]. *)
Definition writes_within_matrix {T} (lapack : request → list T → list T * reply T)
    : Prop :=
  ∀ uplo n a lda d,
    let d' := (lapack (lapackCholeskyInverse uplo n a lda) d).1 in
    length d' = length d
    ∧ ∀ p, ¬ (a ≤ p < a + lda * n) → load d' p = load d p.

(** The written side of the matrix at [self] mirrors the other side. *)
Definition conj_symmetric {T} `{Scalar T} (buf : list T) (self n stride : Z)
    (upper : bool) : Prop :=
  ∀ i j, entry upper n i j →
    load buf (cell self stride i j) = conj_impl <$> load buf (cell self stride j i)
    ∧ is_Some (load buf (cell self stride j i)).

(** A stand-in for POTRI that fails on every matrix: it overwrites the first
    element of the matrix with the number of rows and reports status [2]. *)
Definition potri_failing (r : request) (d : list Q) : list Q * reply Q :=
  match r with
  | lapackCholeskyInverse _ n a lda =>
      (if decide (0 < n ∧ 0 ≤ a ∧ 0 < lda)
       then <[Z.to_nat a := inject_Z n]> d else d,
       Reply 0%Q 0%Q 0 2)
  | _ => (d, Reply 0%Q 0%Q 0 0)
  end.

Definition two_matrices : state (list Q) :=
  State [1#1; 2#1; 3#1; 4#1; 5#1; 6#1; 7#1; 8#1]%Q [-1; -1] [].

(** The calls [mk 0 .. mk (k - 1)] of a driver loop write the status slots
    [0 .. k - 1]: the call for matrix [i] writes slot [i], so every slot
    below [k] is written once and no other slot is written. *)
Definition driver_step_writes (mk : Z → event) (k : Z) : Prop :=
  (∀ i, info_slot (mk i) = Some i)
  ∧ status_writes (mk <$> seqZ 0 k) = seqZ 0 k
  ∧ ∀ i, write_count i (mk <$> seqZ 0 k)
         = if decide (0 ≤ i < k) then 1%nat else 0%nat.

(** * Segment reduction (ATen/native/SegmentReduce.cpp) *)

(** ** Element types

    [AT_DISPATCH_ALL_TYPES_AND2] selects [scalar_t]; the kernel uses it
    through [std::numeric_limits<scalar_t>::lowest()], [operator<] (inside
    [std::max]) and [at::_isnan]. *)
Class Element (T : Type) := {
  lowest : T;
  less : T → T → bool;
  _isnan : T → bool
}.

#[export] Instance int64_element : Element Z := {
  lowest := - 2 ^ 63;
  less := Z.ltb;
  _isnan x := false
}.

(** Doubles, as far as the examples need them: finite values and NaN, which
    compares false with everything (the infinities are left out). *)
Inductive double := NaN | Num (q : Q).

#[export] Instance double_element : Element double := {
  lowest := Num (- ((2 ^ 53 - 1) * 2 ^ 971) # 1);
  less x y := match x, y with
              | Num a, Num b => negb (Qle_bool b a)
              | _, _ => false
              end;
  _isnan x := match x with NaN => true | Num _ => false end
}.

(** ** Tensors and failures *)

(** A tensor as the segment reduction sees it: its sizes, its device index
    and the elements of its contiguous form. *)
Record tensor (T : Type) := Tensor {
  t_sizes : list Z;
  t_device : Z;
  t_values : list T
}.
Arguments Tensor {T}.
Arguments t_sizes {T}.
Arguments t_device {T}.
Arguments t_values {T}.

Definition t_dim {T} (t : tensor T) : Z := Z.of_nat (length (t_sizes t)).
Definition t_numel {T} (t : tensor T) : Z := numel (t_sizes t).

(** The storage of a contiguous tensor holds [numel] elements. *)
Definition well_formed {T} (t : tensor T) : Prop :=
  t_numel t = Z.of_nat (length (t_values t)).

(** A one-dimensional tensor on the CPU (device index [-1]). *)
Definition vector {T} (l : list T) : tensor T :=
  Tensor [Z.of_nat (length l)] (-1) l.

Inductive thrown :=
| TorchCheck (msg : string)     (* a failed TORCH_CHECK *)
| StdOutOfRange                 (* std::out_of_range from std::map::at *)
| DimOutOfRange.                (* maybe_wrap_dim rejects the dimension *)

Inductive result (A : Type) :=
| Ok (a : A)
| Throw (e : thrown)
| OutOfBounds                   (* access outside of a buffer *)
| SignedOverflow.               (* overflow of a signed integer *)
Arguments Ok {A}.
Arguments Throw {A}.
Arguments OutOfBounds {A}.
Arguments SignedOverflow {A}.

(** The two ways in which the code leaves defined behaviour. *)
Definition undefined_behaviour {A} (r : result A) : Prop :=
  r = OutOfBounds ∨ r = SignedOverflow.

#[export] Instance result_ret : MRet result := λ A a, Ok a.

#[export] Instance result_bind : MBind result :=
  λ A B f m,
    match m with
    | Ok a => f a
    | Throw e => Throw e
    | OutOfBounds => OutOfBounds
    | SignedOverflow => SignedOverflow
    end.

(** [TORCH_CHECK(cond, msg)]. *)
Definition TORCH_CHECK (cond : bool) (msg : string) : result unit :=
  if cond then Ok () else Throw (TorchCheck msg).

(** [a + b] on [int64_t]. *)
Definition int64_add (a b : Z) : result Z :=
  if bool_decide (- 2 ^ 63 ≤ a + b < 2 ^ 63) then Ok (a + b) else SignedOverflow.

(** A read or write through a raw pointer. *)
Definition access {A} (o : option A) : result A :=
  match o with
  | Some a => Ok a
  | None => OutOfBounds
  end.

(** ** The CPU kernel *)

Section SegmentReduceKernel.
Context {T : Type} `{Element T}.

(** [std::max<scalar_t>(a, b)]. *)
Definition std_max (a b : T) : T := if less a b then b else a.

(** The validation loop of the safe mode; [count] iterations from [i]. *)
Fixpoint check_lengths (count : nat) (i : Z) (lengths_data : list Z) (sum : Z)
    : result Z :=
  match count with
  | O => Ok sum
  | S c =>
      len ← access (load lengths_data i);
      _ ← TORCH_CHECK (bool_decide (len > 0)%Z)
            "lengths contains non positive value!";
      sum' ← int64_add sum len;
      check_lengths c (i + 1) lengths_data sum'
  end.

(** The inner loop over one segment; it returns the reduction and [k].
    [k] is incremented after a read at [k] only, so it stays within the
    number of elements of [values_data]. *)
Fixpoint segment_loop (count : nat) (values_data : list T) (k : Z)
    (reduction : T) : result (T * Z) :=
  match count with
  | O => Ok (reduction, k)
  | S c =>
      data ← access (load values_data k);
      segment_loop c values_data (k + 1)
        (if _isnan data then data else std_max reduction data)
  end.

(** The outer loop over the segments. *)
Fixpoint reduce_loop (count : nat) (i : Z) (lengths_data : list Z)
    (values_data : list T) (k : Z) (output_data : list T) : result (list T) :=
  match count with
  | O => Ok output_data
  | S c =>
      len ← access (load lengths_data i);
      rk ← segment_loop (Z.to_nat len) values_data k lowest;
      output_data' ← access (store output_data i rk.1);
      reduce_loop c (i + 1) lengths_data values_data rk.2 output_data'
  end.

(** [fill] stands for whatever [at::empty] leaves in the new tensor. *)
Definition _segment_reduce_cpu_kernel (fill : T) (data : tensor T)
    (lengths : tensor Z) (axis : Z) (unsafe : bool) : result (tensor T) :=
  let lengths_data := t_values lengths in
  let batch_size := t_numel lengths in
  let output := replicate (Z.to_nat batch_size) fill in
  _ ← (if negb unsafe then
         sum ← check_lengths (Z.to_nat batch_size) 0 lengths_data 0;
         TORCH_CHECK (bool_decide (sum = t_numel data)) EmptyString
       else Ok ());
  output_data ← reduce_loop (Z.to_nat batch_size) 0 lengths_data
                   (t_values data) 0 output;
  Ok (Tensor [batch_size] (t_device data) output_data).
End SegmentReduceKernel.

(** ** The entry point *)

Inductive SegmentReductionType := MAX.

#[export] Instance SegmentReductionType_eq_dec : EqDecision SegmentReductionType.
Proof. solve_decision. Defined.

Definition segmentReduce2REDUCE : gmap string SegmentReductionType :=
  {[ "max"%string := MAX ]}.

(** [std::map::at]. *)
Definition map_at {V} (m : gmap string V) (key : string) : result V :=
  match m !! key with
  | Some v => Ok v
  | None => Throw StdOutOfRange
  end.

Section SegmentReduceEntry.
Context {T : Type}.
(** [c10::maybe_wrap_dim] and the dispatch stub are declared elsewhere: the
    first is [None] when it rejects the dimension, the second is the kernel
    registered for the device of [data]. *)
Variable maybe_wrap_dim : Z → Z → option Z.
Variable _segment_reduce_stub : tensor T → tensor Z → Z → bool → result (tensor T).

Definition segment_reduce_kernel (data : tensor T) (reduce : string)
    (lengths indices : option (tensor Z)) (axis : Z) (unsafe : bool)
    : result (tensor T) :=
  axis ← match maybe_wrap_dim axis (t_dim data) with
         | Some a => Ok a
         | None => Throw DimOutOfRange
         end;
  _ ← TORCH_CHECK (bool_decide (axis = 0)) "Currently only dim=0 is supported!";
  _ ← TORCH_CHECK (bool_decide (t_dim data = 1)) EmptyString;
  _ ← TORCH_CHECK (bool_decide (t_numel data > 0)%Z) EmptyString;
  kind ← map_at segmentReduce2REDUCE reduce;
  _ ← TORCH_CHECK (bool_decide (kind = MAX))
        "Currently only 'max' reduction is supported!";
  (* length related checks *)
  _ ← TORCH_CHECK (bool_decide (is_Some lengths ∧ indices = None))
        "Currently only lengths based reduction is supported!";
  match lengths with
  | None => OutOfBounds  (* value() of an empty optional; not reached *)
  | Some lengths_value =>
      _ ← TORCH_CHECK (bool_decide (t_dim lengths_value = 1)) EmptyString;
      _ ← TORCH_CHECK (bool_decide (t_device data = t_device lengths_value))
            EmptyString;
      _ ← TORCH_CHECK (bool_decide (t_dim data >= t_dim lengths_value)%Z)
            EmptyString;
      _segment_reduce_stub data lengths_value axis unsafe
  end.
End SegmentReduceEntry.

(** ** Vocabulary of the properties *)

Section SegmentVocabulary.
Context {T : Type} `{Element T}.

(** One step of the reduction. *)
Definition reduce_step (reduction data : T) : T :=
  if _isnan data then data else std_max reduction data.

(** The reduction of a segment, from [lowest]. *)
Definition reduce_segment (seg : list T) : T := foldl reduce_step lowest seg.

(** The consecutive pieces of [values] of the given lengths (a length that
    is not positive gives an empty piece). *)
Fixpoint segments (lengths : list Z) (values : list T) : list (list T) :=
  match lengths with
  | [] => []
  | len :: rest =>
      take (Z.to_nat len) values :: segments rest (drop (Z.to_nat len) values)
  end.
End SegmentVocabulary.

(** The number of elements the segments take. *)
Definition elements_taken (lengths : list Z) : Z :=
  foldr (λ len acc, Z.max 0 len + acc) 0 lengths.

Definition lengths_sum (lengths : list Z) : Z := foldr Z.add 0 lengths.

(** * Properties *)

(** ** Buffers and loops *)

Section BufferFacts.
Context {T : Type}.
Implicit Types (buf : list T) (p : Z).

Lemma load_in_bounds buf p : in_bounds buf p → is_Some (load buf p).
Proof.
  intros [H0 H1]. unfold load. rewrite decide_True by done.
  apply lookup_lt_is_Some. lia.
Qed.

Lemma load_Some_in_bounds buf p v : load buf p = Some v → in_bounds buf p.
Proof.
  unfold load. case_decide; [|done]. intros Hl.
  apply lookup_lt_Some in Hl. unfold in_bounds. lia.
Qed.

Lemma store_in_bounds buf p v :
  in_bounds buf p → store buf p v = Some (<[Z.to_nat p := v]> buf).
Proof. intros Hb. unfold store. by rewrite decide_True. Qed.

Lemma load_insert_eq buf p v :
  in_bounds buf p → load (<[Z.to_nat p := v]> buf) p = Some v.
Proof.
  intros [H0 H1]. unfold load. rewrite decide_True by done.
  apply list_lookup_insert_eq. lia.
Qed.

Lemma load_insert_ne buf p q v :
  0 ≤ p → p ≠ q → load (<[Z.to_nat p := v]> buf) q = load buf q.
Proof.
  intros H0 Hne. unfold load. case_decide; [|done].
  apply list_lookup_insert_ne. lia.
Qed.

Lemma in_bounds_length buf buf' p :
  length buf' = length buf → in_bounds buf' p ↔ in_bounds buf p.
Proof. unfold in_bounds. by intros ->. Qed.

(** Buffers of equal contents are equal: [load] determines the list. *)
Lemma buffer_ext buf buf' :
  (∀ p, load buf p = load buf' p) → buf = buf'.
Proof.
  intros Hl. apply list_eq. intros i.
  specialize (Hl (Z.of_nat i)). unfold load in Hl.
  rewrite !decide_True, Nat2Z.id in Hl by lia. done.
Qed.

Lemma run_list_app {A} (body : A → list T → option (list T)) l1 l2 buf :
  run_list body (l1 ++ l2) buf = run_list body l1 buf ≫= run_list body l2.
Proof.
  revert buf. induction l1 as [|a l1 IH]; intros buf; simpl; [done|].
  destruct (body a buf) as [buf'|]; simpl; [apply IH|done].
Qed.

Lemma for_loop_run_list count k body buf :
  for_loop count k body buf = run_list body (seqZ k (Z.of_nat count)) buf.
Proof.
  revert k buf. induction count as [|c IH]; intros k buf.
  - by rewrite seqZ_nil.
  - rewrite seqZ_cons by lia. simpl.
    destruct (body k buf) as [buf'|]; simpl; [|done].
    rewrite IH. do 2 f_equal; lia.
Qed.

Lemma for_range_run_list lo hi body buf :
  for_range lo hi body buf = run_list body (seqZ lo (hi - lo)) buf.
Proof.
  unfold for_range. rewrite for_loop_run_list.
  destruct (decide (0 ≤ hi - lo)).
  - by rewrite Z2Nat.id.
  - rewrite !seqZ_nil; [done|lia|lia].
Qed.

End BufferFacts.

(** ** The symmetrization pass as a list of assignments *)

Section RunListFacts.
Context {T : Type}.
Implicit Types (buf : list T).

Lemma run_list_ext {A} (f g : A → list T → option (list T)) l buf :
  (∀ a b, f a b = g a b) → run_list f l buf = run_list g l buf.
Proof.
  intros Hfg. revert buf. induction l as [|a l IH]; intros buf; simpl; [done|].
  rewrite Hfg. destruct (g a buf); simpl; [apply IH|done].
Qed.

Lemma run_list_fmap {A B} (h : A → B) (body : B → list T → option (list T)) l buf :
  run_list body (h <$> l) buf = run_list (λ a, body (h a)) l buf.
Proof.
  revert buf. induction l as [|a l IH]; intros buf; simpl; [done|].
  destruct (body (h a) buf); simpl; [apply IH|done].
Qed.

Lemma run_list_bind {A B} (inner : A → list B)
    (body : B → list T → option (list T)) l buf :
  run_list (λ a, run_list body (inner a)) l buf = run_list body (l ≫= inner) buf.
Proof.
  revert buf. induction l as [|a l IH]; intros buf; simpl; [done|].
  rewrite run_list_app.
  destruct (run_list body (inner a) buf); simpl; [apply IH|done].
Qed.

Lemma foldl_run_list {A} (body : A → list T → option (list T)) l acc :
  foldl (λ acc a, buf' ← acc; body a buf') acc l = acc ≫= run_list body l.
Proof.
  revert acc. induction l as [|a l IH]; intros acc; simpl.
  - by destruct acc.
  - rewrite IH. by destruct acc.
Qed.

End RunListFacts.

Lemma cell_inj self stride i j i' j' :
  0 ≤ j < stride → 0 ≤ j' < stride →
  cell self stride i j = cell self stride i' j' → i = i' ∧ j = j'.
Proof.
  unfold cell. intros Hj Hj' Heq.
  assert (i = i') by nia. subst i'. split; [done|lia].
Qed.

Lemma elem_of_assignments upper n start end_ i j :
  (i, j) ∈ assignments upper n start end_ ↔
  start ≤ i < end_ ∧ (if upper then i < j < n else 0 ≤ j < i).
Proof.
  unfold assignments. rewrite list_elem_of_bind. split.
  - intros (i0 & Hin & Hi0). apply elem_of_seqZ in Hi0.
    apply list_elem_of_fmap in Hin as (j0 & [= -> ->] & Hj0).
    destruct upper; apply elem_of_seqZ in Hj0; lia.
  - intros [Hi Hj]. exists i. split; [|apply elem_of_seqZ; lia].
    apply list_elem_of_fmap. exists j. split; [done|].
    destruct upper; apply elem_of_seqZ; lia.
Qed.

Lemma assignments_split upper n lo mid hi :
  lo ≤ mid ≤ hi →
  assignments upper n lo hi
  = assignments upper n lo mid ++ assignments upper n mid hi.
Proof.
  intros Hm. unfold assignments.
  replace (hi - lo) with ((mid - lo) + (hi - mid)) by lia.
  rewrite seqZ_app by lia. rewrite bind_app.
  do 3 f_equal. lia.
Qed.

Lemma assignments_empty upper n lo : assignments upper n lo lo = [].
Proof. unfold assignments. by rewrite seqZ_nil by lia. Qed.

Lemma contiguous_assignments upper n lo hi chunks :
  contiguous lo hi chunks →
  chunks ≫= (λ c, assignments upper n c.1 c.2) = assignments upper n lo hi.
Proof.
  revert lo. induction chunks as [|[b e] chunks IH]; intros lo Hc.
  - simpl in Hc. subst hi. by rewrite assignments_empty.
  - destruct Hc as (Hb & Hle & Hrest). simpl in Hb, Hle, Hrest. subst b.
    rewrite bind_cons, (IH _ Hrest). simpl.
    symmetry. by apply assignments_split.
Qed.

Section ReflectFacts.
Context {T : Type} `{Scalar T}.
Variables (self stride n : Z) (upper : bool).
Hypothesis stride_ge_n : n ≤ stride.
Implicit Types (buf : list T).

Lemma reflect_assign_result buf buf' i j :
  reflect_assign self stride i j buf = Some buf' →
  ∃ v, load buf (cell self stride j i) = Some v
       ∧ in_bounds buf (cell self stride i j)
       ∧ buf' = <[Z.to_nat (cell self stride i j) := conj_impl v]> buf.
Proof.
  unfold reflect_assign, cell.
  destruct (load buf (self + (j * stride + i))) as [v|] eqn:Hl; simpl; [|done].
  unfold store. case_decide as Hb; [|done]. intros [= <-]. eauto.
Qed.

Lemma reflect_assign_length buf buf' i j :
  reflect_assign self stride i j buf = Some buf' → length buf' = length buf.
Proof.
  intros (v & _ & _ & ->)%reflect_assign_result. apply length_insert.
Qed.

Lemma reflect_assign_defined buf i j :
  is_Some (reflect_assign self stride i j buf) ↔
  in_bounds buf (cell self stride j i) ∧ in_bounds buf (cell self stride i j).
Proof.
  split.
  - intros [buf' (v & Hl & Hb & _)%reflect_assign_result].
    split; [by eapply load_Some_in_bounds|done].
  - intros [Hr Hw]. destruct (load_in_bounds _ _ Hr) as [v Hv].
    unfold reflect_assign. fold (cell self stride j i). rewrite Hv. simpl.
    fold (cell self stride i j). rewrite store_in_bounds by done. eauto.
Qed.

(** Whether an assignment goes wrong depends on the size of the buffer only. *)
Lemma reflect_assign_defined_length buf1 buf2 i j :
  length buf1 = length buf2 →
  is_Some (reflect_assign self stride i j buf1) →
  is_Some (reflect_assign self stride i j buf2).
Proof.
  intros Hlen. rewrite !reflect_assign_defined.
  by rewrite !(in_bounds_length buf1 buf2).
Qed.

(** A written cell is never a cell that the pass reads. *)
Lemma written_not_read i j i' j' :
  entry upper n i j → entry upper n i' j' →
  cell self stride i j ≠ cell self stride j' i'.
Proof.
  intros (Hi & Hj & Hs) (Hi' & Hj' & Hs') Heq.
  apply cell_inj in Heq as [-> ->]; [|lia..].
  destruct upper; simpl in *; lia.
Qed.

Lemma written_inj i j i' j' :
  entry upper n i j → entry upper n i' j' →
  cell self stride i j = cell self stride i' j' → (i, j) = (i', j').
Proof.
  intros (Hi & Hj & _) (Hi' & Hj' & _) Heq.
  apply cell_inj in Heq as [-> ->]; [done|lia..].
Qed.

(** The result of one assignment, in terms of the cells. *)
Lemma reflect_assign_step buf buf' i j p :
  reflect_assign self stride i j buf = Some buf' →
  load buf' p =
    if decide (p = cell self stride i j)
    then conj_impl <$> load buf (cell self stride j i)
    else load buf p.
Proof.
  intros (v & Hl & Hb & ->)%reflect_assign_result.
  case_decide as Hp.
  - subst p. rewrite Hl. simpl. by apply load_insert_eq.
  - apply load_insert_ne; [apply Hb|done].
Qed.

(** Two assignments of the pass can be exchanged. *)
Lemma reflect_assign_comm buf i j i' j' :
  entry upper n i j → entry upper n i' j' →
  reflect_assign self stride i j buf ≫= reflect_assign self stride i' j'
  = reflect_assign self stride i' j' buf ≫= reflect_assign self stride i j.
Proof.
  intros He He'.
  destruct (reflect_assign self stride i j buf) as [b1|] eqn:E1;
    destruct (reflect_assign self stride i' j' buf) as [b2|] eqn:E2; simpl.
  - assert (Hs1 : is_Some (reflect_assign self stride i' j' b1)).
    { apply (reflect_assign_defined_length buf); [|by rewrite E2].
      symmetry. by eapply reflect_assign_length. }
    assert (Hs2 : is_Some (reflect_assign self stride i j b2)).
    { apply (reflect_assign_defined_length buf); [|by rewrite E1].
      symmetry. by eapply reflect_assign_length. }
    destruct Hs1 as [c1 Hc1], Hs2 as [c2 Hc2]. rewrite Hc1, Hc2. f_equal.
    apply buffer_ext. intros p.
    rewrite (reflect_assign_step _ _ _ _ p Hc1), (reflect_assign_step _ _ _ _ p Hc2).
    rewrite (reflect_assign_step _ _ _ _ p E1), (reflect_assign_step _ _ _ _ p E2).
    rewrite (reflect_assign_step _ _ _ _ (cell self stride j' i') E1).
    rewrite (reflect_assign_step _ _ _ _ (cell self stride j i) E2).
    rewrite (decide_False (P := cell self stride j' i' = _))
      by (intros Heq; by eapply (written_not_read i j i' j')).
    rewrite (decide_False (P := cell self stride j i = _))
      by (intros Heq; by eapply (written_not_read i' j' i j)).
    repeat case_decide; try done.
    assert ((i, j) = (i', j')) as [= -> ->] by (apply written_inj; congruence).
    done.
  - destruct (reflect_assign self stride i' j' b1) eqn:E3; [|done].
    assert (is_Some (reflect_assign self stride i' j' buf)) as [? ?]; [|congruence].
    apply (reflect_assign_defined_length b1); [by eapply reflect_assign_length|eauto].
  - destruct (reflect_assign self stride i j b2) eqn:E3; [|done].
    assert (is_Some (reflect_assign self stride i j buf)) as [? ?]; [|congruence].
    apply (reflect_assign_defined_length b2); [by eapply reflect_assign_length|eauto].
  - done.
Qed.

(** Hence the assignments of the pass may be carried out in any order. *)
Lemma run_assignments_perm (ps qs : list (Z * Z)) buf :
  ps ≡ₚ qs →
  Forall (λ ij, entry upper n ij.1 ij.2) ps →
  run_list (λ ij, reflect_assign self stride ij.1 ij.2) ps buf
  = run_list (λ ij, reflect_assign self stride ij.1 ij.2) qs buf.
Proof.
  intros Hperm. revert buf.
  induction Hperm as [|[i j] ps qs Hp IH|[i j] [i' j'] ps|ps qs rs Hp1 IH1 Hp2 IH2];
    intros buf Hall.
  - done.
  - simpl. inversion_clear Hall.
    destruct (reflect_assign self stride i j buf); simpl; [by apply IH|done].
  - simpl. inversion_clear Hall as [|? ? He' Hall'].
    inversion_clear Hall' as [|? ? He Hall''].
    pose proof (reflect_assign_comm buf i' j' i j He' He) as Hc. simpl in *.
    destruct (reflect_assign self stride i j buf) as [b1|];
      destruct (reflect_assign self stride i' j' buf) as [b2|]; simpl in *.
    + destruct (reflect_assign self stride i j b2), (reflect_assign self stride i' j' b1);
        simpl; congruence.
    + destruct (reflect_assign self stride i' j' b1); simpl; congruence.
    + destruct (reflect_assign self stride i j b2); simpl; congruence.
    + done.
  - rewrite IH1 by done. apply IH2. by rewrite <-Hp1.
Qed.
End ReflectFacts.

Section PassFacts.
Context {T : Type} `{Scalar T}.
Variables (self stride n : Z) (upper : bool).
Hypothesis stride_ge_n : n ≤ stride.
Implicit Types (buf : list T).

(** The loop chosen by [upper] performs the listed assignments in order. *)
Lemma loop_assignments start end_ buf :
  (if upper then loop_upper self n stride else loop_lower self n stride)
    start end_ buf
  = run_list (λ ij, reflect_assign self stride ij.1 ij.2)
      (assignments upper n start end_) buf.
Proof.
  unfold assignments. rewrite <-run_list_bind.
  destruct upper; unfold loop_upper, loop_lower;
    rewrite for_range_run_list; apply run_list_ext; intros i b;
    rewrite for_range_run_list; by rewrite run_list_fmap.
Qed.

Lemma assignments_entries start end_ :
  0 ≤ start → end_ ≤ n →
  Forall (λ ij, entry upper n ij.1 ij.2) (assignments upper n start end_).
Proof.
  intros Hs He. apply Forall_forall. intros [i j] Hin.
  apply elem_of_assignments in Hin as [Hi Hj].
  unfold entry, written_side. simpl. destruct upper; lia.
Qed.

(** Running the chunks of a schedule is running the whole row range. *)
Lemma schedule_same_result sched buf :
  row_schedule 0 n sched →
  run_list (λ c, (if upper then loop_upper self n stride
                  else loop_lower self n stride) c.1 c.2) sched buf
  = (if upper then loop_upper self n stride else loop_lower self n stride)
      0 n buf.
Proof.
  intros (chunks & Hcont & Hperm).
  rewrite loop_assignments.
  rewrite (run_list_ext _ (λ c, run_list (λ ij, reflect_assign self stride ij.1 ij.2)
                                  (assignments upper n c.1 c.2)))
    by (intros; apply loop_assignments).
  rewrite run_list_bind.
  rewrite <-(contiguous_assignments upper n 0 n chunks Hcont).
  apply run_assignments_perm with (n := n) (upper := upper); [done|by rewrite Hperm|].
  rewrite Hperm, (contiguous_assignments upper n 0 n chunks Hcont).
  by apply assignments_entries.
Qed.

Lemma parallel_for_same_result chunking buf :
  row_schedule 0 n (chunking 0 n) →
  parallel_for chunking 0 n 0
    (if upper then loop_upper self n stride else loop_lower self n stride) buf
  = (if upper then loop_upper self n stride else loop_lower self n stride)
      0 n buf.
Proof.
  intros Hs. unfold parallel_for. rewrite foldl_run_list. simpl.
  by apply schedule_same_result.
Qed.

Lemma apply_reflect_sequential chunking buf :
  (256 ≤ n → row_schedule 0 n (chunking 0 n)) →
  apply_reflect_conj_tri_single chunking buf self n stride upper
  = (if upper then loop_upper self n stride else loop_lower self n stride)
      0 n buf.
Proof.
  intros Hs. unfold apply_reflect_conj_tri_single. case_decide; [done|].
  apply parallel_for_same_result, Hs. lia.
Qed.

(** What a list of assignments of the pass leaves in the buffer. *)
Lemma run_assignments_spec (ps : list (Z * Z)) buf :
  Forall (λ ij, entry upper n ij.1 ij.2) ps →
  (∀ i j, (i, j) ∈ ps →
     in_bounds buf (cell self stride j i) ∧ in_bounds buf (cell self stride i j)) →
  ∃ buf',
    run_list (λ ij, reflect_assign self stride ij.1 ij.2) ps buf = Some buf'
    ∧ length buf' = length buf
    ∧ (∀ i j, (i, j) ∈ ps →
         load buf' (cell self stride i j)
         = conj_impl <$> load buf (cell self stride j i))
    ∧ (∀ p, (∀ i j, (i, j) ∈ ps → p ≠ cell self stride i j) →
         load buf' p = load buf p).
Proof.
  revert buf. induction ps as [|[i j] ps IH]; intros buf Hall Hb.
  - exists buf. split; [done|]. split; [done|]. split; [|done].
    intros i j Hin. by apply elem_of_nil in Hin.
  - inversion_clear Hall as [|? ? He Hall']. simpl in He.
    destruct (proj2 (reflect_assign_defined self stride buf i j)) as [b1 E1].
    { apply Hb. left. }
    pose proof (reflect_assign_length _ _ _ _ _ _ E1) as Hlen1.
    destruct (IH b1 Hall') as (buf' & Hrun & Hlen & Hw & Hu).
    { intros i0 j0 Hin. rewrite !(in_bounds_length buf b1) by done.
      apply Hb. by right. }
    exists buf'. simpl. rewrite E1. simpl. split; [done|].
    split; [congruence|]. split.
    + intros i0 j0 Hin.
      destruct (decide ((i0, j0) ∈ ps)) as [Hps|Hps].
      * rewrite (Hw _ _ Hps).
        rewrite (reflect_assign_step _ _ _ _ _ _ (cell self stride j0 i0) E1).
        rewrite decide_False; [done|].
        intros Heq. eapply (written_not_read self stride n upper stride_ge_n i j i0 j0);
          [done| |done].
        by apply (proj1 (Forall_forall _ _) Hall' (i0, j0)).
      * apply elem_of_cons in Hin as [[= -> ->]|]; [|done].
        rewrite Hu.
        -- rewrite (reflect_assign_step _ _ _ _ _ _ _ E1). by rewrite decide_True.
        -- intros i' j' Hin' Heq.
           apply (written_inj self stride n upper stride_ge_n) in Heq; [congruence|done|].
           by apply (proj1 (Forall_forall _ _) Hall' (i', j')).
    + intros p Hp. rewrite Hu.
      * rewrite (reflect_assign_step _ _ _ _ _ _ p E1).
        rewrite decide_False; [done|]. apply Hp. left.
      * intros i' j' Hin'. apply Hp. by right.
Qed.
End PassFacts.

Section PassResult.
Context {T : Type} `{Scalar T}.
Variables (self stride n : Z) (upper : bool).
Hypothesis stride_ge_n : n ≤ stride.
Implicit Types (buf : list T).

Lemma entry_assignments i j :
  (i, j) ∈ assignments upper n 0 n ↔ entry upper n i j.
Proof.
  rewrite elem_of_assignments. unfold entry, written_side.
  destruct upper; lia.
Qed.

Lemma entry_in_bounds buf i j :
  matrix_in_buffer buf self n stride → entry upper n i j →
  in_bounds buf (cell self stride j i) ∧ in_bounds buf (cell self stride i j).
Proof.
  intros [Hself Hlen] (Hi & Hj & _). specialize (Hlen ltac:(lia)).
  unfold in_bounds, cell. nia.
Qed.

(** The result of the whole pass. *)
Lemma pass_result chunking buf :
  matrix_in_buffer buf self n stride →
  (256 ≤ n → row_schedule 0 n (chunking 0 n)) →
  ∃ buf',
    apply_reflect_conj_tri_single chunking buf self n stride upper = Some buf'
    ∧ length buf' = length buf
    ∧ (∀ i j, entry upper n i j →
         load buf' (cell self stride i j)
         = conj_impl <$> load buf (cell self stride j i))
    ∧ (∀ p, (∀ i j, entry upper n i j → p ≠ cell self stride i j) →
         load buf' p = load buf p).
Proof.
  intros Hin Hs.
  rewrite (apply_reflect_sequential self stride n upper stride_ge_n) by done.
  rewrite loop_assignments.
  destruct (run_assignments_spec self stride n upper stride_ge_n
              (assignments upper n 0 n) buf) as (buf' & Hrun & Hlen & Hw & Hu).
  - by apply assignments_entries.
  - intros i j Hij. apply entry_in_bounds; [done|]. by apply entry_assignments.
  - exists buf'. split; [done|]. split; [done|]. split.
    + intros i j He. apply Hw. by apply entry_assignments.
    + intros p Hp. apply Hu. intros i j Hij. apply Hp. by apply entry_assignments.
Qed.

(** The cells that the pass reads are among those it leaves alone. *)
Lemma read_cell_kept chunking buf buf' i j :
  matrix_in_buffer buf self n stride →
  (256 ≤ n → row_schedule 0 n (chunking 0 n)) →
  apply_reflect_conj_tri_single chunking buf self n stride upper = Some buf' →
  entry upper n i j →
  load buf' (cell self stride j i) = load buf (cell self stride j i).
Proof.
  intros Hin Hs Hrun He.
  destruct (pass_result chunking buf Hin Hs) as (b & Hb & _ & _ & Hu).
  assert (b = buf') as -> by congruence.
  apply Hu. intros i' j' He' Heq.
  by apply (written_not_read self stride n upper stride_ge_n i' j' i j).
Qed.

(** A second pass finds every written cell already equal to what it would
    store there. *)
Lemma pass_twice chunking buf :
  matrix_in_buffer buf self n stride →
  (256 ≤ n → row_schedule 0 n (chunking 0 n)) →
  ∃ buf',
    apply_reflect_conj_tri_single chunking buf self n stride upper = Some buf'
    ∧ apply_reflect_conj_tri_single chunking buf' self n stride upper = Some buf'.
Proof.
  intros Hin Hs.
  destruct (pass_result chunking buf Hin Hs) as (b1 & Hb1 & Hlen1 & Hw1 & Hu1).
  assert (Hin1 : matrix_in_buffer b1 self n stride).
  { unfold matrix_in_buffer in *. by rewrite Hlen1. }
  destruct (pass_result chunking b1 Hin1 Hs) as (b2 & Hb2 & Hlen2 & Hw2 & Hu2).
  exists b1. split; [done|]. rewrite Hb2. f_equal.
  apply buffer_ext. intros p.
  destruct (decide (Exists (λ ij, p = cell self stride ij.1 ij.2)
                      (assignments upper n 0 n))) as [Hex|Hex].
  - apply Exists_exists in Hex as ([i j] & Hij & ->). simpl.
    apply entry_assignments in Hij.
    rewrite (Hw2 _ _ Hij), (Hw1 _ _ Hij). f_equal.
    by eapply read_cell_kept.
  - apply Hu2. intros i j He ->. apply Hex, Exists_exists.
    exists (i, j). split; [by apply entry_assignments|done].
Qed.
End PassResult.

(** *** The claims about the symmetrization pass *)

(** C1. For a square [n]-by-[n] matrix held in a buffer with leading
    dimension [stride], the pass returns a buffer in which, for every entry
    [(i, j)] on the written side ([j > i] when [upper], [j < i] otherwise),
    [M[i,j] = conj(M[j,i])], where [M[j,i]] is still the value it had before;
    every other element of the buffer is unchanged. *)
Theorem reflect_conj_tri_single_spec {T} `{Scalar T}
    (chunking : Z → Z → list (Z * Z)) (buf : list T) (self n stride : Z)
    (upper : bool) :
  n ≤ stride →
  matrix_in_buffer buf self n stride →
  (256 ≤ n → row_schedule 0 n (chunking 0 n)) →
  ∃ buf',
    apply_reflect_conj_tri_single chunking buf self n stride upper = Some buf'
    ∧ length buf' = length buf
    ∧ (∀ i j, 0 ≤ i < n → 0 ≤ j < n → written_side upper i j →
         load buf' (cell self stride i j)
         = conj_impl <$> load buf' (cell self stride j i)
         ∧ load buf' (cell self stride j i) = load buf (cell self stride j i)
         ∧ is_Some (load buf (cell self stride j i)))
    ∧ (∀ p, (∀ i j, 0 ≤ i < n → 0 ≤ j < n → written_side upper i j →
               p ≠ cell self stride i j) →
         load buf' p = load buf p).
Proof.
  intros Hst Hin Hs.
  destruct (pass_result self stride n upper Hst chunking buf Hin Hs)
    as (buf' & Hrun & Hlen & Hw & Hu).
  exists buf'. split; [done|]. split; [done|]. split.
  - intros i j Hi Hj Hside.
    assert (He : entry upper n i j) by done.
    rewrite (read_cell_kept self stride n upper Hst chunking buf buf' i j) by done.
    split; [by apply Hw|]. split; [done|].
    apply load_in_bounds. by apply (entry_in_bounds self stride n upper Hst buf i j).
  - intros p Hp. apply Hu. intros i j (Hi & Hj & Hside). by apply Hp.
Qed.

Lemma reflect_conj_tri_single_spec_witness :
  ∃ buf',
    apply_reflect_conj_tri_single two_chunks demo3 0 3 3 true = Some buf'
    ∧ length buf' = length demo3
    ∧ (∀ i j, 0 ≤ i < 3 → 0 ≤ j < 3 → written_side true i j →
         load buf' (cell 0 3 i j) = conj_impl <$> load buf' (cell 0 3 j i)
         ∧ load buf' (cell 0 3 j i) = load demo3 (cell 0 3 j i)
         ∧ is_Some (load demo3 (cell 0 3 j i)))
    ∧ (∀ p, (∀ i j, 0 ≤ i < 3 → 0 ≤ j < 3 → written_side true i j →
               p ≠ cell 0 3 i j) →
         load buf' p = load demo3 p).
Proof.
  apply (reflect_conj_tri_single_spec two_chunks demo3 0 3 3 true).
  - lia.
  - split; simpl; lia.
  - lia.
Defined.

Example reflect_upper_demo :
  apply_reflect_conj_tri_single one_chunk demo3 0 3 3 true
  = Some [1#1; 4#1; 7#1; 4#1; 5#1; 8#1; 7#1; 8#1; 9#1]%Q.
Proof. vm_compute. reflexivity. Qed.

Example reflect_lower_demo :
  apply_reflect_conj_tri_single one_chunk demo3 0 3 3 false
  = Some [1#1; 2#1; 3#1; 2#1; 5#1; 6#1; 3#1; 6#1; 9#1]%Q.
Proof. vm_compute. reflexivity. Qed.

Example reflect_complex_demo :
  apply_reflect_conj_tri_single one_chunk demo2c 0 2 2 true
  = Some [(1#1, 0#1); (3#1, -7#1); (3#1, 7#1); (4#1, 0#1)]%Q.
Proof. vm_compute. reflexivity. Qed.

(** C6. Applying the pass twice yields exactly the buffer obtained by
    applying it once, for either value of [upper] and for every element
    type (the proof uses no property of [conj_impl], so it covers the real
    types, where it is the identity, and the complex ones). *)
Theorem symmetrization_idempotent {T} `{Scalar T}
    (chunking : Z → Z → list (Z * Z)) (buf : list T) (self n stride : Z)
    (upper : bool) :
  n ≤ stride →
  matrix_in_buffer buf self n stride →
  (256 ≤ n → row_schedule 0 n (chunking 0 n)) →
  ∃ once,
    apply_reflect_conj_tri_single chunking buf self n stride upper = Some once
    ∧ apply_reflect_conj_tri_single chunking once self n stride upper = Some once.
Proof. intros Hst Hin Hs. by apply pass_twice. Qed.

Lemma symmetrization_idempotent_witness :
  ∃ once,
    apply_reflect_conj_tri_single one_chunk demo2c 0 2 2 false = Some once
    ∧ apply_reflect_conj_tri_single one_chunk once 0 2 2 false = Some once.
Proof.
  apply (symmetrization_idempotent one_chunk demo2c 0 2 2 false).
  - lia.
  - split; simpl; lia.
  - lia.
Defined.

(** C9.  The result of the pass does not depend on the threading decision.
    For a matrix with leading dimension [stride >= n] (the kernels pass
    [max(1, n)]), running the row loop on the chunks of any schedule of
    [parallel_for] (a cut of the rows [0 .. n) into consecutive chunks, taken
    in any order) gives the buffer that [loop(0, n)] gives, whatever [n] is;
    so the pass returns what the sequential loop returns on both sides of the
    threshold.  The same holds when the single assignments of the workers
    are interleaved in any order. *)
Theorem symmetrization_threading_independent {T} `{Scalar T}
    (chunking : Z → Z → list (Z * Z)) (buf : list T) (self n stride : Z)
    (upper : bool) :
  n ≤ stride →
  row_schedule 0 n (chunking 0 n) →
  let loop := if upper then loop_upper self n stride
              else loop_lower self n stride in
  parallel_for chunking 0 n 0 loop buf = loop 0 n buf
  ∧ apply_reflect_conj_tri_single chunking buf self n stride upper
    = loop 0 n buf
  ∧ ∀ interleaving,
      interleaving ≡ₚ assignments upper n 0 n →
      run_list (λ ij, reflect_assign self stride ij.1 ij.2) interleaving buf
      = loop 0 n buf.
Proof.
  intros Hst Hs loop. split; [|split].
  - by apply parallel_for_same_result.
  - apply apply_reflect_sequential; done.
  - intros order Hperm. subst loop. rewrite loop_assignments.
    apply run_assignments_perm with (n := n) (upper := upper); [done|done|].
    rewrite Hperm. by apply assignments_entries.
Qed.

Lemma symmetrization_threading_independent_witness :
  parallel_for two_chunks 0 3 0 (loop_upper 0 3 3) demo3
  = loop_upper 0 3 3 0 3 demo3
  ∧ apply_reflect_conj_tri_single two_chunks demo3 0 3 3 true
    = loop_upper 0 3 3 0 3 demo3
  ∧ ∀ interleaving,
      interleaving ≡ₚ assignments true 3 0 3 →
      run_list (λ ij, reflect_assign 0 3 ij.1 ij.2) interleaving demo3
      = loop_upper 0 3 3 0 3 demo3.
Proof.
  apply (symmetrization_threading_independent two_chunks demo3 0 3 3 true).
  - lia.
  - exists [(0, 1); (1, 3)]. split.
    + simpl. lia.
    + apply perm_swap.
Defined.

Example parallel_chunks_demo :
  parallel_for two_chunks 0 3 0 (loop_upper 0 3 3) demo3
  = Some [1#1; 4#1; 7#1; 4#1; 5#1; 8#1; 7#1; 8#1; 9#1]%Q.
Proof. vm_compute. reflexivity. Qed.

(** ** Kernel control: calls, assertions and the batch loop *)

Ltac unfold_kernel :=
  unfold mbind, kernel_bind, mret, kernel_ret,
    TORCH_INTERNAL_ASSERT_DEBUG_ONLY, TORCH_INTERNAL_ASSERT in *.

Section ControlFacts.
Context {T : Type} {D : Type}.
Variable lapack : request → D → D * reply T.
Implicit Types (st : state D) (r : request).

Lemma call_local r st :
  call lapack r InfoLocal st
  = Returned (lapack r (data st)).2
      (State (lapack r (data st)).1 (infos st) (trace st ++ [(r, InfoLocal)])).
Proof. done. Qed.

Lemma call_slot r i st :
  in_bounds (infos st) i →
  call lapack r (InfoSlot i) st
  = Returned (lapack r (data st)).2
      (State (lapack r (data st)).1
         (<[Z.to_nat i := info_out (lapack r (data st)).2]> (infos st))
         (trace st ++ [(r, InfoSlot i)])).
Proof. intros Hb. unfold call. by rewrite store_in_bounds. Qed.

Lemma call_returned r dest st rep st' :
  call lapack r dest st = Returned rep st' →
  rep = (lapack r (data st)).2
  ∧ data st' = (lapack r (data st)).1
  ∧ trace st' = trace st ++ [(r, dest)]
  ∧ match dest with
    | InfoLocal => infos st' = infos st
    | InfoSlot i => in_bounds (infos st) i
                    ∧ infos st' = <[Z.to_nat i := info_out rep]> (infos st)
    end.
Proof.
  unfold call. destruct dest as [i|].
  - unfold store. case_decide as Hb; [|done]. by intros [= <- <-].
  - by intros [= <- <-].
Qed.

Lemma call_never_asserts r dest st s : call lapack r dest st ≠ AssertionFailure s.
Proof.
  unfold call. destruct dest; [|done].
  by destruct (store (infos st) i _).
Qed.

(** The calls of a loop whose body makes the call [ev i] for matrix [i],
    however the loop ends. *)
Lemma batch_loop_trace (ev : Z → event) (body : Z → kernel D bool) :
  (∀ i st st', final_state (body i st) = Some st' →
     trace st' = trace st ++ [ev i]) →
  ∀ count i0 st st',
    final_state (batch_loop count i0 body st) = Some st' →
    ∃ k : nat, (k ≤ count)%nat ∧ trace st' = trace st ++ (ev <$> seqZ i0 (Z.of_nat k)).
Proof.
  intros Hbody. induction count as [|c IH]; intros i0 st st'; simpl.
  - intros [= <-]. exists 0%nat. split; [lia|]. by rewrite seqZ_nil, app_nil_r.
  - unfold_kernel. destruct (body i0 st) as [stop s1|s1|] eqn:E.
    + pose proof (Hbody i0 st s1 ltac:(by rewrite E)) as Htr.
      destruct stop.
      * simpl. intros [= <-]. exists 1%nat. split; [lia|].
        by rewrite Htr.
      * intros Hf. destruct (IH _ _ _ Hf) as (k & Hk & Hk').
        exists (S k). split; [lia|].
        rewrite Hk', Htr, <-app_assoc. f_equal.
        rewrite (seqZ_cons i0) by lia. simpl. do 3 f_equal; lia.
    + simpl. intros [= <-]. exists 1%nat. split; [lia|].
      by rewrite (Hbody i0 st s1) by (by rewrite E).
    + done.
Qed.

(** When the body never asks to stop, a loop that returns has run it for
    every index. *)
Lemma batch_loop_trace_full (ev : Z → event) (body : Z → kernel D bool) :
  (∀ i st stop st', body i st = Returned stop st' →
     stop = false ∧ trace st' = trace st ++ [ev i]) →
  ∀ count i0 st st',
    batch_loop count i0 body st = Returned () st' →
    trace st' = trace st ++ (ev <$> seqZ i0 (Z.of_nat count)).
Proof.
  intros Hbody. induction count as [|c IH]; intros i0 st st'; simpl.
  - unfold_kernel. intros [= <-]. by rewrite app_nil_r.
  - unfold_kernel. destruct (body i0 st) as [stop s1|s1|] eqn:E; [|done..].
    destruct (Hbody _ _ _ _ E) as [-> Htr]. intros Hr.
    rewrite (IH _ _ _ Hr), Htr, <-app_assoc. f_equal.
    rewrite (seqZ_cons i0) by lia. simpl. do 3 f_equal; lia.
Qed.


Lemma irange_zero (batch_size : Z) (body : Z → kernel D bool) st :
  batch_size ≤ 0 → irange batch_size body st = Returned () st.
Proof.
  intros Hb. unfold irange. by replace (Z.to_nat batch_size) with 0%nat by lia.
Qed.
End ControlFacts.

(** ** Tensor sizes and conversions *)

Lemma numel_batchCount (t : list Z) :
  numel t = batchCount t * foldr Z.mul 1 (drop (length t - 2) t).
Proof.
  unfold numel, batchCount.
  rewrite <-(take_drop (length t - 2) t) at 1.
  generalize (take (length t - 2) t) (drop (length t - 2) t). intros l1 l2.
  induction l1 as [|x l1 IH]; simpl; [lia|]. rewrite IH. lia.
Qed.

Lemma empty_batch_numel (t : list Z) : batchCount t = 0 → numel t = 0.
Proof. intros Hb. rewrite numel_batchCount, Hb. lia. Qed.

Lemma truncate_floor (q : Q) (lo : Z) :
  1 ≤ lo → Z.max lo (truncate q) = Z.max lo (Qfloor q).
Proof.
  intros Hlo. unfold truncate. destruct q as [num den]. simpl.
  destruct (decide (0 ≤ num)) as [Hn|Hn].
  - by rewrite Z.quot_div_nonneg by lia.
  - assert (num ÷ Z.pos den ≤ 0).
    { apply Z.quot_le_upper_bound; lia. }
    assert (num / Z.pos den < 0).
    { apply Z.div_lt_upper_bound; lia. }
    lia.
Qed.

(** Within the range of [int] the conversion is the truncation, and under a
    maximum with a positive number truncation and floor agree. *)
Lemma int_of_value_floor {T} `{Scalar T} (q : Q) (lo : Z) :
  fits_int q → 1 ≤ lo →
  Z.max lo (int_of_value (T := T) q) = Z.max lo (Qfloor q).
Proof.
  intros Hfit Hlo. unfold int_of_value. rewrite decide_True by done.
  by apply truncate_floor.
Qed.

Lemma work_size_floor {T} `{Scalar T} (hint : T) :
  fits_int (real_impl hint) → work_size hint = hint_size hint.
Proof. intros Hfit. unfold work_size, hint_size. by apply int_of_value_floor. Qed.

Lemma geqrf_work_size_floor {T} `{Scalar T} (n : Z) (hint : T) :
  fits_int (real_impl hint) →
  geqrf_work_size n hint = Z.max (int_of_int64 n) (hint_size hint).
Proof.
  intros Hfit. unfold geqrf_work_size, hint_size.
  rewrite int_of_value_floor by (done || lia). lia.
Qed.

Example int_of_value_negative :
  int_of_value (T := Q) (-7 # 2) = -3 ∧ Qfloor (-7 # 2) = -4.
Proof. split; reflexivity. Qed.

(** A value that is no [int]: the conversion is not the truncation. *)
Example int_of_value_out_of_range :
  ¬ fits_int 3000000000 ∧ Qfloor 3000000000 = 3000000000
  ∧ int_of_value (T := Q) 3000000000 = - 2 ^ 31.
Proof. split; [|split]; [|reflexivity..]. vm_compute. intros [_ Hlt]. discriminate Hlt. Qed.

(** ** The kernels on particular inputs *)

Example geqrf_two_matrices :
  trace_of_run (apply_geqrf (toy_lapack 64 status_ok) false [2; 3; 3] [2; 3] 3 3
                  empty_state)
  = Some [ (lapackGeqrf 3 3 0 3 0 (-1), InfoLocal);
           (lapackGeqrf 3 3 0 3 0 64, InfoLocal);
           (lapackGeqrf 3 3 9 3 3 64, InfoLocal) ].
Proof. vm_compute. reflexivity. Qed.

(** ** The traces of the kernels *)

Lemma seqZ_to_nat (m b : Z) : seqZ m (Z.of_nat (Z.to_nat b)) = seqZ m b.
Proof.
  destruct (decide (0 ≤ b)).
  - by rewrite Z2Nat.id.
  - rewrite !seqZ_nil; [done|lia..].
Qed.

(** Solves the obligation that one iteration of a driver loop logs exactly
    the call of its matrix. *)
Ltac body_logs_call :=
  intros; unfold_kernel;
  match goal with
  | Hf : context [call ?l ?r ?d ?s] |- _ =>
      let Ec := fresh "Ec" in
      destruct (call l r d s) as [? ?|?|] eqn:Ec;
      [ apply call_returned in Ec as (_ & _ & Ec & _)
      | by apply call_never_asserts in Ec
      | done ]
  end;
  simpl in *;
  repeat match goal with
  | Hf : context [bool_decide ?P] |- _ => destruct (bool_decide P)
  end;
  simpl in *; simplify_eq; done.

Section KernelTraces.
Context {T : Type} `{Scalar T} {D : Type}.
Variable lapack : request → D → D * reply T.
Variable debug : bool.
Implicit Types (st : state D).

(** *** General eigendecomposition *)

Lemma eig_final self eigenvectors st st' :
  final_state (apply_eig lapack self eigenvectors st) = Some st' →
  let q := eig_call self eigenvectors (-1) in
  let lwork := Z.max 1 (int_of_value (T := T) (real_impl (work_out (answer lapack q st)))) in
  trace st' = trace st
  ∨ trace st' = trace st ++ [q; eig_call self eigenvectors lwork].
Proof.
  unfold apply_eig. case_decide; [|simpl; intros [= <-]; by left].
  unfold_kernel. rewrite !call_local. simpl. intros [= <-]. right.
  simpl. by rewrite <-app_assoc.
Qed.


Lemma linalg_eig_final values vectors input compute_eigenvectors st st' :
  final_state (apply_linalg_eig lapack values vectors input compute_eigenvectors st)
    = Some st' →
  let q := linalg_eig_query input compute_eigenvectors in
  let lwork := Z.max 1 (int_of_value (T := T) (real_impl (work_out (answer lapack q st)))) in
  ∃ k, 0 ≤ k ≤ Z.max 0 (batchCount input)
    ∧ trace st' = trace st ++ q ::
        (linalg_eig_call values input compute_eigenvectors lwork <$> seqZ 0 k).
Proof.
  unfold apply_linalg_eig. unfold_kernel.
  destruct (call lapack _ (InfoSlot 0) st) as [rep s1|s1|] eqn:Eq;
    [|by apply call_never_asserts in Eq|done].
  apply call_returned in Eq as (-> & Hd & Htr & _).
  intros Hloop. unfold irange in Hloop.
  eapply (batch_loop_trace
            (linalg_eig_call values input compute_eigenvectors _)) in Hloop.
  - destruct Hloop as (k & Hk & Hloop). exists (Z.of_nat k). split; [lia|].
    simpl. rewrite Hloop, Htr, <-app_assoc. done.
  - body_logs_call.
Qed.

Lemma linalg_eig_returned values vectors input compute_eigenvectors st st' :
  apply_linalg_eig lapack values vectors input compute_eigenvectors st
    = Returned () st' →
  let q := linalg_eig_query input compute_eigenvectors in
  let lwork := Z.max 1 (int_of_value (T := T) (real_impl (work_out (answer lapack q st)))) in
  trace st' = trace st ++ q ::
    (linalg_eig_call values input compute_eigenvectors lwork
       <$> seqZ 0 (batchCount input)).
Proof.
  unfold apply_linalg_eig. unfold_kernel.
  destruct (call lapack _ (InfoSlot 0) st) as [rep s1|s1|] eqn:Eq; [|done..].
  apply call_returned in Eq as (-> & Hd & Htr & _).
  intros Hloop. unfold irange in Hloop.
  eapply (batch_loop_trace_full
            (linalg_eig_call values input compute_eigenvectors _)) in Hloop.
  - simpl. rewrite Hloop, Htr, <-app_assoc, seqZ_to_nat. done.
  - intros i s stop s' Hb. unfold_kernel.
    destruct (call lapack _ (InfoSlot i) s) as [rep s2|s2|] eqn:Ec; [|done..].
    injection Hb as <- <-.
    apply call_returned in Ec as (_ & _ & Htr2 & _). done.
Qed.


(** *** Symmetric / Hermitian eigendecomposition *)

Lemma lapack_eigh_final values vectors upper compute_eigenvectors st st' :
  final_state (apply_lapack_eigh lapack values vectors upper compute_eigenvectors st)
    = Some st' →
  let q := lapack_eigh_query vectors upper compute_eigenvectors in
  let a := answer lapack q st in
  ∃ k, 0 ≤ k ≤ Z.max 0 (batchCount vectors)
    ∧ trace st' = trace st ++ q ::
        (lapack_eigh_call values vectors upper compute_eigenvectors
           (eigh_lwork a) (eigh_lrwork a) (eigh_liwork a) <$> seqZ 0 k).
Proof.
  unfold apply_lapack_eigh. unfold_kernel.
  destruct (call lapack _ (InfoSlot 0) st) as [rep s1|s1|] eqn:Eq;
    [|by apply call_never_asserts in Eq|done].
  apply call_returned in Eq as (-> & Hd & Htr & _).
  intros Hloop. unfold irange in Hloop.
  eapply (batch_loop_trace
            (lapack_eigh_call values vectors upper compute_eigenvectors
               (eigh_lwork (answer lapack (lapack_eigh_query vectors upper
                                             compute_eigenvectors) st))
               (eigh_lrwork (answer lapack (lapack_eigh_query vectors upper
                                              compute_eigenvectors) st))
               (eigh_liwork (answer lapack (lapack_eigh_query vectors upper
                                              compute_eigenvectors) st))))
    in Hloop.
  - destruct Hloop as (k & Hk & Hloop). exists (Z.of_nat k). split; [lia|].
    simpl. rewrite Hloop, Htr, <-app_assoc. done.
  - body_logs_call.
Qed.


(** *** QR reflectors *)

Lemma geqrf_final input tau m n st st' :
  final_state (apply_geqrf lapack debug input tau m n st) = Some st' →
  let q := geqrf_query m n in
  let lwork := Z.max (Z.max 1 (int_of_int64 n))
                 (int_of_value (T := T) (real_impl (work_out (answer lapack q st)))) in
  ∃ k, 0 ≤ k ≤ Z.max 0 (batchCount input)
    ∧ trace st' = trace st ++ q :: (geqrf_call input tau m n lwork <$> seqZ 0 k).
Proof.
  unfold apply_geqrf. unfold_kernel. rewrite call_local.
  destruct debug eqn:Edebug;
    [destruct (bool_decide (info_out _ = 0)) eqn:Einfo|].
  - intros Hloop. unfold irange in Hloop.
    eapply (batch_loop_trace (geqrf_call input tau m n _)) in Hloop.
    + destruct Hloop as (k & Hk & Hloop). exists (Z.of_nat k). split; [lia|].
      simpl in *. rewrite Hloop, <-app_assoc. done.
    + body_logs_call.
  - simpl. intros [= <-]. exists 0. split; [lia|]. by rewrite seqZ_nil.
  - intros Hloop. unfold irange in Hloop.
    eapply (batch_loop_trace (geqrf_call input tau m n _)) in Hloop.
    + destruct Hloop as (k & Hk & Hloop). exists (Z.of_nat k). split; [lia|].
      simpl in *. rewrite Hloop, <-app_assoc. done.
    + body_logs_call.
Qed.

(** *** Orthogonal reconstruction *)

Lemma orgqr_final self tau n_columns st st' :
  final_state (apply_orgqr lapack debug self tau n_columns st) = Some st' →
  let q := orgqr_query self tau n_columns in
  let lwork := Z.max 1 (int_of_value (T := T) (real_impl (work_out (answer lapack q st)))) in
  trace st' = trace st
  ∨ ∃ k, 0 ≤ k ≤ Z.max 0 (batchCount self)
      ∧ trace st' = trace st ++ q ::
          (orgqr_call self tau n_columns lwork <$> seqZ 0 k).
Proof.
  unfold apply_orgqr. case_decide as Hnumel.
  { unfold_kernel. simpl. intros [= <-]. by left. }
  unfold_kernel.
  destruct (size self (-2) >=? n_columns); [|simpl; intros [= <-]; by left].
  destruct (n_columns >=? size tau (-1)); [|simpl; intros [= <-]; by left].
  rewrite call_local. intros Hrun. right.
  destruct debug eqn:Edebug;
    [destruct (bool_decide (info_out _ = 0)) eqn:Einfo|].
  - unfold irange in Hrun.
    eapply (batch_loop_trace (orgqr_call self tau n_columns _)) in Hrun.
    + destruct Hrun as (k & Hk & Hloop). exists (Z.of_nat k). split; [lia|].
      simpl in *. rewrite Hloop, <-app_assoc. done.
    + body_logs_call.
  - simpl in Hrun. injection Hrun as <-. exists 0. split; [lia|]. by rewrite seqZ_nil.
  - unfold irange in Hrun.
    eapply (batch_loop_trace (orgqr_call self tau n_columns _)) in Hrun.
    + destruct Hrun as (k & Hk & Hloop). exists (Z.of_nat k). split; [lia|].
      simpl in *. rewrite Hloop, <-app_assoc. done.
    + body_logs_call.
Qed.

(** *** Triangular solve *)

Lemma triangular_solve_final A B upper transpose conjugate_transpose unitriangular
    st st' :
  final_state (apply_triangular_solve lapack A B upper transpose
                 conjugate_transpose unitriangular st) = Some st' →
  ∃ k, 0 ≤ k ≤ Z.max 0 (batchCount A)
    ∧ trace st' = trace st ++
        (triangular_solve_call A B upper transpose conjugate_transpose
           unitriangular <$> seqZ 0 k).
Proof.
  unfold apply_triangular_solve. intros Hloop. unfold irange in Hloop.
  eapply (batch_loop_trace
            (triangular_solve_call A B upper transpose conjugate_transpose
               unitriangular)) in Hloop.
  - destruct Hloop as (k & Hk & Hloop). exists (Z.of_nat k). split; [lia|done].
  - body_logs_call.
Qed.
End KernelTraces.

(** ** Driver loops with early exit *)

Section EarlyExit.
Context {T : Type} {D : Type}.
Variable lapack : request → D → D * reply T.
Implicit Types (st : state D).

Lemma early_exit_loop (mk : Z → request) (count : nat) (i0 : Z) st :
  0 ≤ i0 →
  i0 + Z.of_nat count ≤ Z.of_nat (length (infos st)) →
  ∃ st' (k : nat),
    batch_loop count i0
      (λ i, r ← call lapack (mk i) (InfoSlot i);
            mret (bool_decide (info_out r ≠ 0))) st = Returned () st'
    ∧ (k ≤ count)%nat
    ∧ trace st' = trace st ++ ((λ i, (mk i, InfoSlot i)) <$> seqZ i0 (Z.of_nat k))
    ∧ length (infos st') = length (infos st)
    ∧ (∀ j, i0 ≤ j < i0 + Z.of_nat k - 1 → load (infos st') j = Some 0)
    ∧ (∀ j, ¬ (i0 ≤ j < i0 + Z.of_nat k) → load (infos st') j = load (infos st) j)
    ∧ ((k = count
        ∧ ∀ j, i0 ≤ j < i0 + Z.of_nat count → load (infos st') j = Some 0)
       ∨ ((1 ≤ k)%nat
          ∧ ∃ v, load (infos st') (i0 + Z.of_nat k - 1) = Some v ∧ v ≠ 0)).
Proof.
  revert i0 st. induction count as [|c IH]; intros i0 st Hi0 Hlen.
  - exists st, 0%nat. simpl. split; [done|]. split; [lia|].
    split; [by rewrite app_nil_r|]. split; [done|].
    split; [intros; lia|]. split; [done|]. left. split; [done|intros; lia].
  - assert (Hb : in_bounds (infos st) i0) by (unfold in_bounds; lia).
    simpl. unfold_kernel. rewrite (call_slot lapack _ _ _ Hb).
    set (v := info_out (lapack (mk i0) (data st)).2).
    set (s1 := State _ _ _).
    destruct (decide (v = 0)) as [Hv|Hv].
    + rewrite bool_decide_false by (intros ?; done).
      destruct (IH (i0 + 1) s1 ltac:(lia)) as
        (st' & k & Hrun & Hk & Htr & Hl & Hzero & Hkeep & Hend).
      { subst s1. simpl. rewrite length_insert. lia. }
      exists st', (S k). split; [done|]. split; [lia|].
      assert (Hi0' : load (infos st') i0 = Some 0).
      { rewrite Hkeep by lia. subst s1. simpl. rewrite <-Hv.
        by apply load_insert_eq. }
      split.
      { rewrite Htr. subst s1. simpl. rewrite <-app_assoc. f_equal.
        rewrite (seqZ_cons i0) by lia. simpl. do 3 f_equal; lia. }
      split; [rewrite Hl; subst s1; simpl; apply length_insert|].
      split.
      { intros j Hj. destruct (decide (j = i0)) as [->|]; [done|].
        apply Hzero. lia. }
      split.
      { intros j Hj. rewrite Hkeep by lia. subst s1. simpl.
        apply load_insert_ne; lia. }
      destruct Hend as [[-> Hall]|[Hk1 (w & Hw & Hw0)]].
      * left. split; [done|]. intros j Hj.
        destruct (decide (j = i0)) as [->|]; [done|]. apply Hall. lia.
      * right. split; [lia|]. exists w. split; [|done].
        rewrite <-Hw. f_equal. lia.
    + rewrite bool_decide_true by done.
      exists s1, 1%nat. split; [done|]. split; [lia|].
      split; [done|]. split; [subst s1; simpl; apply length_insert|].
      split; [intros; lia|]. split.
      { intros j Hj. subst s1. simpl. apply load_insert_ne; lia. }
      right. split; [lia|]. exists v. split; [|done].
      subst s1. simpl. replace (i0 + Z.of_nat 1 - 1) with i0 by lia.
      by apply load_insert_eq.
Qed.

(** From slot [0]: the outcome in the vocabulary of the specification. *)
Lemma early_exit_from_zero (mk : Z → request) (b : Z) st :
  Z.max 0 b ≤ Z.of_nat (length (infos st)) →
  ∃ st' k,
    irange b
      (λ i, r ← call lapack (mk i) (InfoSlot i);
            mret (bool_decide (info_out r ≠ 0))) st = Returned () st'
    ∧ trace st' = trace st ++ ((λ i, (mk i, InfoSlot i)) <$> seqZ 0 k)
    ∧ early_exit_outcome b k (infos st) (infos st').
Proof.
  intros Hlen. unfold irange.
  destruct (early_exit_loop mk (Z.to_nat b) 0 st ltac:(lia) ltac:(lia)) as
    (st' & k & Hrun & Hk & Htr & Hl & Hzero & Hkeep & Hend).
  exists st', (Z.of_nat k). split; [done|]. split; [done|].
  split; [lia|]. split; [done|].
  split; [intros; apply Hzero; lia|].
  split; [intros; apply Hkeep; lia|].
  destruct Hend as [[-> Hall]|[Hk1 (w & Hw & Hw0)]].
  - left. split; [lia|]. intros j Hj. apply Hall. lia.
  - right. split; [lia|]. exists w. split; [|done]. rewrite <-Hw.
    f_equal; lia.
Qed.
End EarlyExit.


(** ** Which matrix stops a loop with early exit *)

Lemma calls_until_failure_first (statuses : list Z) (i : nat) :
  first_failure statuses i → calls_until_failure statuses = S i.
Proof.
  revert i. induction statuses as [|v rest IH]; intros i [(w & Hw & Hw0) Hzero].
  - done.
  - destruct i as [|i]; simpl in *.
    + injection Hw as ->. by rewrite decide_False.
    + assert (v = 0) as ->.
      { specialize (Hzero 0%nat ltac:(lia)). simpl in Hzero. by injection Hzero. }
      rewrite decide_True by done. f_equal. apply IH. split; [by exists w|].
      intros j Hj. apply (Hzero (S j)). lia.
Qed.

Lemma calls_until_failure_none (statuses : list Z) :
  no_failure statuses → calls_until_failure statuses = length statuses.
Proof.
  induction 1 as [|v rest -> _ IH]; [done|].
  simpl. by rewrite IH.
Qed.

Lemma replies_length {T D} (lapack : request → D → D * reply T) mk count i d :
  length (replies lapack mk count i d) = count.
Proof.
  revert i d. induction count as [|c IH]; intros i d; simpl; [done|].
  by rewrite IH.
Qed.

Lemma calls_prefix_inj {A} (f : Z → A) (k k' : Z) :
  0 ≤ k → 0 ≤ k' → f <$> seqZ 0 k = f <$> seqZ 0 k' → k = k'.
Proof.
  intros Hk Hk' Heq. apply (f_equal length) in Heq.
  rewrite !length_fmap, !length_seqZ in Heq. lia.
Qed.

Section EarlyExitReplies.
Context {T : Type} {D : Type}.
Variable lapack : request → D → D * reply T.
Implicit Types (st : state D).

(** A loop with early exit that returns has made the calls up to the first
    one for which LAPACK reports a nonzero status, and each slot holds the
    status reported for its matrix. *)
Lemma early_exit_loop_replies (mk : Z → request) (count : nat) (i0 : Z) st st' :
  0 ≤ i0 →
  batch_loop count i0
    (λ i, r ← call lapack (mk i) (InfoSlot i);
          mret (bool_decide (info_out r ≠ 0))) st = Returned () st' →
  let statuses := info_out <$> replies lapack mk count i0 (data st) in
  let k := calls_until_failure statuses in
  trace st' = trace st ++ ((λ i, (mk i, InfoSlot i)) <$> seqZ i0 (Z.of_nat k))
  ∧ (∀ j : nat, (j < k)%nat →
       load (infos st') (i0 + Z.of_nat j) = statuses !! j)
  ∧ (∀ j, j < i0 → load (infos st') j = load (infos st) j)
  ∧ length (infos st') = length (infos st).
Proof.
  revert i0 st. induction count as [|c IH]; intros i0 st Hi0 Hrun.
  - simpl in *. unfold_kernel. injection Hrun as <-.
    split; [by rewrite app_nil_r|]. split; [intros; lia|done].
  - simpl in Hrun. unfold_kernel.
    destruct (call lapack (mk i0) (InfoSlot i0) st) as [rep s1| |] eqn:Hcall;
      try done.
    apply call_returned in Hcall as (-> & Hd & Htr & Hb & Hi).
    simpl. set (v := info_out (lapack (mk i0) (data st)).2) in *.
    destruct (decide (v = 0)) as [Hv|Hv].
    + rewrite bool_decide_false in Hrun by (intros ?; done).
      apply IH in Hrun as (Htr' & Hslots & Hkeep & Hlen); [|lia].
      rewrite Hd in Htr', Hslots.
      split; [|split; [|split]].
      * rewrite Htr', Htr, <-app_assoc. f_equal.
        rewrite Nat2Z.inj_succ, (seqZ_cons i0) by lia. simpl.
        rewrite Z.pred_succ. by replace (Z.succ i0) with (i0 + 1) by lia.
      * intros [|j] Hj.
        -- change (Z.of_nat 0) with 0. rewrite Z.add_0_r, Hkeep by lia.
           rewrite Hi. by apply load_insert_eq.
        -- replace (i0 + Z.of_nat (S j)) with (i0 + 1 + Z.of_nat j) by lia.
           apply Hslots. apply Nat.succ_lt_mono. exact Hj.
      * intros j Hj. rewrite Hkeep by lia. rewrite Hi.
        apply load_insert_ne; lia.
      * rewrite Hlen, Hi. apply length_insert.
    + rewrite bool_decide_true in Hrun by done. injection Hrun as <-.
      split; [|split; [|split]].
      * by rewrite Htr.
      * intros [|j] Hj; [|lia]. change (Z.of_nat 0) with 0.
        rewrite Z.add_0_r, Hi. by apply load_insert_eq.
      * intros j Hj. rewrite Hi. apply load_insert_ne; lia.
      * rewrite Hi. apply length_insert.
Qed.

(** From slot [0], in the vocabulary of the specification. *)
Lemma early_exit_stops (mk : Z → request) (b k : Z) st st' :
  irange b
    (λ i, r ← call lapack (mk i) (InfoSlot i);
          mret (bool_decide (info_out r ≠ 0))) st = Returned () st' →
  0 ≤ k →
  trace st' = trace st ++ ((λ i, (mk i, InfoSlot i)) <$> seqZ 0 k) →
  stops_at_first_failure
    (info_out <$> replies lapack mk (Z.to_nat b) 0 (data st)) b k (infos st').
Proof.
  intros Hrun Hk Htr. unfold irange in Hrun.
  apply early_exit_loop_replies in Hrun as (Htr' & Hslots & _); [|done].
  set (statuses := info_out <$> replies lapack mk (Z.to_nat b) 0 (data st)) in *.
  assert (Hk' : k = Z.of_nat (calls_until_failure statuses)).
  { rewrite Htr in Htr'. apply app_inv_head in Htr'.
    by apply calls_prefix_inj in Htr'; [|lia..]. }
  split; [|split].
  - intros i Hi. rewrite Hk', (calls_until_failure_first _ _ Hi). lia.
  - intros Hnone. rewrite Hk', (calls_until_failure_none _ Hnone).
    subst statuses. rewrite length_fmap, replies_length. lia.
  - intros j Hj. rewrite <-(Hslots j) by lia. f_equal.
Qed.
End EarlyExitReplies.

(** ** The Cholesky-based inverse *)

Section CholeskyFacts.
Context {T : Type} `{Scalar T}.
Variable chunking : Z → Z → list (Z * Z).
Variable lapack : request → list T → list T * reply T.
Variables (input : list Z) (upper : bool).
Implicit Types (st : state (list T)).

Lemma reflect_conj_tri_final self n stride st st' :
  final_state (reflect_conj_tri chunking self n stride upper st) = Some st' →
  trace st' = trace st ∧ infos st' = infos st.
Proof.
  unfold reflect_conj_tri.
  destruct (apply_reflect_conj_tri_single _ _ _ _ _ _); simpl; [|done].
  by intros [= <-].
Qed.

Lemma cholesky_inverse_body_final i st st' :
  final_state
    ((_ ← call lapack (cholesky_inverse_call input upper i).1 (InfoSlot i);
      _ ← reflect_conj_tri chunking (i * matrixStride input) (size input (-2))
            (Z.max 1 (size input (-2))) upper;
      mret false) st) = Some st' →
  trace st' = trace st ++ [cholesky_inverse_call input upper i].
Proof.
  unfold_kernel.
  destruct (call lapack _ (InfoSlot i) st) as [rep s1|s1|] eqn:Ec;
    [|by apply call_never_asserts in Ec|done].
  apply call_returned in Ec as (_ & _ & Htr & _).
  destruct (reflect_conj_tri _ _ _ _ _ s1) as [[] s2|s2|] eqn:Er; simpl; [| |done].
  - intros [= <-].
    assert (Hf : final_state (reflect_conj_tri chunking (i * matrixStride input)
                   (size input (-2)) (Z.max 1 (size input (-2))) upper s1)
                 = Some s2) by (by rewrite Er).
    apply reflect_conj_tri_final in Hf as [-> _]. done.
  - intros [= <-].
    assert (Hf : final_state (reflect_conj_tri chunking (i * matrixStride input)
                   (size input (-2)) (Z.max 1 (size input (-2))) upper s1)
                 = Some s2) by (by rewrite Er).
    apply reflect_conj_tri_final in Hf as [-> _]. done.
Qed.

Lemma cholesky_inverse_final st st' :
  final_state (apply_cholesky_inverse chunking lapack input upper st) = Some st' →
  ∃ k, 0 ≤ k ≤ Z.max 0 (batchCount input)
    ∧ trace st' = trace st ++ (cholesky_inverse_call input upper <$> seqZ 0 k).
Proof.
  unfold apply_cholesky_inverse, irange. intros Hloop.
  eapply (batch_loop_trace (cholesky_inverse_call input upper)) in Hloop.
  - destruct Hloop as (k & Hk & Hloop). exists (Z.of_nat k). split; [lia|done].
  - intros i s s'. apply cholesky_inverse_body_final.
Qed.

Lemma cholesky_inverse_returned st st' :
  apply_cholesky_inverse chunking lapack input upper st = Returned () st' →
  trace st' = trace st
              ++ (cholesky_inverse_call input upper <$> seqZ 0 (batchCount input)).
Proof.
  unfold apply_cholesky_inverse, irange. intros Hloop.
  eapply (batch_loop_trace_full (cholesky_inverse_call input upper)) in Hloop.
  - by rewrite seqZ_to_nat in Hloop.
  - intros i s stop s' Hb. split.
    + unfold_kernel. destruct (call lapack _ _ s) as [? s1|?|]; [|done..].
      destruct (reflect_conj_tri _ _ _ _ _ s1) as [[] s2|s2|]; [|done..].
      by injection Hb as <- _.
    + apply cholesky_inverse_body_final. unfold cholesky_inverse_call. simpl.
      by rewrite Hb.
Qed.

(** The loop over the batch, under the buffers' contract. *)
Lemma cholesky_inverse_loop (count : nat) (i0 : Z) st :
  let n := size input (-2) in
  let ms := matrixStride input in
  ms = n * n → 0 ≤ n →
  writes_within_matrix lapack →
  (256 ≤ n → row_schedule 0 n (chunking 0 n)) →
  0 ≤ i0 →
  (i0 + Z.of_nat count) * ms ≤ Z.of_nat (length (data st)) →
  i0 + Z.of_nat count ≤ Z.of_nat (length (infos st)) →
  ∃ st',
    batch_loop count i0
      (λ i,
         _ ← call lapack (cholesky_inverse_call input upper i).1 (InfoSlot i);
         _ ← reflect_conj_tri chunking (i * matrixStride input)
               (size input (-2)) (Z.max 1 (size input (-2))) upper;
         mret false) st = Returned () st'
    ∧ length (data st') = length (data st)
    ∧ length (infos st') = length (infos st)
    ∧ (∀ p, p < i0 * ms → load (data st') p = load (data st) p)
    ∧ (∀ i, i0 ≤ i < i0 + Z.of_nat count →
         conj_symmetric (data st') (i * ms) n (Z.max 1 n) upper).
Proof.
  intros n ms Hms Hn0 Hframe Hsched. revert i0 st.
  induction count as [|c IH]; intros i0 st Hi0 Hdata Hinfos.
  - exists st. simpl. split; [done|]. split; [done|]. split; [done|].
    split; [done|]. intros i Hi. lia.
  - assert (Hb : in_bounds (infos st) i0) by (unfold in_bounds; lia).
    simpl. unfold_kernel. rewrite (call_slot lapack _ _ _ Hb).
    simpl. fold n ms.
    set (a := i0 * ms). set (lda := Z.max 1 n).
    destruct (Hframe (if upper then "U"%char else "L"%char) n a lda (data st))
      as [Hlen1 Hkeep1].
    set (d1 := (lapack _ (data st)).1) in *.
    set (s1 := State d1 _ _).
    assert (Hin1 : matrix_in_buffer d1 a n lda).
    { unfold matrix_in_buffer. rewrite Hlen1. subst a lda. split; [nia|].
      intros Hpos. rewrite Z.max_r by lia. nia. }
    destruct (pass_result a lda n upper ltac:(lia) chunking d1 Hin1 Hsched)
      as (d2 & Hrun2 & Hlen2 & Hw2 & Hu2).
    unfold reflect_conj_tri at 1. simpl. rewrite Hrun2.
    set (s2 := State d2 _ _).
    destruct (IH (i0 + 1) s2 ltac:(lia)) as (st' & Hrun & Hld & Hli & Hkeep & Hsym).
    { subst s2. simpl. rewrite Hlen2, Hlen1. lia. }
    { subst s2. simpl. rewrite length_insert. lia. }
    exists st'. split; [exact Hrun|].
    split; [rewrite Hld; subst s2; simpl; congruence|].
    split; [rewrite Hli; subst s2; simpl; apply length_insert|].
    assert (Hcell : ∀ i j, 0 ≤ i < n → 0 ≤ j < n →
              a ≤ cell a lda i j < (i0 + 1) * ms).
    { intros i j Hi Hj. unfold cell. subst a lda.
      rewrite Z.max_r by lia. nia. }
    split.
    + intros p Hp. rewrite Hkeep by lia. subst s2. simpl.
      rewrite Hu2.
      * apply Hkeep1. fold a. lia.
      * intros i j (Hi & Hj & _) ->. specialize (Hcell i j Hi Hj). fold a in Hp. lia.
    + intros i Hi. destruct (decide (i = i0)) as [->|Hne]; [|apply Hsym; lia].
      fold a. intros r k He. pose proof He as (Hr & Hc & _).
      rewrite !Hkeep by (apply Hcell; done). subst s2. simpl.
      assert (Hread : load d2 (cell a lda k r) = load d1 (cell a lda k r)).
      { apply Hu2. intros i' j' He' Heq.
        by apply (written_not_read a lda n upper ltac:(lia) i' j' r k). }
      rewrite Hread. split; [by apply Hw2|].
      apply load_in_bounds.
      by apply (entry_in_bounds a lda n upper ltac:(lia) d1 r k).
Qed.
End CholeskyFacts.

(** * The claims about the batched kernels *)

(** ** Empty inputs *)

(** C8. When the input tensor of the orthogonal reconstruction has no
    elements (in particular for a batch of one 0-by-0 matrix), the kernel
    returns at once: the state it returns is the state it was given, so no
    size query and no factorization call was made, nothing was raised and
    every buffer is unchanged. *)
Theorem orgqr_empty_returns_immediately {T} `{Scalar T} {D}
    (lapack : request → D → D * reply T) (debug : bool)
    (self tau : list Z) (n_columns : Z) (st : state D) :
  numel self = 0 →
  apply_orgqr lapack debug self tau n_columns st = Returned () st.
Proof. intros Hn. unfold apply_orgqr. by rewrite decide_True. Qed.

Lemma orgqr_empty_returns_immediately_witness :
  numel [1; 0; 0] = 0
  ∧ apply_orgqr (toy_lapack 4 status_query_fails) true [1; 0; 0] [1; 0] 0
      (fresh_state 1)
    = Returned () (fresh_state 1).
Proof.
  split; [reflexivity|].
  apply (orgqr_empty_returns_immediately
           (toy_lapack 4 status_query_fails) true [1; 0; 0] [1; 0] 0 (fresh_state 1)).
  reflexivity.
Defined.

(** C2, as stated, fails: with a batch of size 0 the QR reflectors and both
    eigendecompositions still make their size query. *)
Lemma empty_batch_still_queries :
  batchCount [0; 2; 2] = 0
  ∧ ¬ returns_without_query
        (apply_geqrf (toy_lapack 4 status_ok) false [0; 2; 2] [0; 2] 2 2)
        empty_state
  ∧ ¬ returns_without_query
        (apply_linalg_eig (toy_lapack 4 status_ok) [0; 2] [0; 2; 2] [0; 2; 2] true)
        (fresh_state 1)
  ∧ ¬ returns_without_query
        (apply_lapack_eigh (toy_lapack 4 status_ok) [0; 2] [0; 2; 2] true true)
        (fresh_state 1).
Proof.
  split; [reflexivity|].
  repeat split; intros (st' & Hrun & Hq); vm_compute in Hrun;
    injection Hrun as <-; vm_compute in Hq; discriminate.
Qed.

(** C2, amended.  With a batch of size 0 no per-matrix factorization call
    is made and the kernel returns without raising (for the two
    eigendecompositions the status vector must have a slot 0; for the QR
    reflectors built with debug assertions the size query must report
    success).  The orthogonal reconstruction returns at once, without a size
    query and with every buffer unchanged; the general and the symmetric
    eigendecomposition and the QR reflectors still make their single size
    query before the empty loop. *)
Theorem empty_batch_behaviour {T} `{Scalar T} {D}
    (lapack : request → D → D * reply T) (debug : bool)
    (values vectors input tau self : list Z) (m n n_columns : Z)
    (upper compute_eigenvectors : bool) (st : state D) :
  batchCount self = 0 → batchCount input = 0 → batchCount vectors = 0 →
  in_bounds (infos st) 0 →
  (debug = true → info_out (answer lapack (geqrf_query m n) st) = 0) →
  apply_orgqr lapack debug self tau n_columns st = Returned () st
  ∧ (∃ st', apply_linalg_eig lapack values vectors input compute_eigenvectors st
              = Returned () st'
            ∧ trace st' = trace st ++ [linalg_eig_query input compute_eigenvectors])
  ∧ (∃ st', apply_lapack_eigh lapack values vectors upper compute_eigenvectors st
              = Returned () st'
            ∧ trace st' = trace st
                          ++ [lapack_eigh_query vectors upper compute_eigenvectors])
  ∧ (∃ st', apply_geqrf lapack debug input tau m n st = Returned () st'
            ∧ trace st' = trace st ++ [geqrf_query m n]
            ∧ infos st' = infos st).
Proof.
  intros Hself Hinput Hvectors Hslot Hquery. split; [|split; [|split]].
  - unfold apply_orgqr. rewrite decide_True; [done|by apply empty_batch_numel].
  - unfold apply_linalg_eig. unfold_kernel.
    rewrite (call_slot lapack _ _ _ Hslot), Hinput, irange_zero by lia.
    eexists. split; [done|done].
  - unfold apply_lapack_eigh. unfold_kernel.
    rewrite (call_slot lapack _ _ _ Hslot), Hvectors, irange_zero by lia.
    eexists. split; [done|done].
  - unfold apply_geqrf. unfold_kernel. rewrite call_local, Hinput.
    destruct debug.
    + unfold answer, geqrf_query in Hquery. simpl in Hquery.
      rewrite (bool_decide_true _ (Hquery eq_refl)). simpl.
      eexists. split; [done|done].
    + simpl. eexists. split; [done|done].
Qed.

Lemma empty_batch_behaviour_witness :
  apply_orgqr (toy_lapack 4 status_ok) true [0; 2; 2] [0; 2] 2 (fresh_state 1)
    = Returned () (fresh_state 1)
  ∧ (∃ st', apply_linalg_eig (toy_lapack 4 status_ok) [0; 2] [0; 2; 2] [0; 2; 2]
              true (fresh_state 1) = Returned () st'
            ∧ trace st' = trace (fresh_state 1) ++ [linalg_eig_query [0; 2; 2] true])
  ∧ (∃ st', apply_lapack_eigh (toy_lapack 4 status_ok) [0; 2] [0; 2; 2] false
              true (fresh_state 1) = Returned () st'
            ∧ trace st' = trace (fresh_state 1)
                          ++ [lapack_eigh_query [0; 2; 2] false true])
  ∧ (∃ st', apply_geqrf (toy_lapack 4 status_ok) true [0; 2; 2] [0; 2] 2 2
              (fresh_state 1) = Returned () st'
            ∧ trace st' = trace (fresh_state 1) ++ [geqrf_query 2 2]
            ∧ infos st' = infos (fresh_state 1)).
Proof.
  apply (empty_batch_behaviour (toy_lapack 4 status_ok) true
           [0; 2] [0; 2; 2] [0; 2; 2] [0; 2] [0; 2; 2] 2 2 2 false true
           (fresh_state 1)).
  - reflexivity.
  - reflexivity.
  - reflexivity.
  - unfold in_bounds. simpl. lia.
  - intros _. reflexivity.
Defined.

(** ** The workspace size *)

Lemma lwork_is_query_calls (q : event) (mk : Z → event) (w : Z) (l : list Z) :
  is_size_query q = true →
  (∀ i, lwork_of (mk i).1 = Some w) →
  lwork_is w (q :: (mk <$> l)).
Proof.
  intros Hq Hmk. unfold lwork_is, matrix_calls.
  rewrite filter_cons_False by (rewrite Hq; done).
  apply Forall_forall. intros e [_ He]%list_elem_of_filter.
  apply list_elem_of_fmap in He as (i & -> & _). apply Hmk.
Qed.

Lemma geqrf_lwork {T} `{Scalar T} (n' : Z) (q : Q) :
  fits_int q →
  Z.max (Z.max 1 n') (int_of_value (T := T) q) = Z.max n' (Z.max 1 (Qfloor q)).
Proof.
  intros Hfit. rewrite (int_of_value_floor q (Z.max 1 n')) by (done || lia). lia.
Qed.

(** C3, as stated, fails for the QR reflectors: with [n = 3] and a size hint
    of [1] the per-matrix call is given a workspace of [3], not of
    [max(1, floor(1)) = 1]. *)
Lemma geqrf_workspace_exceeds_hint :
  hint_size (work_out (answer (toy_lapack (D := list Q) 1 status_ok)
                         (geqrf_query 3 3) empty_state)) = 1
  ∧ ∃ st',
      apply_geqrf (toy_lapack 1 status_ok) false [1; 3; 3] [1; 3] 3 3 empty_state
        = Returned () st'
      ∧ matrix_calls (trace st') = [geqrf_call [1; 3; 3] [1; 3] 3 3 3 0]
      ∧ ¬ lwork_is 1 (trace st').
Proof.
  split; [reflexivity|]. eexists. split; [vm_compute; reflexivity|].
  split; [reflexivity|].
  unfold lwork_is. intros Hl. vm_compute in Hl.
  inversion Hl as [|? ? Hw _]. discriminate Hw.
Qed.

(** C3, amended.  However a run ends, the calls it has logged are the single
    size query followed by per-matrix calls that are all given the same
    workspace size.  When the real part of the hint, truncated toward zero,
    is an [int] (the conversion to [int] is undefined otherwise), that size
    is [max(1, floor(real_part(hint)))] in the general and the symmetric
    eigendecomposition and in the orthogonal reconstruction (and in
    [apply_eig], the single-matrix kernel of [torch.eig]), and
    [max(n, 1, floor(real_part(hint)))] in the QR reflectors, where [hint]
    is what the size query left in the first workspace slot and [n] is the
    column count as an [int].  (The orthogonal reconstruction makes no call
    at all on an empty input or when a LAPACK requirement is violated, and
    [apply_eig] makes none on a 0-by-0 matrix.) *)
Theorem workspace_size_from_hint {T} `{Scalar T} {D}
    (lapack : request → D → D * reply T) (debug : bool) (st : state D) :
  (∀ values vectors input compute_eigenvectors st',
     final_state (apply_linalg_eig lapack values vectors input
                    compute_eigenvectors st) = Some st' →
     let q := linalg_eig_query input compute_eigenvectors in
     let w := hint_size (work_out (answer lapack q st)) in
     fits_int (real_impl (work_out (answer lapack q st))) →
     ∃ k, 0 ≤ k ≤ Z.max 0 (batchCount input)
       ∧ trace st' = trace st ++ q ::
           (linalg_eig_call values input compute_eigenvectors w <$> seqZ 0 k)
       ∧ lwork_is w (q :: (linalg_eig_call values input compute_eigenvectors w
                            <$> seqZ 0 k)))
  ∧ (∀ values vectors upper compute_eigenvectors st',
     final_state (apply_lapack_eigh lapack values vectors upper
                    compute_eigenvectors st) = Some st' →
     let q := lapack_eigh_query vectors upper compute_eigenvectors in
     let a := answer lapack q st in
     let w := hint_size (work_out a) in
     fits_int (real_impl (work_out a)) →
     ∃ k, 0 ≤ k ≤ Z.max 0 (batchCount vectors)
       ∧ trace st' = trace st ++ q ::
           (lapack_eigh_call values vectors upper compute_eigenvectors
              w (eigh_lrwork a) (eigh_liwork a) <$> seqZ 0 k)
       ∧ lwork_is w (q :: (lapack_eigh_call values vectors upper
                             compute_eigenvectors w (eigh_lrwork a) (eigh_liwork a)
                            <$> seqZ 0 k)))
  ∧ (∀ self tau n_columns st',
     final_state (apply_orgqr lapack debug self tau n_columns st) = Some st' →
     let q := orgqr_query self tau n_columns in
     let w := hint_size (work_out (answer lapack q st)) in
     fits_int (real_impl (work_out (answer lapack q st))) →
     trace st' = trace st
     ∨ ∃ k, 0 ≤ k ≤ Z.max 0 (batchCount self)
         ∧ trace st' = trace st ++ q ::
             (orgqr_call self tau n_columns w <$> seqZ 0 k)
         ∧ lwork_is w (q :: (orgqr_call self tau n_columns w <$> seqZ 0 k)))
  ∧ (∀ input tau m n st',
     final_state (apply_geqrf lapack debug input tau m n st) = Some st' →
     let q := geqrf_query m n in
     let w := Z.max (int_of_int64 n) (hint_size (work_out (answer lapack q st))) in
     fits_int (real_impl (work_out (answer lapack q st))) →
     ∃ k, 0 ≤ k ≤ Z.max 0 (batchCount input)
       ∧ trace st' = trace st ++ q :: (geqrf_call input tau m n w <$> seqZ 0 k)
       ∧ lwork_is w (q :: (geqrf_call input tau m n w <$> seqZ 0 k)))
  ∧ (∀ self eigenvectors st',
     final_state (apply_eig lapack self eigenvectors st) = Some st' →
     let q := eig_call self eigenvectors (-1) in
     let w := hint_size (work_out (answer lapack q st)) in
     fits_int (real_impl (work_out (answer lapack q st))) →
     trace st' = trace st
     ∨ trace st' = trace st ++ [q; eig_call self eigenvectors w]
       ∧ lwork_is w [q; eig_call self eigenvectors w]).
Proof.
  split; [|split; [|split; [|split]]].
  - intros values vectors input ce st' Hf q w Hfit.
    apply linalg_eig_final in Hf as (k & Hk & Htr).
    rewrite int_of_value_floor in Htr by (assumption || lia).
    exists k. split; [done|]. split; [done|].
    by apply lwork_is_query_calls.
  - intros values vectors upper ce st' Hf q a w Hfit.
    apply lapack_eigh_final in Hf as (k & Hk & Htr).
    unfold eigh_lwork in Htr.
    rewrite int_of_value_floor in Htr by (assumption || lia).
    exists k. split; [done|]. split; [done|].
    by apply lwork_is_query_calls.
  - intros self tau n_columns st' Hf q w Hfit.
    apply orgqr_final in Hf as [Htr|(k & Hk & Htr)]; [by left|right].
    rewrite int_of_value_floor in Htr by (assumption || lia).
    exists k. split; [done|]. split; [done|].
    by apply lwork_is_query_calls.
  - intros input tau m n st' Hf q w Hfit.
    apply geqrf_final in Hf as (k & Hk & Htr).
    rewrite geqrf_lwork in Htr by assumption.
    exists k. split; [done|]. split; [done|].
    by apply lwork_is_query_calls.
  - intros self eigenvectors st' Hf q w Hfit.
    apply eig_final in Hf as [Htr|Htr]; [by left|right].
    rewrite int_of_value_floor in Htr by (assumption || lia). split; [done|].
    by apply (lwork_is_query_calls q (λ _, eig_call self eigenvectors w) w [0]).
Qed.

Lemma workspace_size_from_hint_witness :
  (∃ st' k,
     final_state (apply_linalg_eig (toy_lapack (129 # 2) status_ok) [2; 3]
                    [2; 3; 3] [2; 3; 3] true (fresh_state 2)) = Some st'
     ∧ trace st' = linalg_eig_query [2; 3; 3] true ::
         (linalg_eig_call [2; 3] [2; 3; 3] true 64 <$> seqZ 0 k))
  ∧ (∃ st' k,
     final_state (apply_lapack_eigh (toy_lapack (129 # 2) (status_fails_at 9))
                    [3; 3] [3; 3; 3] true true (fresh_state 3)) = Some st'
     ∧ trace st' = lapack_eigh_query [3; 3; 3] true true ::
         (lapack_eigh_call [3; 3] [3; 3; 3] true true 64 (-1) 1 <$> seqZ 0 k))
  ∧ (∃ st' k,
     final_state (apply_orgqr (toy_lapack (-7 # 2) status_ok) true [2; 3; 3]
                    [2; 3] 3 (fresh_state 0)) = Some st'
     ∧ trace st' = orgqr_query [2; 3; 3] [2; 3] 3 ::
         (orgqr_call [2; 3; 3] [2; 3] 3 1 <$> seqZ 0 k))
  ∧ (∃ st' k,
     final_state (apply_geqrf (toy_lapack (129 # 2) status_ok) false [2; 3; 3]
                    [2; 3] 3 3 (fresh_state 0)) = Some st'
     ∧ trace st' = geqrf_query 3 3 ::
         (geqrf_call [2; 3; 3] [2; 3] 3 3 64 <$> seqZ 0 k))
  ∧ (∃ st',
     final_state (apply_eig (toy_lapack (129 # 2) status_ok) [3; 3] true
                    (fresh_state 0)) = Some st'
     ∧ trace st' = [eig_call [3; 3] true (-1); eig_call [3; 3] true 64]).
Proof.
  split; [|split; [|split; [|split]]].
  - destruct (workspace_size_from_hint (toy_lapack (129 # 2) status_ok) false
                (fresh_state 2)) as (Heig & _).
    eexists. 
    destruct (Heig [2; 3] [2; 3; 3] [2; 3; 3] true _ eq_refl) as (k & _ & Htr & _);
      [vm_compute; split; [discriminate|reflexivity]|].
    exists k. split; [reflexivity|exact Htr].
  - destruct (workspace_size_from_hint (toy_lapack (129 # 2) (status_fails_at 9))
                false (fresh_state 3)) as (_ & Heigh & _).
    eexists.
    destruct (Heigh [3; 3] [3; 3; 3] true true _ eq_refl) as (k & _ & Htr & _);
      [vm_compute; split; [discriminate|reflexivity]|].
    exists k. split; [reflexivity|exact Htr].
  - destruct (workspace_size_from_hint (toy_lapack (-7 # 2) status_ok) true
                (fresh_state 0)) as (_ & _ & Horgqr & _).
    eexists.
    destruct (Horgqr [2; 3; 3] [2; 3] 3 _ eq_refl) as [Htr|(k & _ & Htr & _)].
    + vm_compute. split; [discriminate|reflexivity].
    + vm_compute in Htr. discriminate Htr.
    + exists k. split; [reflexivity|exact Htr].
  - destruct (workspace_size_from_hint (toy_lapack (129 # 2) status_ok) false
                (fresh_state 0)) as (_ & _ & _ & Hgeqrf & _).
    eexists.
    destruct (Hgeqrf [2; 3; 3] [2; 3] 3 3 _ eq_refl) as (k & _ & Htr & _);
      [vm_compute; split; [discriminate|reflexivity]|].
    exists k. split; [reflexivity|exact Htr].
  - destruct (workspace_size_from_hint (toy_lapack (129 # 2) status_ok) false
                (fresh_state 0)) as (_ & _ & _ & _ & Heig).
    eexists.
    destruct (Heig [3; 3] true _ eq_refl) as [Htr|[Htr _]].
    + vm_compute. split; [discriminate|reflexivity].
    + vm_compute in Htr. discriminate Htr.
    + split; [reflexivity|exact Htr].
Defined.

(** Outside of the range of [int] the formula fails: for a hint of 3e9 the
    x86 conversion leaves [INT_MIN], and the call is given a workspace of 1. *)
Example eig_hint_out_of_range :
  ¬ fits_int 3000000000
  ∧ hint_size (3000000000 : Q) = 3000000000
  ∧ trace_of_run (apply_eig (toy_lapack 3000000000 status_ok) [3; 3] true
                    empty_state)
    = Some [eig_call [3; 3] true (-1); eig_call [3; 3] true 1].
Proof.
  split; [|split]; [|reflexivity|vm_compute; reflexivity].
  vm_compute. intros [_ Hlt]. discriminate Hlt.
Qed.

(** ** A size query that reports a failure *)

Section QueryFailure.
Context {T : Type} `{Scalar T} {D : Type}.
Variable lapack : request → D → D * reply T.
Implicit Types (st : state D).




End QueryFailure.




(** ** Status slots *)

Lemma count_in_NoDup (i : Z) (l : list Z) :
  NoDup l →
  length (filter (λ j, j = i) l) = if decide (i ∈ l) then 1%nat else 0%nat.
Proof.
  induction 1 as [|x l Hx Hnd IH]; [done|].
  destruct (decide (x = i)) as [->|Hne].
  - rewrite filter_cons_True by done. simpl. rewrite IH.
    rewrite decide_False by done. rewrite decide_True by left. done.
  - rewrite filter_cons_False by done. rewrite IH.
    destruct (decide (i ∈ l)) as [Hin|Hin].
    + rewrite decide_True by (by right). done.
    + rewrite decide_False; [done|].
      intros [->|?]%elem_of_cons; done.
Qed.

Lemma status_writes_by_slot (mk : Z → event) (l : list Z) :
  (∀ i, info_slot (mk i) = Some i) → status_writes (mk <$> l) = l.
Proof.
  intros Hmk. unfold status_writes.
  induction l as [|x l IH]; [done|].
  rewrite fmap_cons. simpl. rewrite Hmk. simpl. f_equal. exact IH.
Qed.

Lemma driver_step_writes_intro (mk : Z → event) (k : Z) :
  (∀ i, info_slot (mk i) = Some i) → driver_step_writes mk k.
Proof.
  intros Hmk. split; [done|].
  assert (Hsw : status_writes (mk <$> seqZ 0 k) = seqZ 0 k)
    by (by apply status_writes_by_slot).
  split; [done|]. intros i. unfold write_count. rewrite Hsw.
  rewrite count_in_NoDup by apply NoDup_seqZ.
  destruct (decide (0 ≤ i < k)) as [Hi|Hi].
  - rewrite decide_True; [done|]. apply elem_of_seqZ. lia.
  - rewrite decide_False; [done|]. rewrite elem_of_seqZ. lia.
Qed.

Section EarlyExitKernels.
Context {T : Type} `{Scalar T} {D : Type}.
Variable lapack : request → D → D * reply T.
Implicit Types (st : state D).

Lemma triangular_solve_early_exit A B upper transpose conjugate_transpose
    unitriangular st :
  Z.max 0 (batchCount A) ≤ Z.of_nat (length (infos st)) →
  ∃ st' k,
    apply_triangular_solve lapack A B upper transpose conjugate_transpose
      unitriangular st = Returned () st'
    ∧ trace st' = trace st ++
        (triangular_solve_call A B upper transpose conjugate_transpose
           unitriangular <$> seqZ 0 k)
    ∧ early_exit_outcome (batchCount A) k (infos st) (infos st').
Proof.
  intros Hlen. unfold apply_triangular_solve.
  apply (early_exit_from_zero lapack
           (λ i, (triangular_solve_call A B upper transpose conjugate_transpose
                    unitriangular i).1)).
  done.
Qed.

Lemma lapack_eigh_early_exit values vectors upper compute_eigenvectors st :
  Z.max 1 (batchCount vectors) ≤ Z.of_nat (length (infos st)) →
  let q := lapack_eigh_query vectors upper compute_eigenvectors in
  let a := answer lapack q st in
  ∃ st' k,
    apply_lapack_eigh lapack values vectors upper compute_eigenvectors st
      = Returned () st'
    ∧ trace st' = trace st ++ q ::
        (lapack_eigh_call values vectors upper compute_eigenvectors
           (eigh_lwork a) (eigh_lrwork a) (eigh_liwork a) <$> seqZ 0 k)
    ∧ early_exit_outcome (batchCount vectors) k
        (<[0%nat := info_out a]> (infos st)) (infos st').
Proof.
  intros Hlen q a. unfold apply_lapack_eigh. unfold_kernel.
  assert (Hb : in_bounds (infos st) 0) by (unfold in_bounds; lia).
  rewrite (call_slot lapack _ _ _ Hb).
  set (s1 := State _ _ _).
  destruct (early_exit_from_zero lapack
              (λ i, (lapack_eigh_call values vectors upper compute_eigenvectors
                       (eigh_lwork a) (eigh_lrwork a) (eigh_liwork a) i).1)
              (batchCount vectors) s1) as (st' & k & Hrun & Htr & Hout).
  { subst s1. simpl. rewrite length_insert. lia. }
  exists st', k. split; [exact Hrun|]. split; [|exact Hout].
  rewrite Htr. subst s1. simpl. by rewrite <-app_assoc.
Qed.

Lemma triangular_solve_stops A B upper transpose conjugate_transpose
    unitriangular st st' k :
  apply_triangular_solve lapack A B upper transpose conjugate_transpose
    unitriangular st = Returned () st' →
  let mk := triangular_solve_call A B upper transpose conjugate_transpose
              unitriangular in
  0 ≤ k → trace st' = trace st ++ (mk <$> seqZ 0 k) →
  stops_at_first_failure (reported_statuses lapack mk (batchCount A) (data st))
    (batchCount A) k (infos st').
Proof.
  intros Hrun mk Hk Htr. unfold apply_triangular_solve in Hrun.
  exact (early_exit_stops lapack (λ i, (mk i).1) (batchCount A) k st st'
           Hrun Hk Htr).
Qed.

Lemma lapack_eigh_stops values vectors upper compute_eigenvectors st st' k :
  apply_lapack_eigh lapack values vectors upper compute_eigenvectors st
    = Returned () st' →
  let q := lapack_eigh_query vectors upper compute_eigenvectors in
  let a := answer lapack q st in
  let mk := lapack_eigh_call values vectors upper compute_eigenvectors
              (eigh_lwork a) (eigh_lrwork a) (eigh_liwork a) in
  0 ≤ k → trace st' = trace st ++ q :: (mk <$> seqZ 0 k) →
  stops_at_first_failure
    (reported_statuses lapack mk (batchCount vectors) (lapack q.1 (data st)).1)
    (batchCount vectors) k (infos st').
Proof.
  intros Hrun q a mk Hk Htr. unfold apply_lapack_eigh in Hrun. unfold_kernel.
  destruct (call lapack _ (InfoSlot 0) st) as [rep s1|s1|] eqn:Eq; [|done..].
  apply call_returned in Eq as (-> & Hd & Htr1 & _).
  pose proof (early_exit_stops lapack (λ i, (mk i).1) (batchCount vectors) k
                s1 st' Hrun Hk) as Hstops.
  rewrite Hd in Hstops. apply Hstops.
  rewrite Htr, Htr1, <-app_assoc. done.
Qed.
End EarlyExitKernels.

(** C4, as stated, fails in its last clause for the symmetric
    eigendecomposition: over a batch of 0 matrices no matrix fails, yet one
    status entry is written, slot 0, by the size query. *)
Lemma eigh_empty_batch_writes_status :
  batchCount [0; 2; 2] = 0
  ∧ ∃ st',
      apply_lapack_eigh (toy_lapack 4 status_ok) [0; 2] [0; 2; 2] true true
        (fresh_state 1) = Returned () st'
      ∧ infos (fresh_state 1) = [-1] ∧ infos st' = [0]
      ∧ status_writes (trace st') = [0]
      ∧ ¬ writes_exactly_batch 0 (trace st').
Proof.
  split; [reflexivity|]. eexists. split; [vm_compute; reflexivity|].
  split; [reflexivity|]. split; [reflexivity|]. split; [reflexivity|].
  intros Hw. specialize (Hw 0). simpl in Hw.
  assert (0 ≤ 0 < 0) by (apply Hw; left). lia.
Qed.

(** C4, amended.  Given a status vector with a slot for every matrix (and,
    for the symmetric eigendecomposition, a slot 0 for its size query), the
    triangular solve and the symmetric eigendecomposition return after the
    per-matrix calls for the matrices [0 .. k - 1], in order, each writing
    the status LAPACK reports for its matrix into the slot of that matrix.
    If [i] is the first matrix for which LAPACK reports a nonzero status,
    then [k = i + 1]: the slots before [i] hold 0, slot [i] holds the
    nonzero status, no call is made for a later matrix and the later slots
    are as they were.  If LAPACK reports no nonzero status, [k] is the batch
    size and the [k] slots hold 0.  The size query of the symmetric
    eigendecomposition writes slot 0 before the loop, also when the batch is
    empty. *)
Theorem early_exit_statuses {T} `{Scalar T} {D}
    (lapack : request → D → D * reply T) (st : state D) :
  (∀ A B upper transpose conjugate_transpose unitriangular,
     Z.max 0 (batchCount A) ≤ Z.of_nat (length (infos st)) →
     let mk := triangular_solve_call A B upper transpose conjugate_transpose
                 unitriangular in
     let statuses := reported_statuses lapack mk (batchCount A) (data st) in
     ∃ st' k,
       apply_triangular_solve lapack A B upper transpose conjugate_transpose
         unitriangular st = Returned () st'
       ∧ trace st' = trace st ++ (mk <$> seqZ 0 k)
       ∧ driver_step_writes mk k
       ∧ early_exit_outcome (batchCount A) k (infos st) (infos st')
       ∧ stops_at_first_failure statuses (batchCount A) k (infos st'))
  ∧ (∀ values vectors upper compute_eigenvectors,
     Z.max 1 (batchCount vectors) ≤ Z.of_nat (length (infos st)) →
     let q := lapack_eigh_query vectors upper compute_eigenvectors in
     let a := answer lapack q st in
     let mk := lapack_eigh_call values vectors upper compute_eigenvectors
                 (eigh_lwork a) (eigh_lrwork a) (eigh_liwork a) in
     let statuses := reported_statuses lapack mk (batchCount vectors)
                       (lapack q.1 (data st)).1 in
     ∃ st' k,
       apply_lapack_eigh lapack values vectors upper compute_eigenvectors st
         = Returned () st'
       ∧ trace st' = trace st ++ q :: (mk <$> seqZ 0 k)
       ∧ info_slot q = Some 0
       ∧ driver_step_writes mk k
       ∧ early_exit_outcome (batchCount vectors) k
           (<[0%nat := info_out a]> (infos st)) (infos st')
       ∧ stops_at_first_failure statuses (batchCount vectors) k (infos st')
       ∧ ∀ j, Z.max 1 k ≤ j → load (infos st') j = load (infos st) j).
Proof.
  split.
  - intros A B upper transpose conjugate_transpose unitriangular Hlen mk statuses.
    destruct (triangular_solve_early_exit lapack A B upper transpose
                conjugate_transpose unitriangular st Hlen)
      as (st' & k & Hrun & Htr & Hout).
    exists st', k. split; [done|]. split; [done|].
    split; [by apply driver_step_writes_intro|]. split; [done|].
    apply (triangular_solve_stops lapack A B upper transpose conjugate_transpose
             unitriangular st st' k Hrun); [|done].
    destruct Hout as (Hk & _). lia.
  - intros values vectors upper compute_eigenvectors Hlen q a mk statuses.
    destruct (lapack_eigh_early_exit lapack values vectors upper
                compute_eigenvectors st Hlen) as (st' & k & Hrun & Htr & Hout).
    exists st', k. split; [done|]. split; [done|]. split; [done|].
    split; [by apply driver_step_writes_intro|]. split; [done|].
    split.
    { apply (lapack_eigh_stops lapack values vectors upper compute_eigenvectors
               st st' k Hrun); [|done].
      destruct Hout as (Hk & _). lia. }
    intros j Hj. destruct Hout as (_ & _ & _ & Hkeep & _).
    rewrite Hkeep by lia. apply (load_insert_ne _ 0); lia.
Qed.

Example eigh_second_matrix_fails :
  apply_lapack_eigh (toy_lapack 4 (status_fails_at 4)) [3; 2] [3; 2; 2] true true
    (fresh_state 3)
  = Returned ()
      (State [] [0; 3; -1]
         [ lapack_eigh_query [3; 2; 2] true true;
           lapack_eigh_call [3; 2] [3; 2; 2] true true 4 (-1) 1 0;
           lapack_eigh_call [3; 2] [3; 2; 2] true true 4 (-1) 1 1 ]).
Proof. vm_compute. reflexivity. Qed.

Lemma early_exit_statuses_witness :
  (∃ st',
     apply_triangular_solve (toy_lapack 4 (status_fails_at 4)) [3; 2; 2] [3; 2; 1]
       true false false false (fresh_state 3) = Returned () st'
     ∧ trace st' = triangular_solve_call [3; 2; 2] [3; 2; 1] true false false false
                   <$> seqZ 0 2
     ∧ early_exit_outcome 3 2 [-1; -1; -1] (infos st'))
  ∧ (∃ st',
     apply_lapack_eigh (toy_lapack 4 (status_fails_at 4)) [3; 2] [3; 2; 2] true
       true (fresh_state 3) = Returned () st'
     ∧ trace st' = lapack_eigh_query [3; 2; 2] true true ::
         (lapack_eigh_call [3; 2] [3; 2; 2] true true 4 (-1) 1 <$> seqZ 0 2)
     ∧ early_exit_outcome 3 2 [0; -1; -1] (infos st')).
Proof.
  destruct (early_exit_statuses (toy_lapack 4 (status_fails_at 4))
              (fresh_state 3)) as [Htrsm Heigh].
  split.
  - destruct (Htrsm [3; 2; 2] [3; 2; 1] true false false false)
      as (st' & k & Hrun & Htr & _ & Hout & Hfirst & _).
    + vm_compute. discriminate.
    + assert (k = 2) as ->.
      { apply (Hfirst 1%nat). split.
        - exists 3. split; [reflexivity|discriminate].
        - intros [|j] Hj; [reflexivity|lia]. }
      exists st'. split; [exact Hrun|]. split; [exact Htr|exact Hout].
  - destruct (Heigh [3; 2] [3; 2; 2] true true)
      as (st' & k & Hrun & Htr & _ & _ & Hout & (Hfirst & _) & _).
    + vm_compute. discriminate.
    + assert (k = 2) as ->.
      { apply (Hfirst 1%nat). split.
        - exists 3. split; [reflexivity|discriminate].
        - intros [|j] Hj; [reflexivity|lia]. }
      exists st'. split; [exact Hrun|]. split; [exact Htr|exact Hout].
Defined.

(** C5, as stated, fails: the size query of the general eigendecomposition
    writes status slot 0, which the call for matrix 0 then writes again; and
    after an early exit of the symmetric eigendecomposition the slots of the
    later matrices are not written at all. *)
Lemma status_slot_not_written_once :
  (∃ st',
     apply_linalg_eig (toy_lapack 4 status_ok) [1; 2] [1; 2; 2] [1; 2; 2] true
       (fresh_state 1) = Returned () st'
     ∧ batchCount [1; 2; 2] = 1
     ∧ status_writes (size_queries (trace st')) = [0]
     ∧ write_count 0 (trace st') = 2%nat)
  ∧ (∃ st',
     apply_lapack_eigh (toy_lapack 4 (status_fails_at 4)) [3; 2] [3; 2; 2] true
       true (fresh_state 3) = Returned () st'
     ∧ batchCount [3; 2; 2] = 3
     ∧ write_count 2 (trace st') = 0%nat).
Proof.
  split; eexists; (split; [vm_compute; reflexivity|]); repeat split; reflexivity.
Qed.

(** C5, amended.  In a run that returns, the per-matrix calls are those for
    the matrices [0 .. k - 1] in order, where [k] is the batch size in the
    Cholesky-based inverse and the general eigendecomposition; in the
    kernels with early exit the calls are those up to and including the
    first matrix for which LAPACK reports a nonzero status ([k] is the batch
    size when there is none).  The call for matrix [i] writes status slot
    [i], so each of these slots is written once by the driver and no driver
    step writes another slot.  The only other write is that of the size
    query of the general and of the symmetric eigendecomposition, which
    stores its status in slot 0 before the loop. *)
Theorem status_slot_writes {T} `{Scalar T} {D}
    (lapack : request → D → D * reply T)
    (potri : request → list T → list T * reply T)
    (chunking : Z → Z → list (Z * Z)) :
  (∀ input upper st st',
     apply_cholesky_inverse chunking potri input upper st = Returned () st' →
     let mk := cholesky_inverse_call input upper in
     trace st' = trace st ++ (mk <$> seqZ 0 (batchCount input))
     ∧ driver_step_writes mk (batchCount input))
  ∧ (∀ values vectors input compute_eigenvectors st st',
     apply_linalg_eig lapack values vectors input compute_eigenvectors st
       = Returned () st' →
     let q := linalg_eig_query input compute_eigenvectors in
     let mk := linalg_eig_call values input compute_eigenvectors
                 (work_size (work_out (answer lapack q st))) in
     trace st' = trace st ++ q :: (mk <$> seqZ 0 (batchCount input))
     ∧ info_slot q = Some 0
     ∧ driver_step_writes mk (batchCount input))
  ∧ (∀ values vectors upper compute_eigenvectors st st',
     apply_lapack_eigh lapack values vectors upper compute_eigenvectors st
       = Returned () st' →
     let q := lapack_eigh_query vectors upper compute_eigenvectors in
     let a := answer lapack q st in
     let mk := lapack_eigh_call values vectors upper compute_eigenvectors
                 (eigh_lwork a) (eigh_lrwork a) (eigh_liwork a) in
     let statuses := reported_statuses lapack mk (batchCount vectors)
                       (lapack q.1 (data st)).1 in
     ∃ k, 0 ≤ k ≤ Z.max 0 (batchCount vectors)
       ∧ trace st' = trace st ++ q :: (mk <$> seqZ 0 k)
       ∧ info_slot q = Some 0
       ∧ driver_step_writes mk k
       ∧ stops_at_first_failure statuses (batchCount vectors) k (infos st'))
  ∧ (∀ A B upper transpose conjugate_transpose unitriangular st st',
     apply_triangular_solve lapack A B upper transpose conjugate_transpose
       unitriangular st = Returned () st' →
     let mk := triangular_solve_call A B upper transpose conjugate_transpose
                 unitriangular in
     let statuses := reported_statuses lapack mk (batchCount A) (data st) in
     ∃ k, 0 ≤ k ≤ Z.max 0 (batchCount A)
       ∧ trace st' = trace st ++ (mk <$> seqZ 0 k)
       ∧ driver_step_writes mk k
       ∧ stops_at_first_failure statuses (batchCount A) k (infos st')).
Proof.
  split; [|split; [|split]].
  - intros input upper st st' Hrun mk.
    split; [by apply (cholesky_inverse_returned chunking potri)|].
    by apply driver_step_writes_intro.
  - intros values vectors input ce st st' Hrun q mk.
    apply linalg_eig_returned in Hrun.
    split; [done|]. split; [done|]. by apply driver_step_writes_intro.
  - intros values vectors upper ce st st' Hrun q a mk statuses.
    destruct (lapack_eigh_final lapack values vectors upper ce st st')
      as (k & Hk & Htr); [by rewrite Hrun|].
    exists k. split; [done|]. split; [done|]. split; [done|].
    split; [by apply driver_step_writes_intro|].
    apply (lapack_eigh_stops lapack values vectors upper ce st st' k Hrun);
      [lia|done].
  - intros A B upper transpose conjugate_transpose unitriangular st st' Hrun mk
      statuses.
    destruct (triangular_solve_final lapack A B upper transpose
                conjugate_transpose unitriangular st st')
      as (k & Hk & Htr); [by rewrite Hrun|].
    exists k. split; [done|]. split; [done|].
    split; [by apply driver_step_writes_intro|].
    apply (triangular_solve_stops lapack A B upper transpose conjugate_transpose
             unitriangular st st' k Hrun); [lia|done].
Qed.

Lemma status_slot_writes_witness :
  (∃ st',
     apply_cholesky_inverse one_chunk potri_failing [2; 2; 2] true two_matrices
       = Returned () st'
     ∧ trace st' = cholesky_inverse_call [2; 2; 2] true <$> seqZ 0 2
     ∧ driver_step_writes (cholesky_inverse_call [2; 2; 2] true) 2)
  ∧ (∃ st',
     apply_linalg_eig (toy_lapack (9 # 2) status_ok) [2; 2] [2; 2; 2] [2; 2; 2]
       false (fresh_state 2) = Returned () st'
     ∧ trace st' = linalg_eig_query [2; 2; 2] false ::
         (linalg_eig_call [2; 2] [2; 2; 2] false 4 <$> seqZ 0 2)
     ∧ driver_step_writes (linalg_eig_call [2; 2] [2; 2; 2] false 4) 2)
  ∧ (∃ st',
     apply_lapack_eigh (toy_lapack 4 (status_fails_at 4)) [3; 2] [3; 2; 2] true
       true (fresh_state 3) = Returned () st'
     ∧ trace st' = lapack_eigh_query [3; 2; 2] true true ::
         (lapack_eigh_call [3; 2] [3; 2; 2] true true 4 (-1) 1 <$> seqZ 0 2)
     ∧ driver_step_writes (lapack_eigh_call [3; 2] [3; 2; 2] true true 4 (-1) 1) 2)
  ∧ (∃ st',
     apply_triangular_solve (toy_lapack 4 status_ok) [3; 2; 2] [3; 2; 1]
       true false false false (fresh_state 3) = Returned () st'
     ∧ trace st' = triangular_solve_call [3; 2; 2] [3; 2; 1] true false false false
                   <$> seqZ 0 3
     ∧ driver_step_writes
         (triangular_solve_call [3; 2; 2] [3; 2; 1] true false false false) 3).
Proof.
  split; [|split; [|split]].
  - destruct (status_slot_writes (toy_lapack (D := list Q) 4 status_ok)
                potri_failing one_chunk) as (Hchol & _).
    eexists. split; [vm_compute; reflexivity|].
    apply (Hchol [2; 2; 2] true two_matrices). vm_compute. reflexivity.
  - destruct (status_slot_writes (toy_lapack (D := list Q) (9 # 2) status_ok)
                potri_failing one_chunk) as (_ & Heig & _).
    eexists. split; [vm_compute; reflexivity|].
    destruct (Heig [2; 2] [2; 2; 2] [2; 2; 2] false (fresh_state 2) _ eq_refl)
      as (Htr & _ & Hw).
    split; [exact Htr|exact Hw].
  - destruct (status_slot_writes (toy_lapack (D := list Q) 4 (status_fails_at 4))
                potri_failing one_chunk) as (_ & _ & Heigh & _).
    eexists.
    destruct (Heigh [3; 2] [3; 2; 2] true true (fresh_state 3) _ eq_refl)
      as (k & _ & Htr & _ & Hw & Hfirst & _).
    assert (k = 2) as ->.
    { apply (Hfirst 1%nat). split.
      - exists 3. split; [reflexivity|discriminate].
      - intros [|j] Hj; [reflexivity|lia]. }
    split; [vm_compute; reflexivity|]. split; [exact Htr|exact Hw].
  - destruct (status_slot_writes (toy_lapack (D := list Q) 4 status_ok)
                potri_failing one_chunk) as (_ & _ & _ & Htrsm).
    eexists.
    destruct (Htrsm [3; 2; 2] [3; 2; 1] true false false false (fresh_state 3) _
                eq_refl) as (k & _ & Htr & Hw & _ & Hnone & _).
    assert (k = 3) as ->.
    { apply Hnone. repeat constructor. }
    split; [vm_compute; reflexivity|]. split; [exact Htr|exact Hw].
Defined.

(** ** The Cholesky-based inverse over the batch *)

Lemma potri_failing_within_matrix : writes_within_matrix potri_failing.
Proof.
  intros uplo n a lda d. simpl. case_decide as Hg; [|done].
  split; [apply length_insert|].
  intros p Hp. apply load_insert_ne; [lia|nia].
Qed.

(** C10.  The driver of the Cholesky-based inverse makes the call for every
    matrix of the batch, in order, whatever status LAPACK reports (the
    statement holds for every behaviour of LAPACK that respects the bounds
    of the matrix it is given), and when it returns every matrix of the
    batch has been mirrored: its written side is the conjugate of the other
    side. *)
Theorem cholesky_inverse_mirrors_every_matrix {T} `{Scalar T}
    (chunking : Z → Z → list (Z * Z))
    (lapack : request → list T → list T * reply T)
    (input : list Z) (upper : bool) (st : state (list T)) :
  let n := size input (-2) in
  let b := batchCount input in
  let mk := cholesky_inverse_call input upper in
  size input (-1) = n → 0 ≤ n →
  writes_within_matrix lapack →
  (256 ≤ n → row_schedule 0 n (chunking 0 n)) →
  Z.max 0 b * matrixStride input ≤ Z.of_nat (length (data st)) →
  Z.max 0 b ≤ Z.of_nat (length (infos st)) →
  ∃ st',
    apply_cholesky_inverse chunking lapack input upper st = Returned () st'
    ∧ trace st' = trace st ++ (mk <$> seqZ 0 b)
    ∧ driver_step_writes mk b
    ∧ ∀ i, 0 ≤ i < b →
        conj_symmetric (data st') (i * matrixStride input) n (Z.max 1 n) upper.
Proof.
  intros n b mk Hsq Hn0 Hframe Hsched Hdata Hinfos.
  assert (Hms : matrixStride input = n * n).
  { unfold matrixStride. rewrite Hsq. done. }
  destruct (cholesky_inverse_loop chunking lapack input upper (Z.to_nat b) 0 st
              Hms Hn0 Hframe Hsched ltac:(lia) ltac:(lia) ltac:(lia))
    as (st' & Hrun & _ & _ & _ & Hsym).
  exists st'. split; [exact Hrun|].
  split; [by apply (cholesky_inverse_returned chunking lapack)|].
  split; [by apply driver_step_writes_intro|].
  intros i Hi. apply Hsym. lia.
Qed.

Example cholesky_inverse_all_fail :
  apply_cholesky_inverse one_chunk potri_failing [2; 2; 2] true two_matrices
  = Returned ()
      (State [2#1; 3#1; 3#1; 4#1; 2#1; 7#1; 7#1; 8#1]%Q [2; 2]
         [ cholesky_inverse_call [2; 2; 2] true 0;
           cholesky_inverse_call [2; 2; 2] true 1 ]).
Proof. vm_compute. reflexivity. Qed.

Lemma cholesky_inverse_mirrors_every_matrix_witness :
  ∃ st',
    apply_cholesky_inverse one_chunk potri_failing [2; 2; 2] true two_matrices
      = Returned () st'
    ∧ trace st' = trace two_matrices
                  ++ (cholesky_inverse_call [2; 2; 2] true
                        <$> seqZ 0 (batchCount [2; 2; 2]))
    ∧ driver_step_writes (cholesky_inverse_call [2; 2; 2] true)
        (batchCount [2; 2; 2])
    ∧ ∀ i, 0 ≤ i < batchCount [2; 2; 2] →
        conj_symmetric (data st') (i * matrixStride [2; 2; 2])
          (size [2; 2; 2] (-2)) (Z.max 1 (size [2; 2; 2] (-2))) true.
Proof.
  apply (cholesky_inverse_mirrors_every_matrix one_chunk potri_failing
           [2; 2; 2] true two_matrices).
  - reflexivity.
  - vm_compute. discriminate.
  - exact potri_failing_within_matrix.
  - vm_compute. intros Hc. exfalso. apply Hc. reflexivity.
  - vm_compute. discriminate.
  - vm_compute. discriminate.
Defined.

(** * Further properties of the kernels *)

(** ** The symmetrization pass *)

Lemma complex_conj_involutive (z : Q * Q) : conj_impl (conj_impl z) = z.
Proof.
  destruct z as [re [num den]]. unfold conj_impl. simpl. unfold Qopp. simpl.
  by rewrite Z.opp_involutive.
Qed.

Section MirroredMatrix.
Context {T : Type} `{Scalar T}.
Variables (self stride n : Z).
Hypothesis stride_ge_n : n ≤ stride.
Hypothesis conj_involutive : ∀ x : T, conj_impl (conj_impl x) = x.
Implicit Types (buf : list T).

Lemma conj_twice (o : option T) : conj_impl <$> (conj_impl <$> o) = o.
Proof. destruct o as [x|]; simpl; [by rewrite conj_involutive|done]. Qed.

Lemma other_side (upper : bool) i j :
  0 ≤ i < n → 0 ≤ j < n → i ≠ j →
  entry upper n i j ∨ entry upper n j i.
Proof.
  intros Hi Hj Hne. unfold entry, written_side. destruct upper; lia.
Qed.

(** After the pass every off-diagonal pair of entries is a conjugate pair. *)
Lemma pass_conjugate_pairs chunking upper buf buf' :
  matrix_in_buffer buf self n stride →
  (256 ≤ n → row_schedule 0 n (chunking 0 n)) →
  apply_reflect_conj_tri_single chunking buf self n stride upper = Some buf' →
  ∀ i j, 0 ≤ i < n → 0 ≤ j < n → i ≠ j →
    load buf' (cell self stride i j)
    = conj_impl <$> load buf' (cell self stride j i).
Proof.
  intros Hin Hs Hrun.
  destruct (pass_result self stride n upper stride_ge_n chunking buf Hin Hs)
    as (b & Hb & _ & Hw & _).
  assert (b = buf') as -> by congruence.
  assert (Hside : ∀ i j, entry upper n i j →
            load buf' (cell self stride i j)
            = conj_impl <$> load buf' (cell self stride j i)).
  { intros i j He. rewrite (Hw _ _ He). f_equal. symmetry.
    by apply (read_cell_kept self stride n upper stride_ge_n chunking buf). }
  intros i j Hi Hj Hne.
  destruct (other_side upper i j Hi Hj Hne) as [He|He]; [by apply Hside|].
  rewrite (Hside _ _ He). by rewrite conj_twice.
Qed.

(** A buffer whose matrix consists of conjugate pairs is left as it is by
    the pass, whichever side it writes. *)
Lemma pass_keeps_conjugate_pairs chunking upper buf :
  matrix_in_buffer buf self n stride →
  (256 ≤ n → row_schedule 0 n (chunking 0 n)) →
  (∀ i j, 0 ≤ i < n → 0 ≤ j < n → i ≠ j →
     load buf (cell self stride i j)
     = conj_impl <$> load buf (cell self stride j i)) →
  apply_reflect_conj_tri_single chunking buf self n stride upper = Some buf.
Proof.
  intros Hin Hs Hpairs.
  destruct (pass_result self stride n upper stride_ge_n chunking buf Hin Hs)
    as (b & Hb & _ & Hw & Hu).
  rewrite Hb. f_equal. apply buffer_ext. intros p.
  destruct (decide (Exists (λ ij, p = cell self stride ij.1 ij.2)
                      (assignments upper n 0 n))) as [Hex|Hex].
  - apply Exists_exists in Hex as ([i j] & Hij & ->). simpl.
    apply entry_assignments in Hij. rewrite (Hw _ _ Hij).
    destruct Hij as (Hi & Hj & Hside). symmetry. apply Hpairs; [done..|].
    intros ->. unfold written_side in Hside. destruct upper; lia.
  - apply Hu. intros i j He ->. apply Hex, Exists_exists.
    exists (i, j). split; [by apply entry_assignments|done].
Qed.
End MirroredMatrix.

(** X1.  When conjugation is an involution (as it is for the real and the
    complex element types), the matrix the pass leaves behind has
    [M[i,j] = conj(M[j,i])] for every pair of distinct indices, on both
    sides of the diagonal. *)
Theorem reflect_result_conjugate_pairs {T} `{Scalar T}
    (chunking : Z → Z → list (Z * Z)) (buf : list T) (self n stride : Z)
    (upper : bool) :
  (∀ x : T, conj_impl (conj_impl x) = x) →
  n ≤ stride →
  matrix_in_buffer buf self n stride →
  (256 ≤ n → row_schedule 0 n (chunking 0 n)) →
  ∃ buf',
    apply_reflect_conj_tri_single chunking buf self n stride upper = Some buf'
    ∧ ∀ i j, 0 ≤ i < n → 0 ≤ j < n → i ≠ j →
        load buf' (cell self stride i j)
        = conj_impl <$> load buf' (cell self stride j i).
Proof.
  intros Hinv Hst Hin Hs.
  destruct (pass_result self stride n upper Hst chunking buf Hin Hs)
    as (buf' & Hrun & _).
  exists buf'. split; [done|].
  by apply (pass_conjugate_pairs self stride n Hst Hinv chunking upper buf).
Qed.

Lemma reflect_result_conjugate_pairs_witness :
  ∃ buf',
    apply_reflect_conj_tri_single one_chunk demo2c 0 2 2 true = Some buf'
    ∧ ∀ i j, 0 ≤ i < 2 → 0 ≤ j < 2 → i ≠ j →
        load buf' (cell 0 2 i j) = conj_impl <$> load buf' (cell 0 2 j i).
Proof.
  apply (reflect_result_conjugate_pairs one_chunk demo2c 0 2 2 true).
  - exact complex_conj_involutive.
  - lia.
  - split; simpl; lia.
  - lia.
Defined.

(** X2.  When conjugation is an involution, a pass over the result of a
    pass changes nothing, also when the second pass writes the other side:
    mirroring upper-from-lower and then lower-from-upper gives what the
    first pass alone gives. *)
Theorem reflect_then_reflect_other_side {T} `{Scalar T}
    (chunking : Z → Z → list (Z * Z)) (buf : list T) (self n stride : Z)
    (upper upper' : bool) :
  (∀ x : T, conj_impl (conj_impl x) = x) →
  n ≤ stride →
  matrix_in_buffer buf self n stride →
  (256 ≤ n → row_schedule 0 n (chunking 0 n)) →
  ∃ once,
    apply_reflect_conj_tri_single chunking buf self n stride upper = Some once
    ∧ apply_reflect_conj_tri_single chunking once self n stride upper'
      = Some once.
Proof.
  intros Hinv Hst Hin Hs.
  destruct (pass_result self stride n upper Hst chunking buf Hin Hs)
    as (once & Hrun & Hlen & _).
  exists once. split; [done|].
  apply (pass_keeps_conjugate_pairs self stride n Hst chunking upper' once).
  - unfold matrix_in_buffer in *. by rewrite Hlen.
  - done.
  - by apply (pass_conjugate_pairs self stride n Hst Hinv chunking upper buf).
Qed.

Lemma reflect_then_reflect_other_side_witness :
  ∃ once,
    apply_reflect_conj_tri_single one_chunk demo2c 0 2 2 true = Some once
    ∧ apply_reflect_conj_tri_single one_chunk once 0 2 2 false = Some once.
Proof.
  apply (reflect_then_reflect_other_side one_chunk demo2c 0 2 2 true false).
  - exact complex_conj_involutive.
  - lia.
  - split; simpl; lia.
  - lia.
Defined.

(** X3.  On a matrix with at most one row the pass makes no access at all:
    it returns the buffer unchanged whatever the pointer, the leading
    dimension and the size of the buffer are. *)
Theorem reflect_trivial_matrix {T} `{Scalar T}
    (chunking : Z → Z → list (Z * Z)) (buf : list T) (self n stride : Z)
    (upper : bool) :
  n ≤ 1 →
  apply_reflect_conj_tri_single chunking buf self n stride upper = Some buf.
Proof.
  intros Hn. unfold apply_reflect_conj_tri_single.
  rewrite decide_True by lia. rewrite loop_assignments.
  assert (assignments upper n 0 n = []) as ->; [|done].
  apply elem_of_nil_inv. intros [i j] Hin.
  apply elem_of_assignments in Hin. destruct upper; lia.
Qed.

Lemma reflect_trivial_matrix_witness :
  apply_reflect_conj_tri_single one_chunk ([] : list Q) 7 1 1 true = Some [].
Proof.
  apply (reflect_trivial_matrix one_chunk ([] : list Q) 7 1 1 true). lia.
Defined.

(** ** Workspace sizes and size queries *)

Lemma size_queries_query_calls (q : event) (mk : Z → event) (l : list Z) :
  is_size_query q = true →
  (∀ i, is_size_query (mk i) = false) →
  size_queries (q :: (mk <$> l)) = [q] ∧ matrix_calls (q :: (mk <$> l)) = mk <$> l.
Proof.
  intros Hq Hmk. unfold size_queries, matrix_calls.
  rewrite filter_cons_True by done.
  rewrite filter_cons_False by (rewrite Hq; done).
  split.
  - f_equal. apply elem_of_nil_inv. intros e [He Hin]%list_elem_of_filter.
    apply list_elem_of_fmap in Hin as (i & -> & _). by rewrite Hmk in He.
  - induction l as [|x l IH]; [done|]. rewrite fmap_cons.
    rewrite filter_cons_True by apply Hmk. by rewrite IH.
Qed.

Lemma size_queries_calls (mk : Z → event) (l : list Z) :
  (∀ i, is_size_query (mk i) = false) → size_queries (mk <$> l) = [].
Proof.
  intros Hmk. unfold size_queries.
  apply elem_of_nil_inv. intros e [He Hin]%list_elem_of_filter.
  apply list_elem_of_fmap in Hin as (i & -> & _). by rewrite Hmk in He.
Qed.

Lemma not_query_lwork (r : request) (d : info_dest) (w : Z) :
  lwork_of r = Some w → 1 ≤ w → is_size_query (r, d) = false.
Proof.
  intros Hl Hw. unfold is_size_query. simpl. rewrite Hl.
  apply bool_decide_eq_false. lia.
Qed.

(** X4.  Whatever hint LAPACK returns (zero or negative included), no
    per-matrix call is given a workspace smaller than 1; the QR reflectors
    are never given one smaller than the column count; and the symmetric
    eigendecomposition passes an integer workspace of at least 1 and a real
    workspace of at least 1 for complex element types, and [-1] (none) for
    real ones. *)
Theorem workspace_sizes_at_least_one {T} `{Scalar T} {D}
    (lapack : request → D → D * reply T) (debug : bool) (st : state D) :
  (∀ values vectors input compute_eigenvectors st',
     final_state (apply_linalg_eig lapack values vectors input
                    compute_eigenvectors st) = Some st' →
     ∃ k w, 1 ≤ w
       ∧ trace st' = trace st ++ linalg_eig_query input compute_eigenvectors ::
           (linalg_eig_call values input compute_eigenvectors w <$> seqZ 0 k))
  ∧ (∀ values vectors upper compute_eigenvectors st',
     final_state (apply_lapack_eigh lapack values vectors upper
                    compute_eigenvectors st) = Some st' →
     ∃ k w lrw liw, 1 ≤ w ∧ 1 ≤ liw
       ∧ (if is_complex then 1 ≤ lrw else lrw = -1)
       ∧ trace st' = trace st
           ++ lapack_eigh_query vectors upper compute_eigenvectors ::
           (lapack_eigh_call values vectors upper compute_eigenvectors w lrw liw
            <$> seqZ 0 k))
  ∧ (∀ self tau n_columns st',
     final_state (apply_orgqr lapack debug self tau n_columns st) = Some st' →
     trace st' = trace st
     ∨ ∃ k w, 1 ≤ w
         ∧ trace st' = trace st ++ orgqr_query self tau n_columns ::
             (orgqr_call self tau n_columns w <$> seqZ 0 k))
  ∧ (∀ input tau m n st',
     final_state (apply_geqrf lapack debug input tau m n st) = Some st' →
     ∃ k w, 1 ≤ w ∧ int_of_int64 n ≤ w
       ∧ trace st' = trace st ++ geqrf_query m n ::
           (geqrf_call input tau m n w <$> seqZ 0 k)).
Proof.
  split; [|split; [|split]].
  - intros values vectors input ce st' Hf.
    apply linalg_eig_final in Hf as (k & _ & Htr).
    eexists k, _. split; [|exact Htr]. lia.
  - intros values vectors upper ce st' Hf.
    apply lapack_eigh_final in Hf as (k & _ & Htr).
    eexists k, _, _, _. split; [|split; [|split; [|exact Htr]]].
    + unfold eigh_lwork. lia.
    + unfold eigh_liwork. lia.
    + unfold eigh_lrwork. destruct is_complex; lia.
  - intros self tau n_columns st' Hf.
    apply orgqr_final in Hf as [Htr|(k & _ & Htr)]; [by left|right].
    eexists k, _. split; [|exact Htr]. lia.
  - intros input tau m n st' Hf.
    apply geqrf_final in Hf as (k & _ & Htr).
    eexists k, _. split; [|split; [|exact Htr]]; lia.
Qed.

Lemma workspace_sizes_at_least_one_witness :
  (∃ st' k w lrw liw, 1 ≤ w ∧ 1 ≤ liw ∧ lrw = -1
     ∧ final_state (apply_lapack_eigh (toy_lapack (-5 # 1) status_ok) [2; 2]
                      [2; 2; 2] true true (fresh_state 2)) = Some st'
     ∧ trace st' = lapack_eigh_query [2; 2; 2] true true ::
         (lapack_eigh_call [2; 2] [2; 2; 2] true true w lrw liw <$> seqZ 0 k))
  ∧ (∃ st' k w, 3 ≤ w
     ∧ final_state (apply_geqrf (toy_lapack (0 # 1) status_ok) false [2; 3; 3]
                      [2; 3] 3 3 (fresh_state 0)) = Some st'
     ∧ trace st' = geqrf_query 3 3 ::
         (geqrf_call [2; 3; 3] [2; 3] 3 3 w <$> seqZ 0 k)).
Proof.
  split.
  - destruct (workspace_sizes_at_least_one (toy_lapack (-5 # 1) status_ok) false
                (fresh_state 2)) as (_ & Heigh & _).
    eexists.
    destruct (Heigh [2; 2] [2; 2; 2] true true _ eq_refl)
      as (k & w & lrw & liw & Hw & Hliw & Hlrw & Htr).
    exists k, w, lrw, liw. split; [exact Hw|]. split; [exact Hliw|].
    split; [exact Hlrw|]. split; [reflexivity|exact Htr].
  - destruct (workspace_sizes_at_least_one (toy_lapack (0 # 1) status_ok) false
                (fresh_state 0)) as (_ & _ & _ & Hgeqrf).
    eexists.
    destruct (Hgeqrf [2; 3; 3] [2; 3] 3 3 _ eq_refl) as (k & w & _ & Hw & Htr).
    exists k, w. split; [exact Hw|]. split; [reflexivity|exact Htr].
Defined.

(** X5.  However large the batch is, and however the run ends, the general
    and the symmetric eigendecomposition and the QR reflectors make exactly
    one size query, and it is their first call; the orthogonal
    reconstruction makes either no call at all or exactly one size query
    first; the triangular solve and the Cholesky-based inverse never make a
    size query. *)
Theorem one_size_query_per_call {T} `{Scalar T} {D}
    (lapack : request → D → D * reply T)
    (potri : request → list T → list T * reply T)
    (chunking : Z → Z → list (Z * Z)) (debug : bool) :
  (∀ values vectors input compute_eigenvectors st st',
     final_state (apply_linalg_eig lapack values vectors input
                    compute_eigenvectors st) = Some st' →
     ∃ evs, trace st' = trace st ++ evs
       ∧ evs !! 0%nat = Some (linalg_eig_query input compute_eigenvectors)
       ∧ size_queries evs = [linalg_eig_query input compute_eigenvectors])
  ∧ (∀ values vectors upper compute_eigenvectors st st',
     final_state (apply_lapack_eigh lapack values vectors upper
                    compute_eigenvectors st) = Some st' →
     ∃ evs, trace st' = trace st ++ evs
       ∧ evs !! 0%nat = Some (lapack_eigh_query vectors upper compute_eigenvectors)
       ∧ size_queries evs = [lapack_eigh_query vectors upper compute_eigenvectors])
  ∧ (∀ input tau m n st st',
     final_state (apply_geqrf lapack debug input tau m n st) = Some st' →
     ∃ evs, trace st' = trace st ++ evs
       ∧ evs !! 0%nat = Some (geqrf_query m n)
       ∧ size_queries evs = [geqrf_query m n])
  ∧ (∀ self tau n_columns st st',
     final_state (apply_orgqr lapack debug self tau n_columns st) = Some st' →
     trace st' = trace st
     ∨ ∃ evs, trace st' = trace st ++ evs
         ∧ evs !! 0%nat = Some (orgqr_query self tau n_columns)
         ∧ size_queries evs = [orgqr_query self tau n_columns])
  ∧ (∀ A B upper transpose conjugate_transpose unitriangular st st',
     final_state (apply_triangular_solve lapack A B upper transpose
                    conjugate_transpose unitriangular st) = Some st' →
     ∃ evs, trace st' = trace st ++ evs ∧ size_queries evs = [])
  ∧ (∀ input upper st st',
     final_state (apply_cholesky_inverse chunking potri input upper st)
       = Some st' →
     ∃ evs, trace st' = trace st ++ evs ∧ size_queries evs = []).
Proof.
  split; [|split; [|split; [|split; [|split]]]].
  - intros values vectors input ce st st' Hf.
    apply linalg_eig_final in Hf as (k & _ & Htr).
    eexists. split; [exact Htr|]. split; [done|].
    apply size_queries_query_calls; [done|]. intros i.
    eapply not_query_lwork; [done|lia].
  - intros values vectors upper ce st st' Hf.
    apply lapack_eigh_final in Hf as (k & _ & Htr).
    eexists. split; [exact Htr|]. split; [done|].
    apply size_queries_query_calls; [done|]. intros i.
    eapply not_query_lwork; [done|unfold eigh_lwork; lia].
  - intros input tau m n st st' Hf.
    apply geqrf_final in Hf as (k & _ & Htr).
    eexists. split; [exact Htr|]. split; [done|].
    apply size_queries_query_calls; [done|]. intros i.
    eapply not_query_lwork; [done|lia].
  - intros self tau n_columns st st' Hf.
    apply orgqr_final in Hf as [Htr|(k & _ & Htr)]; [by left|right].
    eexists. split; [exact Htr|]. split; [done|].
    apply size_queries_query_calls; [done|]. intros i.
    eapply not_query_lwork; [done|lia].
  - intros A B upper transpose conjugate_transpose unitriangular st st' Hf.
    apply triangular_solve_final in Hf as (k & _ & Htr).
    eexists. split; [exact Htr|]. by apply size_queries_calls.
  - intros input upper st st' Hf.
    apply cholesky_inverse_final in Hf as (k & _ & Htr).
    eexists. split; [exact Htr|]. by apply size_queries_calls.
Qed.

Lemma one_size_query_per_call_witness :
  (∃ st' evs,
     final_state (apply_linalg_eig (toy_lapack 4 status_ok) [3; 2] [3; 2; 2]
                    [3; 2; 2] true (fresh_state 3)) = Some st'
     ∧ trace st' = trace (fresh_state 3) ++ evs
     ∧ length evs = 4%nat
     ∧ size_queries evs = [linalg_eig_query [3; 2; 2] true])
  ∧ (∃ st' evs,
     final_state (apply_geqrf (toy_lapack 4 status_ok) true [3; 2; 2] [3; 2] 2 2
                    (fresh_state 0)) = Some st'
     ∧ trace st' = trace (fresh_state 0) ++ evs
     ∧ length evs = 4%nat
     ∧ size_queries evs = [geqrf_query 2 2])
  ∧ (∃ st' evs,
     final_state (apply_triangular_solve (toy_lapack 4 status_ok) [3; 2; 2]
                    [3; 2; 1] true false false false (fresh_state 3)) = Some st'
     ∧ trace st' = trace (fresh_state 3) ++ evs
     ∧ length evs = 3%nat
     ∧ size_queries evs = []).
Proof.
  destruct (one_size_query_per_call (toy_lapack (D := list Q) 4 status_ok)
              potri_failing one_chunk true)
    as (Heig & _ & Hgeqrf & _ & Htrsm & _).
  split; [|split].
  - eexists.
    destruct (Heig [3; 2] [3; 2; 2] [3; 2; 2] true (fresh_state 3) _ eq_refl)
      as (evs & Htr & _ & Hq).
    exists evs. split; [reflexivity|]. split; [exact Htr|]. split; [|exact Hq].
    vm_compute in Htr. by subst evs.
  - eexists.
    destruct (Hgeqrf [3; 2; 2] [3; 2] 2 2 (fresh_state 0) _ eq_refl)
      as (evs & Htr & _ & Hq).
    exists evs. split; [reflexivity|]. split; [exact Htr|]. split; [|exact Hq].
    vm_compute in Htr. by subst evs.
  - eexists.
    destruct (Htrsm [3; 2; 2] [3; 2; 1] true false false false (fresh_state 3)
                _ eq_refl) as (evs & Htr & Hq).
    exists evs. split; [reflexivity|]. split; [exact Htr|]. split; [|exact Hq].
    vm_compute in Htr. by subst evs.
Defined.

(** ** Driver loops without early exit *)

Lemma store_out_of_range {T} (buf : list T) (p : Z) (v : T) :
  ¬ in_bounds buf p → store buf p v = None.
Proof. intros Hb. unfold store. by rewrite decide_False. Qed.

Section PlainLoops.
Context {T : Type} {D : Type}.
Variable lapack : request → D → D * reply T.
Implicit Types (st : state D).

Lemma slot_loop_returns (mk : Z → request) (count : nat) (i0 : Z) st :
  0 ≤ i0 →
  i0 + Z.of_nat count ≤ Z.of_nat (length (infos st)) →
  ∃ st',
    batch_loop count i0
      (λ i, _ ← call lapack (mk i) (InfoSlot i); mret false) st = Returned () st'
    ∧ trace st' = trace st
                  ++ ((λ i, (mk i, InfoSlot i)) <$> seqZ i0 (Z.of_nat count))
    ∧ length (infos st') = length (infos st)
    ∧ ∀ j, ¬ (i0 ≤ j < i0 + Z.of_nat count) →
        load (infos st') j = load (infos st) j.
Proof.
  revert i0 st. induction count as [|c IH]; intros i0 st Hi0 Hlen.
  - exists st. simpl. split; [done|]. split; [by rewrite app_nil_r|done].
  - assert (Hb : in_bounds (infos st) i0) by (unfold in_bounds; lia).
    simpl. unfold_kernel. rewrite (call_slot lapack _ _ _ Hb).
    set (s1 := State _ _ _).
    destruct (IH (i0 + 1) s1 ltac:(lia)) as (st' & Hrun & Htr & Hl & Hkeep).
    { subst s1. simpl. rewrite length_insert. lia. }
    exists st'. split; [exact Hrun|]. split.
    { rewrite Htr. subst s1. simpl. rewrite <-app_assoc. f_equal.
      rewrite (seqZ_cons i0) by lia. simpl. do 3 f_equal; lia. }
    split; [rewrite Hl; subst s1; simpl; apply length_insert|].
    intros j Hj. rewrite Hkeep by lia. subst s1. simpl.
    apply load_insert_ne; lia.
Qed.

Lemma call_slot_undefined r i st :
  ¬ in_bounds (infos st) i → call lapack r (InfoSlot i) st = Undefined.
Proof. intros Hb. unfold call. by rewrite store_out_of_range. Qed.

Lemma slot_loop_undefined (mk : Z → request) (count : nat) (i0 : Z) st :
  0 ≤ i0 ≤ Z.of_nat (length (infos st)) →
  Z.of_nat (length (infos st)) < i0 + Z.of_nat count →
  batch_loop count i0
    (λ i, _ ← call lapack (mk i) (InfoSlot i); mret false) st = Undefined.
Proof.
  revert i0 st. induction count as [|c IH]; intros i0 st Hi0 Hlen; [lia|].
  simpl. unfold_kernel.
  destruct (decide (i0 < Z.of_nat (length (infos st)))) as [Hlt|Hge].
  - assert (Hb : in_bounds (infos st) i0) by (unfold in_bounds; lia).
    rewrite (call_slot lapack _ _ _ Hb).
    apply IH; simpl; rewrite length_insert; lia.
  - rewrite call_slot_undefined; [done|]. unfold in_bounds. lia.
Qed.

(** Loops whose calls report to a local variable, checked only by a debug
    assertion. *)
Lemma local_loop (mk : Z → request) (debug : bool) (count : nat) (i0 : Z) st :
  ∃ st',
    final_state
      (batch_loop count i0
         (λ i, r ← call lapack (mk i) InfoLocal;
               _ ← TORCH_INTERNAL_ASSERT_DEBUG_ONLY debug
                     (bool_decide (info_out r = 0));
               mret false) st) = Some st'
    ∧ infos st' = infos st
    ∧ (debug = false →
       batch_loop count i0
         (λ i, r ← call lapack (mk i) InfoLocal;
               _ ← TORCH_INTERNAL_ASSERT_DEBUG_ONLY debug
                     (bool_decide (info_out r = 0));
               mret false) st = Returned () st'
       ∧ trace st' = trace st
                     ++ ((λ i, (mk i, InfoLocal)) <$> seqZ i0 (Z.of_nat count))).
Proof.
  revert i0 st. induction count as [|c IH]; intros i0 st.
  - exists st. simpl. split; [done|]. split; [done|]. intros _.
    split; [done|by rewrite app_nil_r].
  - simpl. unfold_kernel. rewrite call_local.
    set (s1 := State _ _ _).
    destruct (IH (i0 + 1) s1) as (st' & Hf & Hi & Hrel).
    destruct debug.
    + destruct (bool_decide _).
      * exists st'. split; [exact Hf|]. split; [done|]. intros [=].
      * exists s1. simpl. split; [done|]. split; [done|]. intros [=].
    + exists st'. split; [exact Hf|]. split; [done|]. intros _.
      destruct (Hrel eq_refl) as [Hrun Htr]. split; [exact Hrun|].
      rewrite Htr. subst s1. simpl. rewrite <-app_assoc. f_equal.
      rewrite (seqZ_cons i0) by lia. simpl. do 3 f_equal; lia.
Qed.
End PlainLoops.

(** X6.  The general eigendecomposition has no early exit and needs a
    status vector of [max(1, batch_size)] slots.  With that many slots it
    returns after the size query and the call for every matrix of the
    batch, whatever statuses LAPACK reports, keeping the length of the
    status vector and the slots from [max(1, batch_size)] on; with fewer it
    writes outside of the status vector. *)
Theorem linalg_eig_status_vector {T} `{Scalar T} {D}
    (lapack : request → D → D * reply T)
    (values vectors input : list Z) (compute_eigenvectors : bool) (st : state D) :
  let q := linalg_eig_query input compute_eigenvectors in
  let mk := linalg_eig_call values input compute_eigenvectors
              (work_size (work_out (answer lapack q st))) in
  (Z.max 1 (batchCount input) ≤ Z.of_nat (length (infos st)) →
   ∃ st',
     apply_linalg_eig lapack values vectors input compute_eigenvectors st
       = Returned () st'
     ∧ trace st' = trace st ++ q :: (mk <$> seqZ 0 (batchCount input))
     ∧ length (infos st') = length (infos st)
     ∧ ∀ j, Z.max 1 (batchCount input) ≤ j →
         load (infos st') j = load (infos st) j)
  ∧ (Z.of_nat (length (infos st)) < Z.max 1 (batchCount input) →
     apply_linalg_eig lapack values vectors input compute_eigenvectors st
       = Undefined).
Proof.
  intros q mk. split.
  - intros Hlen.
    assert (Hb : in_bounds (infos st) 0) by (unfold in_bounds; lia).
    unfold apply_linalg_eig. unfold_kernel. rewrite (call_slot lapack _ _ _ Hb).
    set (s1 := State _ _ _). unfold irange.
    destruct (slot_loop_returns lapack
                (λ i, (linalg_eig_call values input compute_eigenvectors
                         (Z.max 1 (int_of_value (T := T) (real_impl
                            (work_out (answer lapack q st))))) i).1)
                (Z.to_nat (batchCount input)) 0 s1 ltac:(lia))
      as (st' & Hrun & Htr & Hl & Hkeep).
    { subst s1. simpl. rewrite length_insert. lia. }
    exists st'. split; [exact Hrun|]. split; [|split].
    + rewrite Htr. subst s1 mk. simpl. by rewrite <-app_assoc, seqZ_to_nat.
    + rewrite Hl. subst s1. simpl. apply length_insert.
    + intros j Hj. rewrite Hkeep by lia. subst s1. simpl.
      apply (load_insert_ne _ 0); lia.
  - intros Hlen. unfold apply_linalg_eig. unfold_kernel.
    destruct (decide (in_bounds (infos st) 0)) as [Hb|Hb].
    + rewrite (call_slot lapack _ _ _ Hb). unfold irange.
      unfold in_bounds in Hb.
      apply slot_loop_undefined; simpl; rewrite length_insert; lia.
    + by rewrite call_slot_undefined.
Qed.

Lemma linalg_eig_status_vector_witness :
  (∃ st',
     apply_linalg_eig (toy_lapack 4 (status_fails_at 0)) [3; 2] [3; 2; 2]
       [3; 2; 2] true (fresh_state 4) = Returned () st'
     ∧ trace st' = linalg_eig_query [3; 2; 2] true ::
         (linalg_eig_call [3; 2] [3; 2; 2] true 4 <$> seqZ 0 3)
     ∧ infos st' = [3; 0; 0; -1])
  ∧ apply_linalg_eig (toy_lapack 4 status_ok) [3; 2] [3; 2; 2] [3; 2; 2] true
      (fresh_state 2) = Undefined
  ∧ apply_linalg_eig (toy_lapack 4 status_ok) [0; 2] [0; 2; 2] [0; 2; 2] true
      (fresh_state 0) = Undefined.
Proof.
  split; [|split].
  - destruct (linalg_eig_status_vector (toy_lapack 4 (status_fails_at 0))
                [3; 2] [3; 2; 2] [3; 2; 2] true (fresh_state 4)) as [Hok _].
    destruct Hok as (st' & Hrun & Htr & _); [vm_compute; discriminate|].
    exists st'. split; [exact Hrun|]. split; [exact Htr|].
    vm_compute in Hrun. by injection Hrun as <-.
  - apply (linalg_eig_status_vector (toy_lapack 4 status_ok)
             [3; 2] [3; 2; 2] [3; 2; 2] true (fresh_state 2)).
    vm_compute. reflexivity.
  - apply (linalg_eig_status_vector (toy_lapack 4 status_ok)
             [0; 2] [0; 2; 2] [0; 2; 2] true (fresh_state 0)).
    vm_compute. reflexivity.
Defined.

(** ** The QR kernels and the status vector *)

(** X7.  The QR reflectors and the orthogonal reconstruction keep LAPACK's
    status in a local variable: they never read or write outside of a
    buffer themselves, and however they end the status vector is what it
    was. *)
Theorem qr_kernels_keep_status_vector {T} `{Scalar T} {D}
    (lapack : request → D → D * reply T) (debug : bool) (st : state D) :
  (∀ input tau m n,
     ∃ st', final_state (apply_geqrf lapack debug input tau m n st) = Some st'
            ∧ infos st' = infos st)
  ∧ (∀ self tau n_columns,
     ∃ st', final_state (apply_orgqr lapack debug self tau n_columns st) = Some st'
            ∧ infos st' = infos st).
Proof.
  split.
  - intros input tau m n. unfold apply_geqrf. unfold_kernel. rewrite call_local.
    set (s1 := State _ _ _). unfold irange.
    destruct (local_loop lapack
                (λ i, (geqrf_call input tau m n
                         (Z.max (Z.max 1 (int_of_int64 n))
                            (int_of_value (T := T) (real_impl
                               (work_out (lapack (geqrf_query m n).1 (data st)).2))))
                         i).1)
                debug (Z.to_nat (batchCount input)) 0 s1) as (st' & Hf & Hi & _).
    destruct debug.
    + destruct (bool_decide _).
      * exists st'. split; [exact Hf|done].
      * exists s1. done.
    + exists st'. split; [exact Hf|done].
  - intros self tau n_columns. unfold apply_orgqr.
    case_decide; [by exists st|]. unfold_kernel.
    destruct (size self (-2) >=? n_columns); [|by exists st].
    destruct (n_columns >=? size tau (-1)); [|by exists st].
    rewrite call_local. set (s1 := State _ _ _). unfold irange.
    destruct (local_loop lapack
                (λ i, (orgqr_call self tau n_columns
                         (Z.max 1 (int_of_value (T := T) (real_impl
                            (work_out (lapack (orgqr_query self tau n_columns).1
                                         (data st)).2))))
                         i).1)
                debug (Z.to_nat (batchCount self)) 0 s1) as (st' & Hf & Hi & _).
    destruct debug.
    + destruct (bool_decide _).
      * exists st'. split; [exact Hf|done].
      * exists s1. done.
    + exists st'. split; [exact Hf|done].
Qed.

(** X8.  In a build without debug assertions the QR reflectors drop every
    status LAPACK reports: the kernel returns normally after the size query
    and the call for every matrix of the batch, in order, each with the
    workspace size the kernel computed from the hint; so does the orthogonal
    reconstruction on a non-empty input that meets LAPACK's requirement
    [m >= n_columns >= k]. *)
Theorem qr_kernels_release_ignore_statuses {T} `{Scalar T} {D}
    (lapack : request → D → D * reply T) (st : state D) :
  (∀ input tau m n,
     let q := geqrf_query m n in
     let w := geqrf_work_size n (work_out (answer lapack q st)) in
     ∃ st',
       apply_geqrf lapack false input tau m n st = Returned () st'
       ∧ trace st' = trace st ++ q ::
           (geqrf_call input tau m n w <$> seqZ 0 (batchCount input))
       ∧ infos st' = infos st)
  ∧ (∀ self tau n_columns,
     numel self ≠ 0 →
     n_columns ≤ size self (-2) → size tau (-1) ≤ n_columns →
     let q := orgqr_query self tau n_columns in
     let w := work_size (work_out (answer lapack q st)) in
     ∃ st',
       apply_orgqr lapack false self tau n_columns st = Returned () st'
       ∧ trace st' = trace st ++ q ::
           (orgqr_call self tau n_columns w <$> seqZ 0 (batchCount self))
       ∧ infos st' = infos st).
Proof.
  split.
  - intros input tau m n q w. unfold apply_geqrf. unfold_kernel.
    rewrite call_local. set (s1 := State _ _ _). unfold irange.
    destruct (local_loop lapack
                (λ i, (geqrf_call input tau m n
                         (Z.max (Z.max 1 (int_of_int64 n))
                            (int_of_value (T := T) (real_impl
                               (work_out (lapack (geqrf_query m n).1 (data st)).2))))
                         i).1)
                false (Z.to_nat (batchCount input)) 0 s1) as (st' & _ & Hi & Hrel).
    destruct (Hrel eq_refl) as [Hrun Htr].
    exists st'. split; [exact Hrun|]. split; [|done].
    rewrite Htr. subst s1 w q. simpl. by rewrite <-app_assoc, seqZ_to_nat.
  - intros self tau n_columns Hnumel Hm Hk q w. unfold apply_orgqr.
    rewrite decide_False by done. unfold_kernel.
    rewrite (proj2 (Z.geb_le _ _) Hm), (proj2 (Z.geb_le _ _) Hk).
    rewrite call_local. set (s1 := State _ _ _). unfold irange.
    destruct (local_loop lapack
                (λ i, (orgqr_call self tau n_columns
                         (Z.max 1 (int_of_value (T := T) (real_impl
                            (work_out (lapack (orgqr_query self tau n_columns).1
                                         (data st)).2))))
                         i).1)
                false (Z.to_nat (batchCount self)) 0 s1) as (st' & _ & Hi & Hrel).
    destruct (Hrel eq_refl) as [Hrun Htr].
    exists st'. split; [exact Hrun|]. split; [|done].
    rewrite Htr. subst s1 w q. simpl. by rewrite <-app_assoc, seqZ_to_nat.
Qed.

Lemma qr_kernels_release_ignore_statuses_witness :
  ∃ st',
    apply_orgqr (toy_lapack 4 (status_fails_at 0)) false [2; 2; 2] [2; 2] 2
      (fresh_state 1) = Returned () st'
    ∧ trace st' = orgqr_query [2; 2; 2] [2; 2] 2 ::
        (orgqr_call [2; 2; 2] [2; 2] 2 4 <$> seqZ 0 2)
    ∧ infos st' = [-1].
Proof.
  destruct (qr_kernels_release_ignore_statuses
              (toy_lapack 4 (status_fails_at 0)) (fresh_state 1)) as [_ Horgqr].
  apply (Horgqr [2; 2; 2] [2; 2] 2).
  - vm_compute. discriminate.
  - vm_compute. discriminate.
  - vm_compute. discriminate.
Defined.

(** X9.  On a non-empty input that violates LAPACK's requirement
    [m >= n_columns >= k], the orthogonal reconstruction stops on an
    internal assertion in every build, before any call to LAPACK and with
    every buffer unchanged. *)
Theorem orgqr_requirement_violated {T} `{Scalar T} {D}
    (lapack : request → D → D * reply T) (debug : bool)
    (self tau : list Z) (n_columns : Z) (st : state D) :
  numel self ≠ 0 →
  size self (-2) < n_columns ∨ n_columns < size tau (-1) →
  apply_orgqr lapack debug self tau n_columns st = AssertionFailure st.
Proof.
  intros Hnumel Hreq. unfold apply_orgqr. rewrite decide_False by done.
  unfold_kernel.
  destruct (size self (-2) >=? n_columns) eqn:Hm; [|done].
  destruct (n_columns >=? size tau (-1)) eqn:Hk; [|done].
  apply Z.geb_le in Hm, Hk. lia.
Qed.

Lemma orgqr_requirement_violated_witness :
  apply_orgqr (toy_lapack 4 status_ok) false [1; 2; 3] [1; 3] 3 (fresh_state 1)
  = AssertionFailure (fresh_state 1).
Proof.
  apply (orgqr_requirement_violated (toy_lapack 4 status_ok) false
           [1; 2; 3] [1; 3] 3 (fresh_state 1)).
  - vm_compute. discriminate.
  - left. vm_compute. reflexivity.
Defined.

(** ** What the Cholesky-based inverse leaves alone *)

Section CholeskyFrame.
Context {T : Type} `{Scalar T}.
Variable chunking : Z → Z → list (Z * Z).
Variable lapack : request → list T → list T * reply T.
Variables (input : list Z) (upper : bool).
Implicit Types (st : state (list T)).

Lemma cholesky_inverse_loop_frame (count : nat) (i0 : Z) st :
  let n := size input (-2) in
  let ms := matrixStride input in
  ms = n * n → 0 ≤ n →
  writes_within_matrix lapack →
  (256 ≤ n → row_schedule 0 n (chunking 0 n)) →
  0 ≤ i0 →
  (i0 + Z.of_nat count) * ms ≤ Z.of_nat (length (data st)) →
  i0 + Z.of_nat count ≤ Z.of_nat (length (infos st)) →
  ∃ st',
    batch_loop count i0
      (λ i,
         _ ← call lapack (cholesky_inverse_call input upper i).1 (InfoSlot i);
         _ ← reflect_conj_tri chunking (i * matrixStride input)
               (size input (-2)) (Z.max 1 (size input (-2))) upper;
         mret false) st = Returned () st'
    ∧ length (data st') = length (data st)
    ∧ length (infos st') = length (infos st)
    ∧ (∀ p, ¬ (i0 * ms ≤ p < (i0 + Z.of_nat count) * ms) →
         load (data st') p = load (data st) p)
    ∧ (∀ j, ¬ (i0 ≤ j < i0 + Z.of_nat count) →
         load (infos st') j = load (infos st) j).
Proof.
  intros n ms Hms Hn0 Hframe Hsched. revert i0 st.
  induction count as [|c IH]; intros i0 st Hi0 Hdata Hinfos.
  - exists st. simpl. done.
  - assert (Hb : in_bounds (infos st) i0) by (unfold in_bounds; lia).
    simpl. unfold_kernel. rewrite (call_slot lapack _ _ _ Hb).
    simpl. fold n ms.
    set (a := i0 * ms). set (lda := Z.max 1 n).
    destruct (Hframe (if upper then "U"%char else "L"%char) n a lda (data st))
      as [Hlen1 Hkeep1].
    set (d1 := (lapack _ (data st)).1) in *.
    set (s1 := State d1 _ _).
    assert (Hin1 : matrix_in_buffer d1 a n lda).
    { unfold matrix_in_buffer. rewrite Hlen1. subst a lda. split; [nia|].
      intros Hpos. rewrite Z.max_r by lia. nia. }
    destruct (pass_result a lda n upper ltac:(lia) chunking d1 Hin1 Hsched)
      as (d2 & Hrun2 & Hlen2 & Hw2 & Hu2).
    unfold reflect_conj_tri at 1. simpl. rewrite Hrun2.
    set (s2 := State d2 _ _).
    destruct (IH (i0 + 1) s2 ltac:(lia)) as (st' & Hrun & Hld & Hli & Hkeep & Hki).
    { subst s2. simpl. rewrite Hlen2, Hlen1. lia. }
    { subst s2. simpl. rewrite length_insert. lia. }
    exists st'. split; [exact Hrun|].
    split; [rewrite Hld; subst s2; simpl; congruence|].
    split; [rewrite Hli; subst s2; simpl; apply length_insert|].
    assert (Hcell : ∀ i j, 0 ≤ i < n → 0 ≤ j < n →
              a ≤ cell a lda i j < (i0 + 1) * ms).
    { intros i j Hi Hj. unfold cell. subst a lda.
      rewrite Z.max_r by lia. nia. }
    assert (Hregion : a + lda * n ≤ (i0 + 1) * ms).
    { subst a lda. destruct (decide (n = 0)) as [->|]; [lia|].
      rewrite Z.max_r by lia. nia. }
    split.
    + intros p Hp. rewrite Hkeep by nia. subst s2. simpl.
      rewrite Hu2.
      * apply Hkeep1. fold a in Hp. nia.
      * intros i j (Hi & Hj & _) ->. specialize (Hcell i j Hi Hj).
        fold a in Hp. nia.
    + intros j Hj. rewrite Hki by lia. subst s2 s1. simpl.
      apply load_insert_ne; lia.
Qed.
End CholeskyFrame.

(** X10.  Given a LAPACK that stays within the matrix it is given, the
    Cholesky-based inverse changes nothing outside of the batch: the sizes
    of the matrix buffer and of the status vector are kept, the elements
    that follow the last matrix of the batch are unchanged, and so are the
    status slots from [batch_size] on. *)
Theorem cholesky_inverse_frame {T} `{Scalar T}
    (chunking : Z → Z → list (Z * Z))
    (lapack : request → list T → list T * reply T)
    (input : list Z) (upper : bool) (st : state (list T)) :
  let n := size input (-2) in
  let b := Z.max 0 (batchCount input) in
  size input (-1) = n → 0 ≤ n →
  writes_within_matrix lapack →
  (256 ≤ n → row_schedule 0 n (chunking 0 n)) →
  b * matrixStride input ≤ Z.of_nat (length (data st)) →
  b ≤ Z.of_nat (length (infos st)) →
  ∃ st',
    apply_cholesky_inverse chunking lapack input upper st = Returned () st'
    ∧ length (data st') = length (data st)
    ∧ length (infos st') = length (infos st)
    ∧ (∀ p, b * matrixStride input ≤ p → load (data st') p = load (data st) p)
    ∧ (∀ j, b ≤ j → load (infos st') j = load (infos st) j).
Proof.
  intros n b Hsq Hn0 Hframe Hsched Hdata Hinfos.
  assert (Hms : matrixStride input = n * n).
  { unfold matrixStride. rewrite Hsq. done. }
  destruct (cholesky_inverse_loop_frame chunking lapack input upper
              (Z.to_nat (batchCount input)) 0 st
              Hms Hn0 Hframe Hsched ltac:(lia) ltac:(lia) ltac:(lia))
    as (st' & Hrun & Hld & Hli & Hkeep & Hki).
  exists st'. split; [exact Hrun|]. split; [done|]. split; [done|].
  split.
  - intros p Hp. apply Hkeep. subst b. nia.
  - intros j Hj. apply Hki. lia.
Qed.

Lemma cholesky_inverse_frame_witness :
  ∃ st',
    apply_cholesky_inverse one_chunk potri_failing [1; 2; 2] false two_matrices
      = Returned () st'
    ∧ length (data st') = length (data two_matrices)
    ∧ length (infos st') = length (infos two_matrices)
    ∧ (∀ p, Z.max 0 (batchCount [1; 2; 2]) * matrixStride [1; 2; 2] ≤ p →
         load (data st') p = load (data two_matrices) p)
    ∧ (∀ j, Z.max 0 (batchCount [1; 2; 2]) ≤ j →
         load (infos st') j = load (infos two_matrices) j).
Proof.
  apply (cholesky_inverse_frame one_chunk potri_failing [1; 2; 2] false
           two_matrices).
  - reflexivity.
  - vm_compute. discriminate.
  - exact potri_failing_within_matrix.
  - vm_compute. intros Hc. exfalso. apply Hc. reflexivity.
  - vm_compute. discriminate.
  - vm_compute. discriminate.
Defined.

Example cholesky_inverse_first_matrix_only :
  apply_cholesky_inverse one_chunk potri_failing [1; 2; 2] false two_matrices
  = Returned ()
      (State [2#1; 2#1; 2#1; 4#1; 5#1; 6#1; 7#1; 8#1]%Q [2; -1]
         [cholesky_inverse_call [1; 2; 2] false 0]).
Proof. vm_compute. reflexivity. Qed.

(** * Properties of the segment reduction *)

Example segment_max_demo :
  _segment_reduce_cpu_kernel 0 (vector [1; 5; 3; 2; 9; 4]) (vector [2; 1; 3]) 0
    false
  = Ok (vector [5; 3; 9]).
Proof. vm_compute. reflexivity. Qed.

Example segment_nan_demo :
  _segment_reduce_cpu_kernel (Num 0) (vector [Num 1; NaN; Num 7; Num (-2)])
    (vector [3; 1]) 0 false
  = Ok (vector [NaN; Num (-2)]).
Proof. vm_compute. reflexivity. Qed.

Example segment_unsafe_overrun_demo :
  _segment_reduce_cpu_kernel 0 (vector [1; 5; 3]) (vector [2; 2]) 0 true
  = OutOfBounds.
Proof. vm_compute. reflexivity. Qed.

Section SegmentLoops.
Context {T : Type} `{Element T}.
Implicit Types (values output : list T) (lengths : list Z).

Lemma load_middle {A} (pre : list A) (x : A) (rest : list A) :
  load (pre ++ x :: rest) (Z.of_nat (length pre)) = Some x.
Proof.
  unfold load. rewrite decide_True by lia. rewrite Nat2Z.id.
  by rewrite list_lookup_middle.
Qed.

Lemma load_nat {A} (l : list A) (i : nat) : load l (Z.of_nat i) = l !! i.
Proof. unfold load. rewrite decide_True by lia. by rewrite Nat2Z.id. Qed.

(** One iteration of the validation loop. *)
Lemma check_lengths_step pre len rest sum :
  check_lengths (length (len :: rest)) (Z.of_nat (length pre))
    (pre ++ len :: rest) sum
  = (_ ← TORCH_CHECK (bool_decide (len > 0))
           "lengths contains non positive value!";
     sum' ← int64_add sum len;
     check_lengths (length rest) (Z.of_nat (length (pre ++ [len])))
       ((pre ++ [len]) ++ rest) sum').
Proof.
  simpl. rewrite load_middle. simpl.
  replace (Z.of_nat (length (pre ++ [len]))) with (Z.of_nat (length pre) + 1)
    by (rewrite length_app; simpl; lia).
  by rewrite <-app_assoc.
Qed.

(** As long as the sum stays an [int64_t], the validation loop accepts
    exactly the lists of positive lengths and then returns their sum. *)
Lemma check_lengths_spec pre rest sum :
  0 ≤ sum → sum + elements_taken rest < 2 ^ 63 →
  check_lengths (length rest) (Z.of_nat (length pre)) (pre ++ rest) sum
  = if decide (Forall (λ len, 0 < len) rest)
    then Ok (sum + lengths_sum rest)
    else Throw (TorchCheck "lengths contains non positive value!").
Proof.
  revert pre sum. induction rest as [|len rest IH]; intros pre sum Hsum Hfit.
  - rewrite decide_True by constructor. simpl. f_equal.
    unfold lengths_sum. simpl. lia.
  - rewrite check_lengths_step.
    assert (Htaken : elements_taken (len :: rest)
                     = Z.max 0 len + elements_taken rest) by done.
    assert (Hrest : 0 ≤ elements_taken rest).
    { clear. induction rest as [|l rest IH]; [done|].
      unfold elements_taken in *. simpl. lia. }
    destruct (decide (0 < len)) as [Hpos|Hneg].
    + rewrite bool_decide_true by lia. unfold int64_add.
      rewrite bool_decide_true by lia. simpl.
      rewrite IH by lia.
      destruct (decide (Forall (λ l, 0 < l) rest)) as [Hall|Hall].
      * rewrite decide_True by (by constructor). f_equal.
        unfold lengths_sum. simpl. lia.
      * rewrite decide_False; [done|]. by inversion 1.
    + rewrite decide_False by (by inversion 1).
      by rewrite bool_decide_false by lia.
Qed.

(** Whenever the validation loop returns, the lengths are positive and it
    returns their sum. *)
Lemma check_lengths_Ok pre rest sum s :
  check_lengths (length rest) (Z.of_nat (length pre)) (pre ++ rest) sum = Ok s →
  Forall (λ len, 0 < len) rest ∧ s = sum + lengths_sum rest.
Proof.
  revert pre sum. induction rest as [|len rest IH]; intros pre sum.
  - simpl. intros [= <-]. split; [constructor|]. unfold lengths_sum. simpl. lia.
  - rewrite check_lengths_step. intros Hrun.
    destruct (decide (0 < len)) as [Hpos|Hneg];
      [|by rewrite bool_decide_false in Hrun by lia].
    rewrite bool_decide_true in Hrun by lia. unfold int64_add in Hrun.
    case_bool_decide as Hfit; [|done]. simpl in Hrun.
    apply IH in Hrun as [Hall ->].
    split; [by constructor|]. unfold lengths_sum. simpl. lia.
Qed.

(** Positive lengths whose sum is not an [int64_t] make the sum overflow. *)
Lemma check_lengths_overflow pre rest sum :
  Forall (λ len, 0 < len) rest →
  sum < 2 ^ 63 → 2 ^ 63 ≤ sum + lengths_sum rest →
  check_lengths (length rest) (Z.of_nat (length pre)) (pre ++ rest) sum
  = SignedOverflow.
Proof.
  intros Hall. revert pre sum.
  induction Hall as [|len rest Hpos Hall IH]; intros pre sum Hsum Hover.
  - unfold lengths_sum in Hover. simpl in Hover. lia.
  - rewrite check_lengths_step. rewrite bool_decide_true by lia.
    unfold int64_add. case_bool_decide as Hfit; [|done]. simpl.
    apply IH; [lia|]. unfold lengths_sum in *. simpl in Hover. lia.
Qed.

(** The inner loop folds the reduction step over the next [count] elements,
    if there are that many. *)
Lemma segment_loop_spec (count : nat) values (k : nat) (r : T) :
  (k + count ≤ length values)%nat →
  segment_loop count values (Z.of_nat k) r
  = Ok (foldl reduce_step r (take count (drop k values)), Z.of_nat (k + count)).
Proof.
  revert k r. induction count as [|c IH]; intros k r Hlen.
  - simpl. do 2 f_equal. lia.
  - simpl. rewrite load_nat.
    destruct (values !! k) as [x|] eqn:Hx;
      [|apply lookup_ge_None in Hx; lia].
    simpl. replace (Z.of_nat k + 1) with (Z.of_nat (S k)) by lia.
    rewrite IH by lia.
    rewrite (drop_S _ _ _ Hx). simpl. do 2 f_equal. lia.
Qed.

Lemma segment_loop_overrun (count : nat) values (k : nat) (r : T) :
  (k ≤ length values)%nat →
  (length values < k + count)%nat →
  segment_loop count values (Z.of_nat k) r = OutOfBounds.
Proof.
  revert k r. induction count as [|c IH]; intros k r Hk Hlen; [lia|].
  simpl. rewrite load_nat.
  destruct (values !! k) as [x|] eqn:Hx; [|done].
  apply lookup_lt_Some in Hx.
  simpl. replace (Z.of_nat k + 1) with (Z.of_nat (S k)) by lia.
  apply IH; lia.
Qed.

Lemma elements_taken_cons len lengths :
  elements_taken (len :: lengths) = Z.of_nat (Z.to_nat len) + elements_taken lengths.
Proof. unfold elements_taken. simpl. lia. Qed.

Lemma elements_taken_nonneg lengths : 0 ≤ elements_taken lengths.
Proof.
  induction lengths as [|len rest IH]; [done|].
  rewrite elements_taken_cons. lia.
Qed.

Lemma elements_taken_positive lengths :
  Forall (λ len, 0 < len) lengths → elements_taken lengths = lengths_sum lengths.
Proof.
  induction 1 as [|len rest Hpos Hall IH]; [done|].
  rewrite elements_taken_cons, IH. unfold lengths_sum. simpl. lia.
Qed.

(** The outer loop stores the reduction of one segment after the other. *)
Lemma reduce_loop_spec pre rest values (k : nat) output :
  length output = length (pre ++ rest) →
  Z.of_nat k + elements_taken rest ≤ Z.of_nat (length values) →
  reduce_loop (length rest) (Z.of_nat (length pre)) (pre ++ rest) values
    (Z.of_nat k) output
  = Ok (take (length pre) output
        ++ (reduce_segment <$> segments rest (drop k values))).
Proof.
  revert pre k output. induction rest as [|len rest IH]; intros pre k output Hout Hk.
  - simpl. rewrite app_nil_r in *. by rewrite firstn_all2 by lia.
  - rewrite elements_taken_cons in Hk. pose proof (elements_taken_nonneg rest).
    simpl. rewrite load_middle. simpl.
    rewrite segment_loop_spec by lia. simpl.
    rewrite length_app in Hout. simpl in Hout.
    rewrite store_in_bounds by (unfold in_bounds; lia). simpl.
    rewrite Nat2Z.id.
    replace (Z.of_nat (length pre) + 1) with (Z.of_nat (length (pre ++ [len])))
      by (rewrite length_app; simpl; lia).
    replace (pre ++ len :: rest) with ((pre ++ [len]) ++ rest)
      by (by rewrite <-app_assoc).
    rewrite IH.
    + rewrite length_app. simpl.
      replace (length pre + 1)%nat with (S (length pre)) by lia.
      rewrite (take_S_r _ _ (foldl reduce_step lowest
                               (take (Z.to_nat len) (drop k values)))).
      * rewrite take_insert_ge by lia. rewrite <-app_assoc. simpl.
        by rewrite drop_drop.
      * apply list_lookup_insert_eq. lia.
    + rewrite length_insert, !length_app. simpl. lia.
    + lia.
Qed.

Lemma reduce_loop_overrun pre rest values (k : nat) output :
  length output = length (pre ++ rest) →
  (k ≤ length values)%nat →
  Z.of_nat (length values) < Z.of_nat k + elements_taken rest →
  reduce_loop (length rest) (Z.of_nat (length pre)) (pre ++ rest) values
    (Z.of_nat k) output
  = OutOfBounds.
Proof.
  revert pre k output.
  induction rest as [|len rest IH]; intros pre k output Hout Hk Hover.
  - unfold elements_taken in Hover. simpl in Hover. lia.
  - rewrite elements_taken_cons in Hover.
    simpl. rewrite load_middle. simpl.
    destruct (decide (k + Z.to_nat len ≤ length values)%nat) as [Hfit|Hfit].
    + rewrite segment_loop_spec by lia. simpl.
      rewrite length_app in Hout. simpl in Hout.
      rewrite store_in_bounds by (unfold in_bounds; lia). simpl.
      replace (Z.of_nat (length pre) + 1) with (Z.of_nat (length (pre ++ [len])))
        by (rewrite length_app; simpl; lia).
      replace (pre ++ len :: rest) with ((pre ++ [len]) ++ rest)
        by (by rewrite <-app_assoc).
      apply IH.
      * rewrite length_insert, !length_app. simpl. lia.
      * lia.
      * lia.
    + by rewrite segment_loop_overrun by lia.
Qed.

Lemma segments_length lengths values :
  length (segments lengths values) = length lengths.
Proof.
  revert values. induction lengths as [|len rest IH]; intros values; simpl;
    [done|by rewrite IH].
Qed.

(** Segments of positive lengths that take every element are a cut of the
    values into consecutive pieces. *)
Lemma segments_concat lengths values :
  elements_taken lengths = Z.of_nat (length values) →
  concat (segments lengths values) = values.
Proof.
  revert values. induction lengths as [|len rest IH]; intros values Hall.
  - unfold elements_taken in Hall. simpl in *.
    destruct values; [done|simpl in Hall; lia].
  - rewrite elements_taken_cons in Hall. pose proof (elements_taken_nonneg rest).
    simpl. rewrite IH; [apply take_drop|]. rewrite length_drop. lia.
Qed.
End SegmentLoops.

Section SegmentKernel.
Context {T : Type} `{Element T}.

(** The kernel without the checks. *)
Lemma kernel_unsafe fill (data : tensor T) (lengths : tensor Z) axis :
  well_formed lengths →
  _segment_reduce_cpu_kernel fill data lengths axis true
  = if decide (elements_taken (t_values lengths) ≤ Z.of_nat (length (t_values data)))
    then Ok (Tensor [t_numel lengths] (t_device data)
               (reduce_segment <$> segments (t_values lengths) (t_values data)))
    else OutOfBounds.
Proof.
  intros Hwf. unfold _segment_reduce_cpu_kernel. simpl.
  unfold well_formed in Hwf. rewrite Hwf, Nat2Z.id.
  case_decide as Hfit.
  - rewrite (reduce_loop_spec [] (t_values lengths) (t_values data) 0).
    + done.
    + simpl. apply length_replicate.
    + simpl. lia.
  - rewrite (reduce_loop_overrun [] (t_values lengths) (t_values data) 0).
    + done.
    + simpl. apply length_replicate.
    + lia.
    + simpl. lia.
Qed.

(** The kernel with the checks: after them the reduction loop stays within
    the buffers. *)
Lemma kernel_safe_checks fill (data : tensor T) (lengths : tensor Z) axis :
  well_formed lengths → well_formed data →
  _segment_reduce_cpu_kernel fill data lengths axis false
  = (sum ← check_lengths (length (t_values lengths)) 0 (t_values lengths) 0;
     _ ← TORCH_CHECK (bool_decide (sum = t_numel data)) EmptyString;
     Ok (Tensor [t_numel lengths] (t_device data)
           (reduce_segment <$> segments (t_values lengths) (t_values data)))).
Proof.
  intros Hwf Hwfd. unfold _segment_reduce_cpu_kernel. simpl.
  unfold well_formed in Hwf, Hwfd. rewrite Hwf, Nat2Z.id.
  destruct (check_lengths (length (t_values lengths)) 0 (t_values lengths) 0)
    as [s| | |] eqn:Hc; try done.
  simpl. case_bool_decide as Hsum; [|done]. simpl.
  assert (Htaken : elements_taken (t_values lengths)
                   ≤ Z.of_nat (length (t_values data))).
  { apply (check_lengths_Ok [] (t_values lengths) 0 s) in Hc as [Hall ->].
    rewrite elements_taken_positive by done. lia. }
  rewrite (reduce_loop_spec [] (t_values lengths) (t_values data) 0).
  - done.
  - simpl. apply length_replicate.
  - simpl. lia.
Qed.

(** The same, when the sum of the lengths stays an [int64_t]. *)
Lemma kernel_safe fill (data : tensor T) (lengths : tensor Z) axis :
  well_formed lengths → well_formed data →
  elements_taken (t_values lengths) < 2 ^ 63 →
  _segment_reduce_cpu_kernel fill data lengths axis false
  = if decide (Forall (λ len, 0 < len) (t_values lengths)) then
      if decide (lengths_sum (t_values lengths) = t_numel data) then
        Ok (Tensor [t_numel lengths] (t_device data)
              (reduce_segment <$> segments (t_values lengths) (t_values data)))
      else Throw (TorchCheck EmptyString)
    else Throw (TorchCheck "lengths contains non positive value!").
Proof.
  intros Hwf Hwfd Hfit. rewrite kernel_safe_checks by done.
  pose proof (check_lengths_spec [] (t_values lengths) 0) as Hc.
  simpl in Hc. change (Z.of_nat 0) with 0 in Hc. rewrite Hc by lia. clear Hc.
  case_decide as Hpos; [|done]. simpl.
  case_decide as Hsum.
  - by rewrite bool_decide_true by done.
  - by rewrite bool_decide_false.
Qed.

(** What the checks have established when the kernel returns. *)
Lemma kernel_safe_Ok fill (data : tensor T) (lengths : tensor Z) axis out :
  well_formed lengths → well_formed data →
  _segment_reduce_cpu_kernel fill data lengths axis false = Ok out →
  Forall (λ len, 0 < len) (t_values lengths)
  ∧ lengths_sum (t_values lengths) = t_numel data
  ∧ out = Tensor [t_numel lengths] (t_device data)
            (reduce_segment <$> segments (t_values lengths) (t_values data)).
Proof.
  intros Hwf Hwfd. rewrite kernel_safe_checks by done.
  destruct (check_lengths (length (t_values lengths)) 0 (t_values lengths) 0)
    as [s| | |] eqn:Hc; try done.
  apply (check_lengths_Ok [] (t_values lengths) 0 s) in Hc as [Hall ->].
  simpl. case_bool_decide as Hsum; [|done]. simpl. intros [= <-].
  split; [done|]. split; [lia|done].
Qed.
End SegmentKernel.

(** ** The reduction of one segment *)

Section ReduceSegment.
Context {T : Type} `{Element T}.
Implicit Types (seg : list T).

(** Once the reduction is NaN it stays NaN, and a NaN element makes it NaN. *)
Lemma foldl_reduce_nan (r : T) seg :
  (∀ x y : T, _isnan x = true → less x y = false) →
  _isnan r = true ∨ Exists (λ x, _isnan x = true) seg →
  _isnan (foldl reduce_step r seg) = true.
Proof.
  intros Hnan. revert r. induction seg as [|x seg IH]; intros r Hr.
  - destruct Hr as [Hr|Hr]; [done|by inversion Hr].
  - simpl. apply IH. unfold reduce_step, std_max.
    destruct (_isnan x) eqn:Hx; [by left|].
    destruct Hr as [Hr|Hr].
    + left. by rewrite (Hnan r x Hr).
    + inversion_clear Hr as [? ? Hx'|]; [congruence|by right].
Qed.

(** Without NaN the reduction is the start value or an element, and neither
    the start value nor any element is greater than it. *)
Lemma foldl_reduce_max (r0 : T) seg :
  (∀ x : T, less x x = false) →
  (∀ x y z : T, less x y = true → less y z = true → less x z = true) →
  Forall (λ x, _isnan x = false) seg →
  let r := foldl reduce_step r0 seg in
  (r = r0 ∨ r ∈ seg) ∧ less r r0 = false ∧ ∀ x, x ∈ seg → less r x = false.
Proof.
  intros Hirr Htrans. induction seg as [|x seg IH] using rev_ind; intros Hall.
  - simpl. split; [by left|]. split; [apply Hirr|]. intros x Hx.
    by apply elem_of_nil in Hx.
  - apply Forall_app in Hall as [Hall Hx]. inversion_clear Hx as [|? ? Hx' _].
    destruct (IH Hall) as (Hin & Hge & Hmax). clear IH.
    rewrite foldl_snoc. cbv zeta. set (r := foldl reduce_step r0 seg) in *.
    assert (Hs : reduce_step r x = if less r x then x else r)
      by (unfold reduce_step, std_max; by rewrite Hx').
    rewrite Hs. clear Hs.
    destruct (less r x) eqn:Hlt.
    + split; [right; apply elem_of_app; right; left|]. split.
      * destruct (less x r0) eqn:Hc; [|done].
        by rewrite (Htrans _ _ _ Hlt Hc) in Hge.
      * intros y [Hy|Hy]%elem_of_app.
        -- destruct (less x y) eqn:Hc; [|done].
           pose proof (Htrans _ _ _ Hlt Hc) as Hry.
           rewrite (Hmax y Hy) in Hry. done.
        -- apply list_elem_of_singleton in Hy as ->. apply Hirr.
    + split; [destruct Hin as [->|Hin]; [by left|right; apply elem_of_app; by left]|].
      split; [done|].
      intros y [Hy|Hy]%elem_of_app; [by apply Hmax|].
      by apply list_elem_of_singleton in Hy as ->.
Qed.
End ReduceSegment.

(** ** The CPU kernel *)

Lemma int64_less_irreflexive (x : Z) : less x x = false.
Proof. apply Z.ltb_irrefl. Qed.

Lemma int64_less_transitive (x y z : Z) :
  less x y = true → less y z = true → less x z = true.
Proof. simpl. rewrite !Z.ltb_lt. lia. Qed.

Lemma double_nan_unordered (x y : double) : _isnan x = true → less x y = false.
Proof. by destruct x. Qed.

Lemma vector_well_formed {A} (l : list A) : well_formed (vector l).
Proof. unfold well_formed, t_numel, numel, vector. simpl. lia. Qed.

(** Every result of the kernel is the list of the segments' reductions. *)
Lemma kernel_Ok {T} `{Element T} fill (data : tensor T) (lengths : tensor Z)
    axis unsafe out :
  well_formed lengths → (unsafe = false → well_formed data) →
  _segment_reduce_cpu_kernel fill data lengths axis unsafe = Ok out →
  out = Tensor [t_numel lengths] (t_device data)
          (reduce_segment <$> segments (t_values lengths) (t_values data)).
Proof.
  intros Hwf Hwfd. destruct unsafe.
  - rewrite kernel_unsafe by done. case_decide; [|done]. by intros [= <-].
  - intros Hrun. by apply kernel_safe_Ok in Hrun as (_ & _ & ->); auto.
Qed.

(** X11.  In the checked mode ([unsafe = false]), when the positive lengths
    add up to an [int64_t], the kernel accepts exactly the lengths that are
    all positive and add up to the number of elements of [data].  A length
    that is not positive is reported with the message of the first check,
    whether or not the sum matches; a wrong sum is reported by the second
    check, which has no message. *)
Theorem segment_reduce_checks {T} `{Element T}
    (fill : T) (data : tensor T) (lengths : tensor Z) (axis : Z) :
  well_formed lengths → well_formed data →
  elements_taken (t_values lengths) < 2 ^ 63 →
  let r := _segment_reduce_cpu_kernel fill data lengths axis false in
  ((∃ out, r = Ok out) ↔
     Forall (λ len, 0 < len) (t_values lengths)
     ∧ lengths_sum (t_values lengths) = t_numel data)
  ∧ (¬ Forall (λ len, 0 < len) (t_values lengths) →
     r = Throw (TorchCheck "lengths contains non positive value!"))
  ∧ (Forall (λ len, 0 < len) (t_values lengths) →
     lengths_sum (t_values lengths) ≠ t_numel data →
     r = Throw (TorchCheck EmptyString)).
Proof.
  intros Hwf Hwfd Hfit r. subst r. rewrite kernel_safe by done.
  split; [|split].
  - repeat case_decide; split; try done; try (intros [? ?]; done);
      intros [? ?]; eauto; done.
  - intros Hn. by rewrite decide_False.
  - intros Hp Hs. by rewrite decide_True, decide_False.
Qed.

Lemma segment_reduce_checks_witness :
  ((∃ out, _segment_reduce_cpu_kernel 0 (vector [1; 5; 3]) (vector [2; 1]) 0 false
           = Ok out) ↔
     Forall (λ len, 0 < len) [2; 1] ∧ lengths_sum [2; 1] = 3)
  ∧ (¬ Forall (λ len, 0 < len) [2; 1] →
     _segment_reduce_cpu_kernel 0 (vector [1; 5; 3]) (vector [2; 1]) 0 false
     = Throw (TorchCheck "lengths contains non positive value!"))
  ∧ (Forall (λ len, 0 < len) [2; 1] →
     lengths_sum [2; 1] ≠ 3 →
     _segment_reduce_cpu_kernel 0 (vector [1; 5; 3]) (vector [2; 1]) 0 false
     = Throw (TorchCheck EmptyString)).
Proof.
  apply (segment_reduce_checks 0 (vector [1; 5; 3]) (vector [2; 1]) 0).
  - apply vector_well_formed.
  - apply vector_well_formed.
  - vm_compute. reflexivity.
Defined.

Example segment_reduce_rejects_zero_length :
  _segment_reduce_cpu_kernel 0 (vector [1; 5; 3]) (vector [3; 0]) 0 false
  = Throw (TorchCheck "lengths contains non positive value!").
Proof. vm_compute. reflexivity. Qed.

Example segment_reduce_rejects_short_lengths :
  _segment_reduce_cpu_kernel 0 (vector [1; 5; 3]) (vector [1; 1]) 0 false
  = Throw (TorchCheck EmptyString).
Proof. vm_compute. reflexivity. Qed.

(** X12.  When the kernel returns, in either mode, the output is a
    one-dimensional tensor on the device of [data] with one element per
    length, and element [i] is the reduction of the [i]-th of the
    consecutive segments of [data]; in the checked mode these segments
    cover [data] exactly. *)
Theorem segment_reduce_result {T} `{Element T}
    (fill : T) (data : tensor T) (lengths : tensor Z) (axis : Z) (unsafe : bool)
    (out : tensor T) :
  well_formed lengths → well_formed data →
  _segment_reduce_cpu_kernel fill data lengths axis unsafe = Ok out →
  let segs := segments (t_values lengths) (t_values data) in
  t_sizes out = [t_numel lengths]
  ∧ t_device out = t_device data
  ∧ well_formed out
  ∧ length segs = length (t_values lengths)
  ∧ t_values out = reduce_segment <$> segs
  ∧ (unsafe = false → concat segs = t_values data).
Proof.
  intros Hwf Hwfd Hrun segs. subst segs.
  pose proof (kernel_Ok fill data lengths axis unsafe out Hwf
                (λ _, Hwfd) Hrun) as ->. simpl.
  split; [done|]. split; [done|].
  split.
  { unfold well_formed, t_numel in *. simpl.
    rewrite length_fmap, segments_length.
    unfold numel in *. simpl. lia. }
  split; [apply segments_length|]. split; [done|].
  intros ->. apply kernel_safe_Ok in Hrun as (Hall & Hsum & _); [|done..].
  apply segments_concat. rewrite elements_taken_positive by done.
  unfold well_formed in Hwfd. congruence.
Qed.

Lemma segment_reduce_result_witness :
  t_sizes (vector [5; 3; 9]) = [t_numel (vector [2; 1; 3])]
  ∧ t_device (vector [5; 3; 9]) = t_device (vector [1; 5; 3; 2; 9; 4])
  ∧ well_formed (vector [5; 3; 9])
  ∧ length (segments [2; 1; 3] [1; 5; 3; 2; 9; 4]) = 3%nat
  ∧ [5; 3; 9] = reduce_segment <$> segments [2; 1; 3] [1; 5; 3; 2; 9; 4]
  ∧ (false = false →
     concat (segments [2; 1; 3] [1; 5; 3; 2; 9; 4]) = [1; 5; 3; 2; 9; 4]).
Proof.
  apply (segment_reduce_result 0 (vector [1; 5; 3; 2; 9; 4]) (vector [2; 1; 3])
           0 false (vector [5; 3; 9])).
  - apply vector_well_formed.
  - apply vector_well_formed.
  - vm_compute. reflexivity.
Defined.

(** X13.  The checked mode has no undefined behaviour when the positive
    lengths add up to an [int64_t]: it neither reads nor writes outside of a
    buffer.  The unchecked mode reads outside of [data] exactly when the
    lengths (counting a length that is not positive as 0) ask for more
    elements than [data] has; otherwise it returns. *)
Theorem segment_reduce_memory_safety {T} `{Element T}
    (fill : T) (data : tensor T) (lengths : tensor Z) (axis : Z) :
  well_formed lengths →
  (well_formed data → elements_taken (t_values lengths) < 2 ^ 63 →
   ¬ undefined_behaviour (_segment_reduce_cpu_kernel fill data lengths axis false))
  ∧ (undefined_behaviour (_segment_reduce_cpu_kernel fill data lengths axis true) ↔
     Z.of_nat (length (t_values data)) < elements_taken (t_values lengths))
  ∧ (Z.of_nat (length (t_values data)) < elements_taken (t_values lengths) →
     _segment_reduce_cpu_kernel fill data lengths axis true = OutOfBounds)
  ∧ (elements_taken (t_values lengths) ≤ Z.of_nat (length (t_values data)) →
     ∃ out, _segment_reduce_cpu_kernel fill data lengths axis true = Ok out).
Proof.
  intros Hwf. unfold undefined_behaviour. split; [|split; [|split]].
  - intros Hwfd Hfit. rewrite kernel_safe by done.
    repeat case_decide; by intros [|].
  - rewrite kernel_unsafe by done. case_decide; split; try lia.
    + by intros [|].
    + by left.
  - intros Hover. rewrite kernel_unsafe by done. by rewrite decide_False by lia.
  - intros Hfit. rewrite kernel_unsafe by done. rewrite decide_True by done. eauto.
Qed.

Lemma segment_reduce_memory_safety_witness :
  ¬ undefined_behaviour
      (_segment_reduce_cpu_kernel 0 (vector [1; 5; 3]) (vector [2; 2]) 0 false)
  ∧ _segment_reduce_cpu_kernel 0 (vector [1; 5; 3]) (vector [2; 2]) 0 true
    = OutOfBounds
  ∧ ∃ out, _segment_reduce_cpu_kernel 0 (vector [1; 5; 3]) (vector [2; -4]) 0 true
           = Ok out.
Proof.
  destruct (segment_reduce_memory_safety 0 (vector [1; 5; 3]) (vector [2; 2]) 0
              (vector_well_formed _)) as (Hsafe & _ & Hunsafe & _).
  destruct (segment_reduce_memory_safety 0 (vector [1; 5; 3]) (vector [2; -4]) 0
              (vector_well_formed _)) as (_ & _ & _ & Hfit).
  split; [apply Hsafe; [apply vector_well_formed|vm_compute; reflexivity]|].
  split; [apply Hunsafe; vm_compute; reflexivity|].
  apply Hfit. vm_compute. discriminate.
Defined.

(** X20.  The checked mode adds the lengths up in an [int64_t] before it
    compares the sum with the number of elements: positive lengths whose
    sum is not an [int64_t] make this addition overflow, which is undefined
    behaviour, whatever [data] holds. *)
Theorem segment_reduce_sum_overflow {T} `{Element T}
    (fill : T) (data : tensor T) (lengths : tensor Z) (axis : Z) :
  well_formed lengths →
  Forall (λ len, 0 < len) (t_values lengths) →
  2 ^ 63 ≤ lengths_sum (t_values lengths) →
  _segment_reduce_cpu_kernel fill data lengths axis false = SignedOverflow.
Proof.
  intros Hwf Hall Hover. unfold _segment_reduce_cpu_kernel. simpl.
  unfold well_formed in Hwf. rewrite Hwf, Nat2Z.id.
  pose proof (check_lengths_overflow [] (t_values lengths) 0 Hall) as Hc.
  simpl in Hc. change (Z.of_nat 0) with 0 in Hc. by rewrite Hc by lia.
Qed.

Lemma segment_reduce_sum_overflow_witness :
  _segment_reduce_cpu_kernel 0 (vector [1; 5; 3]) (vector [2 ^ 63 - 1; 1]) 0 false
  = SignedOverflow.
Proof.
  apply (segment_reduce_sum_overflow 0 (vector [1; 5; 3])
           (vector [2 ^ 63 - 1; 1]) 0).
  - apply vector_well_formed.
  - repeat constructor.
  - vm_compute. discriminate.
Defined.

Lemma segments_nonpositive {T} (lengths : list Z) (values : list T)
    (i : nat) (len : Z) (seg : list T) :
  lengths !! i = Some len → len ≤ 0 →
  segments lengths values !! i = Some seg → seg = [].
Proof.
  revert values i. induction lengths as [|l rest IH]; intros values i; [done|].
  destruct i as [|i]; simpl.
  - intros [= ->] Hlen [= <-]. by replace (Z.to_nat len) with 0%nat by lia.
  - apply IH.
Qed.

Lemma output_lookup {T} `{Element T} fill (data : tensor T) (lengths : tensor Z)
    axis unsafe out (i : nat) seg :
  well_formed lengths → well_formed data →
  _segment_reduce_cpu_kernel fill data lengths axis unsafe = Ok out →
  segments (t_values lengths) (t_values data) !! i = Some seg →
  t_values out !! i = Some (reduce_segment seg).
Proof.
  intros Hwf Hwfd Hrun Hseg.
  rewrite (kernel_Ok fill data lengths axis unsafe out Hwf (λ _, Hwfd) Hrun).
  simpl. by rewrite list_lookup_fmap, Hseg.
Qed.

(** X14.  NaN propagates: for an element type whose NaN is not less than
    anything, a segment that contains a NaN is reduced to a NaN. *)
Theorem segment_reduce_nan_propagates {T} `{Element T}
    (fill : T) (data : tensor T) (lengths : tensor Z) (axis : Z) (unsafe : bool)
    (out : tensor T) (i : nat) (seg : list T) :
  (∀ x y : T, _isnan x = true → less x y = false) →
  well_formed lengths → well_formed data →
  _segment_reduce_cpu_kernel fill data lengths axis unsafe = Ok out →
  segments (t_values lengths) (t_values data) !! i = Some seg →
  Exists (λ x, _isnan x = true) seg →
  ∃ r, t_values out !! i = Some r ∧ _isnan r = true.
Proof.
  intros Hnan Hwf Hwfd Hrun Hseg Hex.
  exists (reduce_segment seg).
  split; [by eapply output_lookup|].
  apply foldl_reduce_nan; [done|by right].
Qed.

Lemma segment_reduce_nan_propagates_witness :
  ∃ r, t_values (vector [NaN; Num (-2)]) !! 0%nat = Some r ∧ _isnan r = true.
Proof.
  apply (segment_reduce_nan_propagates (Num 0)
           (vector [Num 1; NaN; Num 7; Num (-2)]) (vector [3; 1]) 0 false
           (vector [NaN; Num (-2)]) 0 [Num 1; NaN; Num 7]).
  - exact double_nan_unordered.
  - apply vector_well_formed.
  - apply vector_well_formed.
  - vm_compute. reflexivity.
  - reflexivity.
  - right. left. reflexivity.
Defined.

(** X15.  For an element type whose [<] is irreflexive and transitive, the
    reduction of a segment without NaN is [lowest] or an element of the
    segment, it is not below [lowest], and no element of the segment is
    greater than it: it is the maximum of the segment and [lowest]. *)
Theorem segment_reduce_maximum {T} `{Element T}
    (fill : T) (data : tensor T) (lengths : tensor Z) (axis : Z) (unsafe : bool)
    (out : tensor T) (i : nat) (seg : list T) :
  (∀ x : T, less x x = false) →
  (∀ x y z : T, less x y = true → less y z = true → less x z = true) →
  well_formed lengths → well_formed data →
  _segment_reduce_cpu_kernel fill data lengths axis unsafe = Ok out →
  segments (t_values lengths) (t_values data) !! i = Some seg →
  Forall (λ x, _isnan x = false) seg →
  ∃ r, t_values out !! i = Some r
    ∧ (r = lowest ∨ r ∈ seg)
    ∧ less r lowest = false
    ∧ ∀ x, x ∈ seg → less r x = false.
Proof.
  intros Hirr Htrans Hwf Hwfd Hrun Hseg Hall.
  exists (reduce_segment seg).
  split; [by eapply output_lookup|].
  by apply foldl_reduce_max.
Qed.

Lemma segment_reduce_maximum_witness :
  ∃ r, t_values (vector [5; 3; 9]) !! 2%nat = Some r
    ∧ (r = lowest ∨ r ∈ [2; 9; 4])
    ∧ less r lowest = false
    ∧ ∀ x, x ∈ [2; 9; 4] → less r x = false.
Proof.
  apply (segment_reduce_maximum 0 (vector [1; 5; 3; 2; 9; 4]) (vector [2; 1; 3])
           0 false (vector [5; 3; 9]) 2 [2; 9; 4]).
  - exact int64_less_irreflexive.
  - exact int64_less_transitive.
  - apply vector_well_formed.
  - apply vector_well_formed.
  - vm_compute. reflexivity.
  - reflexivity.
  - repeat constructor.
Defined.

(** X16.  The kernel writes every element of its output: what [at::empty]
    left in the new tensor never shows in the result. *)
Theorem segment_reduce_output_initialised {T} `{Element T}
    (fill fill' : T) (data : tensor T) (lengths : tensor Z) (axis : Z)
    (unsafe : bool) :
  well_formed lengths → (unsafe = false → well_formed data) →
  _segment_reduce_cpu_kernel fill data lengths axis unsafe
  = _segment_reduce_cpu_kernel fill' data lengths axis unsafe.
Proof.
  intros Hwf Hwfd. destruct unsafe.
  - by rewrite !kernel_unsafe.
  - by rewrite !kernel_safe_checks by auto.
Qed.

Lemma segment_reduce_output_initialised_witness :
  _segment_reduce_cpu_kernel 0 (vector [1; 5; 3]) (vector [2; 1]) 0 false
  = _segment_reduce_cpu_kernel 77 (vector [1; 5; 3]) (vector [2; 1]) 0 false.
Proof.
  apply (segment_reduce_output_initialised 0 77 (vector [1; 5; 3])
           (vector [2; 1]) 0 false).
  - apply vector_well_formed.
  - intros _. apply vector_well_formed.
Defined.

Lemma elements_taken_app (l1 l2 : list Z) :
  elements_taken (l1 ++ l2) = elements_taken l1 + elements_taken l2.
Proof.
  induction l1 as [|len l1 IH]; [done|].
  rewrite <-app_comm_cons, !elements_taken_cons, IH. lia.
Qed.

Lemma segments_app {T} (l1 l2 : list Z) (values : list T) :
  segments (l1 ++ l2) values
  = segments l1 values
    ++ segments l2 (drop (Z.to_nat (elements_taken l1)) values).
Proof.
  revert values. induction l1 as [|len l1 IH]; intros values; [done|].
  rewrite <-app_comm_cons, elements_taken_cons. simpl.
  rewrite IH, drop_drop.
  replace (Z.to_nat (Z.of_nat (Z.to_nat len) + elements_taken l1))
    with (Z.to_nat len + Z.to_nat (elements_taken l1))%nat; [done|].
  pose proof (elements_taken_nonneg l1). lia.
Qed.

(** X17.  In the unchecked mode a segment whose length is not positive
    takes no element: the inner loop makes no read and leaves [k] where it
    was, whatever [k] is.  The output of that segment is [lowest], and the
    segments after it start where it started: the run gives what the run
    without that length gives, with [lowest] put in at its place. *)
Theorem segment_reduce_unsafe_empty_segment {T} `{Element T}
    (fill : T) (data : tensor T) (lengths : tensor Z) (axis : Z)
    (pre rest : list Z) (len : Z) :
  well_formed lengths →
  t_values lengths = pre ++ len :: rest →
  len ≤ 0 →
  (∀ (values : list T) k r, segment_loop (Z.to_nat len) values k r = Ok (r, k))
  ∧ ∀ out,
      _segment_reduce_cpu_kernel fill data lengths axis true = Ok out →
      t_values out !! length pre = Some lowest
      ∧ ∃ out',
          _segment_reduce_cpu_kernel fill data (vector (pre ++ rest)) axis true
            = Ok out'
          ∧ t_values out = take (length pre) (t_values out')
                           ++ lowest :: drop (length pre) (t_values out').
Proof.
  intros Hwf Hlengths Hneg. split.
  { intros values k r. by replace (Z.to_nat len) with 0%nat by lia. }
  intros out Hrun.
  rewrite kernel_unsafe, Hlengths in Hrun by done.
  case_decide as Hfit; [|done]. injection Hrun as <-. simpl.
  rewrite elements_taken_app, elements_taken_cons in Hfit.
  rewrite segments_app. simpl.
  replace (Z.to_nat len) with 0%nat by lia. rewrite take_0, drop_0.
  rewrite fmap_app, fmap_cons.
  assert (Hpre : length (reduce_segment <$> segments pre (t_values data))
                 = length pre)
    by (by rewrite length_fmap, segments_length).
  split.
  { rewrite <-Hpre. by rewrite list_lookup_middle. }
  eexists. split.
  - rewrite kernel_unsafe by apply vector_well_formed. simpl.
    rewrite decide_True; [reflexivity|].
    rewrite elements_taken_app. lia.
  - simpl. rewrite segments_app, fmap_app. rewrite <-Hpre at 1 2.
    by rewrite take_app_length, drop_app_length.
Qed.

Lemma segment_reduce_unsafe_empty_segment_witness :
  t_values (vector [5; - 2 ^ 63; 3]) !! 1%nat = Some (lowest : Z)
  ∧ ∃ out',
      _segment_reduce_cpu_kernel 0 (vector [1; 5; 3]) (vector [2; 1]) 0 true
        = Ok out'
      ∧ [5; - 2 ^ 63; 3] = take 1 (t_values out')
                            ++ lowest :: drop 1 (t_values out').
Proof.
  destruct (segment_reduce_unsafe_empty_segment 0 (vector [1; 5; 3])
              (vector [2; -4; 1]) 0 [2] [1] (-4)) as [_ Hrun].
  - apply vector_well_formed.
  - reflexivity.
  - lia.
  - apply (Hrun (vector [5; - 2 ^ 63; 3])). vm_compute. reflexivity.
Defined.

(** ** The entry point *)

Lemma reduction_kind (reduce : string) :
  map_at segmentReduce2REDUCE reduce
  = if decide (reduce = "max"%string) then Ok MAX else Throw StdOutOfRange.
Proof.
  unfold map_at, segmentReduce2REDUCE. case_decide as Hr.
  - subst. by rewrite lookup_singleton_eq.
  - by rewrite lookup_singleton_ne.
Qed.

(** X18.  The entry point hands the call to the kernel of the device
    exactly when the dimension wraps to 0, [data] is one-dimensional and
    not empty, the reduction is ["max"], lengths are given and indices are
    not, and the lengths are one-dimensional and on the device of [data];
    the kernel is then given the wrapped dimension 0.  Whenever the entry
    point returns a tensor, all of this holds. *)
Theorem segment_reduce_entry_checks {T}
    (maybe_wrap_dim : Z → Z → option Z)
    (stub : tensor T → tensor Z → Z → bool → result (tensor T))
    (data : tensor T) (reduce : string) (lengths indices : option (tensor Z))
    (axis : Z) (unsafe : bool) :
  let accepted l :=
    maybe_wrap_dim axis (t_dim data) = Some 0
    ∧ t_dim data = 1 ∧ 0 < t_numel data
    ∧ reduce = "max"%string
    ∧ lengths = Some l ∧ indices = None
    ∧ t_dim l = 1 ∧ t_device data = t_device l in
  (∀ l, accepted l →
     segment_reduce_kernel maybe_wrap_dim stub data reduce lengths indices axis
       unsafe = stub data l 0 unsafe)
  ∧ (∀ out,
     segment_reduce_kernel maybe_wrap_dim stub data reduce lengths indices axis
       unsafe = Ok out →
     ∃ l, accepted l ∧ stub data l 0 unsafe = Ok out).
Proof.
  intros accepted. subst accepted. cbv beta. split.
  - intros l (Hw & Hd & Hn & -> & -> & -> & Hld & Hdev).
    unfold segment_reduce_kernel. rewrite Hw. simpl.
    rewrite reduction_kind. simpl.
    rewrite (bool_decide_true (t_dim data = 1)) by done.
    rewrite (bool_decide_true (t_numel data > 0)) by lia.
    rewrite (bool_decide_true (t_dim l = 1)) by done.
    rewrite (bool_decide_true (t_device data = t_device l)) by done.
    rewrite (bool_decide_true (t_dim data >= t_dim l)) by lia.
    done.
  - intros out. unfold segment_reduce_kernel.
    destruct (maybe_wrap_dim axis (t_dim data)) as [a|] eqn:Hw; [|done]. simpl.
    destruct (bool_decide (a = 0)) eqn:Ha; [|done]. simpl.
    destruct (bool_decide (t_dim data = 1)) eqn:Hd; [|done]. simpl.
    destruct (bool_decide (t_numel data > 0)) eqn:Hn; [|done]. simpl.
    rewrite reduction_kind.
    destruct (decide (reduce = "max"%string)) as [Hr|Hr]; [|done]. simpl.
    destruct (bool_decide (is_Some lengths ∧ indices = None)) eqn:Hl; [|done].
    simpl. apply bool_decide_eq_true in Ha, Hd, Hn, Hl.
    destruct Hl as [[l ->] ->].
    destruct (bool_decide (t_dim l = 1)) eqn:Hld; [|done]. simpl.
    destruct (bool_decide (t_device data = t_device l)) eqn:Hdev; [|done]. simpl.
    destruct (bool_decide (t_dim data >= t_dim l)) eqn:Hge; [|done]. simpl.
    apply bool_decide_eq_true in Hld, Hdev. subst a.
    intros Hrun. exists l. split; [|done].
    split; [done|]. split; [done|]. split; [lia|]. done.
Qed.

Lemma segment_reduce_entry_checks_witness :
  segment_reduce_kernel (λ a n, if decide (- n ≤ a < 0) then Some (a + n)
                                else if decide (0 ≤ a < n) then Some a else None)
    (_segment_reduce_cpu_kernel 0)
    (vector [1; 5; 3; 2; 9; 4]) "max" (Some (vector [2; 1; 3])) None (-1) false
  = _segment_reduce_cpu_kernel 0 (vector [1; 5; 3; 2; 9; 4]) (vector [2; 1; 3])
      0 false.
Proof.
  destruct (segment_reduce_entry_checks
              (λ a n, if decide (- n ≤ a < 0) then Some (a + n)
                      else if decide (0 ≤ a < n) then Some a else None)
              (_segment_reduce_cpu_kernel 0)
              (vector [1; 5; 3; 2; 9; 4]) "max" (Some (vector [2; 1; 3])) None
              (-1) false) as [Haccept _].
  apply Haccept. repeat split; try reflexivity.
Defined.

(** X19.  A reduction name that is not a key of the table makes the entry
    point fail in the lookup, with [std::out_of_range]; the check that
    follows the lookup can never fail, so its message is never raised by
    the entry point (only the kernel it calls could raise it). *)
Theorem segment_reduce_unknown_reduction {T}
    (maybe_wrap_dim : Z → Z → option Z)
    (stub : tensor T → tensor Z → Z → bool → result (tensor T))
    (data : tensor T) (reduce : string) (lengths indices : option (tensor Z))
    (axis : Z) (unsafe : bool) :
  (maybe_wrap_dim axis (t_dim data) = Some 0 →
   t_dim data = 1 → 0 < t_numel data → reduce ≠ "max"%string →
   segment_reduce_kernel maybe_wrap_dim stub data reduce lengths indices axis
     unsafe = Throw StdOutOfRange)
  ∧ (segment_reduce_kernel maybe_wrap_dim stub data reduce lengths indices axis
       unsafe
     = Throw (TorchCheck "Currently only 'max' reduction is supported!") →
     ∃ l a, stub data l a unsafe
            = Throw (TorchCheck "Currently only 'max' reduction is supported!")).
Proof.
  split.
  - intros Hw Hd Hn Hr. unfold segment_reduce_kernel. rewrite Hw. simpl.
    rewrite (bool_decide_true (t_dim data = 1)) by done.
    rewrite (bool_decide_true (t_numel data > 0)) by lia. simpl.
    rewrite reduction_kind. by rewrite decide_False.
  - unfold segment_reduce_kernel.
    destruct (maybe_wrap_dim axis (t_dim data)) as [a|] eqn:Hw; [|done]. simpl.
    destruct (bool_decide (a = 0)) eqn:Ha; [|done]. simpl.
    destruct (bool_decide (t_dim data = 1)) eqn:Hd; [|done]. simpl.
    destruct (bool_decide (t_numel data > 0)) eqn:Hn; [|done]. simpl.
    rewrite reduction_kind.
    destruct (decide (reduce = "max"%string)) as [Hr|Hr]; [|done]. simpl.
    destruct (bool_decide (is_Some lengths ∧ indices = None)) eqn:Hl; [|done].
    simpl. apply bool_decide_eq_true in Hl. destruct Hl as [[l ->] ->].
    destruct (bool_decide (t_dim l = 1)) eqn:Hld; [|done]. simpl.
    destruct (bool_decide (t_device data = t_device l)) eqn:Hdev; [|done]. simpl.
    destruct (bool_decide (t_dim data >= t_dim l)) eqn:Hge; [|done]. simpl.
    intros Hrun. by exists l, a.
Qed.

Lemma segment_reduce_unknown_reduction_witness :
  segment_reduce_kernel (λ a n, Some a) (_segment_reduce_cpu_kernel 0)
    (vector [1; 5; 3]) "sum" (Some (vector [3])) None 0 false
  = Throw StdOutOfRange.
Proof.
  destruct (segment_reduce_unknown_reduction (λ a n, Some a)
              (_segment_reduce_cpu_kernel 0)
              (vector [1; 5; 3]) "sum" (Some (vector [3])) None 0 false)
    as [Hmissing _].
  apply Hmissing.
  - reflexivity.
  - reflexivity.
  - vm_compute. reflexivity.
  - discriminate.
Defined.

(** ** The kernel behind [torch.eig] *)

(** X21.  The kernel behind [torch.eig] never touches the status vector and
    never stops on an assertion.  On an empty matrix it makes no call to
    LAPACK and stores nothing through [info_ptr].  Otherwise it makes the
    size query and one call, with the workspace size it computed from the
    hint, and the status it stores is the one of that call on the data the
    query left: the status of the size query is dropped. *)
Theorem eig_status_of_work_call {T} `{Scalar T} {D}
    (lapack : request → D → D * reply T) (self : list Z) (eigenvectors : bool)
    (st : state D) :
  let q := eig_call self eigenvectors (-1) in
  let work := eig_call self eigenvectors
                (work_size (work_out (answer lapack q st))) in
  (size self (-1) ≤ 0 →
   apply_eig lapack self eigenvectors st = Returned None st)
  ∧ (0 < size self (-1) →
     ∃ st',
       apply_eig lapack self eigenvectors st
       = Returned (Some (info_out (lapack work.1 (lapack q.1 (data st)).1).2)) st'
       ∧ trace st' = trace st ++ [q; work]
       ∧ infos st' = infos st).
Proof.
  intros q work. split.
  - intros Hn. unfold apply_eig. by rewrite decide_False by lia.
  - intros Hn. unfold apply_eig. rewrite decide_True by done.
    unfold_kernel. rewrite !call_local. simpl.
    subst work q. unfold answer, work_size. simpl.
    eexists. split; [reflexivity|]. simpl. by rewrite <-app_assoc.
Qed.

Lemma eig_status_of_work_call_witness :
  apply_eig (toy_lapack 4 status_query_fails) [0; 0] true (fresh_state 1)
    = Returned None (fresh_state 1)
  ∧ ∃ st',
      apply_eig (toy_lapack 4 status_query_fails) [3; 3] true (fresh_state 1)
      = Returned (Some 0) st'
      ∧ trace st' = [eig_call [3; 3] true (-1); eig_call [3; 3] true 4]
      ∧ infos st' = [-1].
Proof.
  destruct (eig_status_of_work_call (toy_lapack 4 status_query_fails) [0; 0]
              true (fresh_state 1)) as [Hempty _].
  destruct (eig_status_of_work_call (toy_lapack 4 status_query_fails) [3; 3]
              true (fresh_state 1)) as [_ Hrun].
  split.
  - apply Hempty. vm_compute. discriminate.
  - apply Hrun. vm_compute. reflexivity.
Defined.
